(** * Verification of the Markdown translation scripts

    Shallow embedding of [scripts/translate_chapters.py] and
    [scripts/translate_to_ja.py]: the fence segmenter, inline-code
    protection and restoration, paragraph chunking, the per-chunk
    translation loop with its fallback, and the annotation normalizer.

    Python strings are sequences of Unicode code points; they are modelled
    as lists of code points ([N]).  The translator is an opaque, fallible
    and possibly stateful capability: a function from the text and its own
    state to an optional result ([None] stands for a raised [Exception])
    and a new state. *)

From Stdlib Require Import String Ascii DecimalString DecimalNat.
From Stdlib Require Import NArith Arith Bool Lia List.
Import ListNotations.
Open Scope list_scope.

Set Implicit Arguments.

(** ** Code points and strings *)

Definition char := N.
Definition str := list char.

Fixpoint str_of_string (s : string) : str :=
  match s with
  | EmptyString => []
  | String a s' => N_of_ascii a :: str_of_string s'
  end.

Notation "'py' s" := (str_of_string s%string) (at level 9, only parsing).

Definition LF : char := 10%N.
Definition CR : char := 13%N.
Definition BACKTICK : char := 96%N.
Definition NL2 : str := [LF; LF].

Fixpoint str_eqb (a b : str) : bool :=
  match a, b with
  | [], [] => true
  | x :: a', y :: b' => N.eqb x y && str_eqb a' b'
  | _, _ => false
  end.

(** ** Python built-ins used by the scripts *)

Module Py.

(** [str.isspace] on one code point (CPython's [_PyUnicode_IsWhitespace]);
    the same class is the regular expression [\s] on [str] patterns and the
    set removed by [str.strip()]. *)
Definition isspace (c : char) : bool :=
  ((9 <=? c) && (c <=? 13) || (28 <=? c) && (c <=? 32)
   || (c =? 133) || (c =? 160) || (c =? 5760)
   || (8192 <=? c) && (c <=? 8202)
   || (c =? 8232) || (c =? 8233) || (c =? 8239) || (c =? 8287)
   || (c =? 12288))%N.

(** Line boundaries recognised by [str.splitlines]
    (CPython's [_PyUnicode_IsLinebreak]). *)
Definition islinebreak (c : char) : bool :=
  ((10 <=? c) && (c <=? 13) || (28 <=? c) && (c <=? 30)
   || (c =? 133) || (c =? 8232) || (c =? 8233))%N.

(** [sep.join(xs)] *)
Fixpoint join (sep : str) (xs : list str) : str :=
  match xs with
  | [] => []
  | [x] => x
  | x :: rest => x ++ sep ++ join sep rest
  end.

(** Pushes a character on the first piece of a non-empty list of pieces. *)
Definition cons_head (c : char) (ps : list str) : list str :=
  match ps with
  | [] => [[c]]
  | p :: ps' => (c :: p) :: ps'
  end.

(** The pieces between line boundaries; [after_cr] records that the
    previous character was a carriage return, so that a following line
    feed belongs to the same boundary. *)
Fixpoint line_pieces (after_cr : bool) (s : str) : list str :=
  match s with
  | [] => [[]]
  | c :: s' =>
      if after_cr && (c =? LF)%N then line_pieces false s'
      else if islinebreak c then [] :: line_pieces (c =? CR)%N s'
      else cons_head c (line_pieces false s')
  end.

(** [s.splitlines()]: the pieces, without a final empty piece (no line
    follows the last boundary; the empty string has no line). *)
Definition splitlines (s : str) : list str :=
  let ps := line_pieces false s in
  match last ps [] with
  | [] => removelast ps
  | _ => ps
  end.

(** [s.startswith(p)] *)
Fixpoint startswith (p s : str) : bool :=
  match p, s with
  | [], _ => true
  | x :: p', y :: s' => (x =? y)%N && startswith p' s'
  | _ :: _, [] => false
  end.

(** [s.split(sep)] for a non-empty separator; [skip] counts the characters
    of a separator just found that remain to be passed over. *)
Fixpoint split_go (sep : str) (skip : nat) (s : str) : list str :=
  match s with
  | [] => [[]]
  | c :: s' =>
      match skip with
      | S k => split_go sep k s'
      | O =>
          if startswith sep s
          then [] :: split_go sep (length sep - 1) s'
          else cons_head c (split_go sep 0 s')
      end
  end.

Definition split (sep s : str) : list str := split_go sep 0 s.

(** [s.replace(old, new)]: every non-overlapping occurrence, leftmost
    first.  For an empty [old] Python inserts [new] before every
    character and at the end. *)
Fixpoint replace_go (old new : str) (skip : nat) (s : str) : str :=
  match s with
  | [] => []
  | c :: s' =>
      match skip with
      | S k => replace_go old new k s'
      | O =>
          if startswith old s
          then new ++ replace_go old new (length old - 1) s'
          else c :: replace_go old new 0 s'
      end
  end.

Definition replace (old new s : str) : str :=
  match old with
  | [] => new ++ flat_map (fun c => c :: new) s
  | _ => replace_go old new 0 s
  end.

(** [s.lstrip()], [s.rstrip()], [s.strip()] *)
Fixpoint lstrip (s : str) : str :=
  match s with
  | [] => []
  | c :: s' => if isspace c then lstrip s' else s
  end.

Definition rstrip (s : str) : str := rev (lstrip (rev s)).

Definition strip (s : str) : str := rstrip (lstrip s).

(** [str(n)] for a natural number. *)
Definition str_of_nat (n : nat) : str :=
  str_of_string (NilEmpty.string_of_uint (Nat.to_uint n)).

(** [s.title()] restricted to ASCII: a letter is upper-cased when the
    previous character is not a letter and lower-cased otherwise.  The
    scripts call it only on slugs, which the regular expressions restrict
    to [a-z0-9-]. *)
Definition isupper (c : char) : bool := ((65 <=? c) && (c <=? 90))%N.
Definition islower (c : char) : bool := ((97 <=? c) && (c <=? 122))%N.
Definition iscased (c : char) : bool := isupper c || islower c.
Definition toupper (c : char) : char := if islower c then (c - 32)%N else c.
Definition tolower (c : char) : char := if isupper c then (c + 32)%N else c.

Fixpoint title_go (prev_cased : bool) (s : str) : str :=
  match s with
  | [] => []
  | c :: s' =>
      (if prev_cased then tolower c else toupper c)
        :: title_go (iscased c) s'
  end.

Definition title (s : str) : str := title_go false s.

End Py.

(** ** Regular expressions

    A compiled pattern is represented by its attempt at one position: the
    character before the position (for the look-behind) and the text from
    the position on give the length of the match and the text of group 1.
    None of the scripts' patterns matches the empty string. *)

Definition matcher := option char -> str -> option (nat * str).

Fixpoint span (f : char -> bool) (s : str) : str * str :=
  match s with
  | [] => ([], [])
  | c :: s' =>
      if f c then let (a, b) := span f s' in (c :: a, b) else ([], s)
  end.

Fixpoint strip_prefix (p s : str) : option str :=
  match p, s with
  | [], _ => Some s
  | x :: p', y :: s' => if (x =? y)%N then strip_prefix p' s' else None
  | _ :: _, [] => None
  end.

(** The common shape of the scripts' patterns: a literal, then [\s*] when
    [ws] is set, then the group [(cls+)], then a closing character when
    there is one.  The repetitions are greedy; since in every use the class
    excludes both white space after [\s*] and the closing character, the
    greedy choice is the only one the backtracking engine can take. *)
Definition match_shape (lit : str) (ws : bool) (cls : char -> bool)
    (close : option char) (s : str) : option (nat * str) :=
  match strip_prefix lit s with
  | None => None
  | Some s1 =>
      let (sp, s2) := if ws then span Py.isspace s1 else ([], s1) in
      let (g, s3) := span cls s2 in
      match g with
      | [] => None
      | _ :: _ =>
          match close with
          | None => Some (length lit + length sp + length g, g)
          | Some d =>
              match s3 with
              | e :: _ =>
                  if (e =? d)%N
                  then Some (length lit + length sp + length g + 1, g)
                  else None
              | [] => None
              end
          end
      end
  end.

(** Negative look-behind for one character, [(?<!c)]. *)
Definition not_after (c : char) (prev : option char) : bool :=
  match prev with
  | Some p => negb (p =? c)%N
  | None => true
  end.

(** [re.sub(pattern, repl, s)] for a replacement without side effects:
    [repl] receives groups 0 and 1.  The scan is leftmost-first over
    non-overlapping matches; [skip] counts the characters of the current
    match still to be passed over. *)
Fixpoint re_sub_go (m : matcher) (repl : str -> str -> str)
    (prev : option char) (skip : nat) (s : str) : str :=
  match s with
  | [] => []
  | c :: s' =>
      match skip with
      | S k => re_sub_go m repl (Some c) k s'
      | O =>
          match m prev s with
          | Some (n, g) =>
              repl (firstn n s) g ++ re_sub_go m repl (Some c) (n - 1) s'
          | None => c :: re_sub_go m repl (Some c) 0 s'
          end
      end
  end.

Definition re_sub (m : matcher) (repl : str -> str -> str) (s : str) : str :=
  re_sub_go m repl None 0 s.

(** [re.sub] with a replacement function that updates a captured variable
    of type [St]. *)
Fixpoint re_sub_st_go {St : Type} (m : matcher)
    (repl : St -> str -> str -> str * St)
    (prev : option char) (skip : nat) (st : St) (s : str) : str * St :=
  match s with
  | [] => ([], st)
  | c :: s' =>
      match skip with
      | S k => re_sub_st_go m repl (Some c) k st s'
      | O =>
          match m prev s with
          | Some (n, g) =>
              let (r, st1) := repl st (firstn n s) g in
              let (out, st2) := re_sub_st_go m repl (Some c) (n - 1) st1 s' in
              (r ++ out, st2)
          | None =>
              let (out, st1) := re_sub_st_go m repl (Some c) 0 st s' in
              (c :: out, st1)
          end
      end
  end.

Definition re_sub_st {St : Type} (m : matcher)
    (repl : St -> str -> str -> str * St) (st : St) (s : str) : str * St :=
  re_sub_st_go m repl None 0 st s.

(** ** Python dictionaries, in insertion order *)

Definition dict := list (str * str).

Fixpoint dict_set (d : dict) (k v : str) : dict :=
  match d with
  | [] => [(k, v)]
  | (k', v') :: d' =>
      if str_eqb k' k then (k', v) :: d' else (k', v') :: dict_set d' k v
  end.

(** [d.update(e)] *)
Definition dict_update (d e : dict) : dict :=
  fold_left (fun acc kv => dict_set acc (fst kv) (snd kv)) e d.

(** ** The scripts *)

Definition is_nil {A : Type} (l : list A) : bool :=
  match l with
  | [] => true
  | _ :: _ => false
  end.

Definition isdigit (c : char) : bool := ((48 <=? c) && (c <=? 57))%N.

(** The class [[a-z0-9\-]]. *)
Definition isslug (c : char) : bool :=
  Py.islower c || isdigit c || (c =? 45)%N.

(** [chunk_paragraphs] of [translate_chapters.py]. *)
Fixpoint chunk_loop (max_chars : nat) (paragraphs : list str)
    (chunks current : list str) (current_len : nat)
    : list str * list str :=
  match paragraphs with
  | [] => (chunks, current)
  | p :: rest =>
      let add_len := length p + 2 in
      if (max_chars <? current_len + add_len) && negb (is_nil current)
      then chunk_loop max_chars rest
             (chunks ++ [Py.join NL2 current]) [p] (length p)
      else chunk_loop max_chars rest
             chunks (current ++ [p]) (current_len + add_len)
  end.

Definition chunk_paragraphs_with (max_chars : nat) (paragraphs : list str)
    : list str :=
  let (chunks, current) := chunk_loop max_chars paragraphs [] [] 0 in
  if negb (is_nil current) then chunks ++ [Py.join NL2 current] else chunks.

(** The default [max_chars=800]. *)
Definition chunk_paragraphs (paragraphs : list str) : list str :=
  chunk_paragraphs_with 800 paragraphs.

(** The same loop, keeping each chunk as the list of its paragraphs
    instead of their concatenation. *)
Fixpoint chunk_groups_loop (max_chars : nat) (paragraphs : list str)
    (groups : list (list str)) (current : list str) (current_len : nat)
    : list (list str) * list str :=
  match paragraphs with
  | [] => (groups, current)
  | p :: rest =>
      let add_len := length p + 2 in
      if (max_chars <? current_len + add_len) && negb (is_nil current)
      then chunk_groups_loop max_chars rest (groups ++ [current]) [p] (length p)
      else chunk_groups_loop max_chars rest
             groups (current ++ [p]) (current_len + add_len)
  end.

Definition chunk_groups (max_chars : nat) (paragraphs : list str)
    : list (list str) :=
  let (groups, current) := chunk_groups_loop max_chars paragraphs [] [] 0 in
  if negb (is_nil current) then groups ++ [current] else groups.

(** [chunk_paragraphs] of [translate_to_ja.py]: the same loop with the
    two tests of the condition in the other order. *)
Fixpoint chunk_loop_ja (max_chars : nat) (paragraphs : list str)
    (chunks current : list str) (current_len : nat)
    : list str * list str :=
  match paragraphs with
  | [] => (chunks, current)
  | p :: rest =>
      let add_len := length p + 2 in
      if negb (is_nil current) && (max_chars <? current_len + add_len)
      then chunk_loop_ja max_chars rest
             (chunks ++ [Py.join NL2 current]) [p] (length p)
      else chunk_loop_ja max_chars rest
             chunks (current ++ [p]) (current_len + add_len)
  end.

Definition chunk_paragraphs_ja_with (max_chars : nat) (paragraphs : list str)
    : list str :=
  let (chunks, current) := chunk_loop_ja max_chars paragraphs [] [] 0 in
  if negb (is_nil current) then chunks ++ [Py.join NL2 current] else chunks.

(** The length of a chunk when every paragraph counts for its length
    plus 2, as [add_len] does. *)
Definition counted_length (g : list str) : nat :=
  list_sum (map (fun p => length p + 2) g).

(** What a chunk has to satisfy: it is not empty, and its text is within
    the budget unless it is a single paragraph that is itself longer. *)
Definition chunk_ok (max_chars : nat) (g : list str) : Prop :=
  g <> [] /\
  (length (Py.join NL2 g) <= max_chars
   \/ exists p, g = [p] /\ max_chars < length p).

(** The invariant of the loop on the chunk being built: its text is no
    longer than [current_len], which is within the budget as soon as the
    chunk has a second paragraph. *)
Definition current_ok (max : nat) (current : list str) (len : nat) : Prop :=
  current <> [] ->
  length (Py.join NL2 current) <= len /\ (len <= max \/ exists p, current = [p]).

(** [FENCE_RE = ^\s*```], used with [match] on one line. *)
Definition FENCE_RE (line : str) : bool :=
  Py.startswith [BACKTICK; BACKTICK; BACKTICK] (Py.lstrip line).

(** [INLINE_CODE_RE = `([^`]+)`] *)
Definition INLINE_CODE_RE : matcher :=
  fun _ => match_shape [BACKTICK] false (fun c => negb (c =? BACKTICK)%N)
             (Some BACKTICK).

Definition inline_key (n : nat) : str :=
  py "__INLINE_CODE_" ++ Py.str_of_nat n ++ py "__".

(** [protect_inline_code]: the nested [repl] names the placeholder after
    the current size of [placeholders] and records the matched text. *)
Definition protect_repl (placeholders : dict) (g0 g1 : str) : str * dict :=
  let key := inline_key (length placeholders) in
  (key, dict_set placeholders key g0).

Definition protect_inline_code (text : str) : str * dict :=
  re_sub_st INLINE_CODE_RE protect_repl [] text.

(** [restore_inline_code] *)
Definition restore_inline_code (text : str) (placeholders : dict) : str :=
  fold_left (fun t kv => Py.replace (fst kv) (snd kv) t) placeholders text.

(** The patterns and [protect_annotations] of [translate_to_ja.py]. *)
Definition ANNO_TARGET_RE : matcher :=
  fun _ => match_shape (py "(annotation:") false (fun c => negb (c =? 41)%N)
             (Some 41%N).

Definition ANNO_BARE_RE : matcher :=
  fun prev s =>
    if not_after 40%N prev
    then match_shape (py "annotation:") false isslug None s
    else None.

Definition anno_repl (tag : str) (placeholders : dict) (g0 g1 : str)
    : str * dict :=
  let key := tag ++ Py.str_of_nat (length placeholders) ++ py "__" in
  (key, dict_set placeholders key g0).

Definition protect_annotations (text : str) : str * dict :=
  let (text1, ph1) := re_sub_st ANNO_TARGET_RE (anno_repl (py "__ANNO_T_")) [] text in
  re_sub_st ANNO_BARE_RE (anno_repl (py "__ANNO_B_")) ph1 text1.

(** The protection step of [translate_markdown] in each script. *)
Definition protect_chapters (p : str) : str * dict := protect_inline_code p.

Definition protect_ja (p : str) : str * dict :=
  let (prot, ph_inline) := protect_inline_code p in
  let (prot', ph_ann) := protect_annotations prot in
  (prot', dict_update ph_inline ph_ann).

(** [slug_to_title] *)
Definition slug_to_title (slug : str) : str :=
  Py.title (Py.strip (Py.replace (py "-") (py " ") slug)).

(** The four patterns of [normalize_annotations]. *)
Definition BRACKETED_RE : matcher :=
  fun _ => match_shape (py "[annotation:") true isslug (Some 93%N).

(** [\]\s+\(] *)
Definition SPACED_RE : matcher :=
  fun _ s =>
    match s with
    | c :: s1 =>
        if (c =? 93)%N then
          match span Py.isspace s1 with
          | (sp, d :: _) =>
              if negb (is_nil sp) && (d =? 40)%N
              then Some (length sp + 2, [])
              else None
          | (_, []) => None
          end
        else None
    | [] => None
    end.

Definition TARGET_RE : matcher :=
  fun _ => match_shape (py "(annotation:") true isslug (Some 41%N).

Definition BARE_RE : matcher :=
  fun prev s =>
    if not_after 40%N prev
    then match_shape (py "annotation:") true isslug None s
    else None.

Definition canonical_link (slug : str) : str :=
  py "[" ++ slug_to_title slug ++ py "](annotation:" ++ slug ++ py ")".

Definition repl_bracketed (g0 g1 : str) : str :=
  let slug := Py.strip g1 in canonical_link slug.

Definition repl_spaced (g0 g1 : str) : str := py "](".

Definition repl_target (g0 g1 : str) : str :=
  py "(annotation:" ++ g1 ++ py ")".

Definition repl_bare_annotation (g0 g1 : str) : str := canonical_link g1.

Definition pass1 (md : str) : str := re_sub BRACKETED_RE repl_bracketed md.
Definition pass2 (md : str) : str := re_sub SPACED_RE repl_spaced md.
Definition pass3 (md : str) : str := re_sub TARGET_RE repl_target md.
Definition pass4 (md : str) : str := re_sub BARE_RE repl_bare_annotation md.

(** [normalize_annotations] (identical in both scripts). *)
Definition normalize_annotations (md : str) : str :=
  pass4 (pass3 (pass2 (pass1 md))).

(** *** Segmentation: the first loop of [translate_markdown] *)

Definition segment := (bool * str)%type.

Fixpoint segment_loop (lines : list str) (segments : list segment)
    (buf : list str) (in_code : bool) : list segment * list str * bool :=
  match lines with
  | [] => (segments, buf, in_code)
  | line :: rest =>
      if FENCE_RE line then
        let segments1 :=
          if negb (is_nil buf)
          then segments ++ [(in_code, Py.join [LF] buf)]
          else segments in
        segment_loop rest (segments1 ++ [(true, line)]) [] (negb in_code)
      else segment_loop rest segments (buf ++ [line]) in_code
  end.

Definition segments_of (content : str) : list segment :=
  let '(segments, buf, in_code) :=
    segment_loop (Py.splitlines content) [] [] false in
  if negb (is_nil buf) then segments ++ [(in_code, Py.join [LF] buf)]
  else segments.

(** *** Translation of the text segments *)

Section Translate.

(** The translator: its state, and [translator.translate(text)], where
    [None] is a raised exception. *)
Variable T : Type.
Variable translate : str -> T -> option str * T.

(** The protection applied to each paragraph ([protect_chapters] or
    [protect_ja]). *)
Variable protect : str -> str * dict.

(** The body of the loop over the chunks. *)
Definition translate_chunk (ch : str) (t : T) : str * T :=
  let text := Py.strip ch in
  if is_nil text then (text, t)
  else
    match translate text t with
    | (Some translated, t') => (translated, t')
    | (None, t') => (text, t')
    end.

Fixpoint translate_chunks (chunks : list str) (translated_chunks : list str)
    (t : T) : list str * T :=
  match chunks with
  | [] => (translated_chunks, t)
  | ch :: rest =>
      let (r, t') := translate_chunk ch t in
      translate_chunks rest (translated_chunks ++ [r]) t'
  end.

(** The loop [for idx, tr_p in enumerate(tr_paras)]. *)
Fixpoint restore_loop (idx : nat) (tr_paras : list str)
    (placeholders_list : list dict) (restored : list str) : list str :=
  match tr_paras with
  | [] => restored
  | tr_p :: rest =>
      let tr_p' :=
        if idx <? length placeholders_list
        then restore_inline_code tr_p (nth idx placeholders_list [])
        else tr_p in
      restore_loop (S idx) rest placeholders_list (restored ++ [tr_p'])
  end.

Definition tr_paras_of (translated_seg : str) : list str :=
  if negb (is_nil translated_seg) then Py.split NL2 translated_seg else [].

Definition translate_text (seg : str) (t : T) : str * T :=
  let paragraphs := Py.split NL2 seg in
  let protected_paragraphs := map (fun p => fst (protect p)) paragraphs in
  let placeholders_list := map (fun p => snd (protect p)) paragraphs in
  let chunks := chunk_paragraphs protected_paragraphs in
  let (translated_chunks, t') := translate_chunks chunks [] t in
  let translated_seg := Py.join NL2 translated_chunks in
  let restored :=
    restore_loop 0 (tr_paras_of translated_seg) placeholders_list [] in
  (Py.join NL2 restored, t').

(** The loop [for is_code, seg in segments]. *)
Fixpoint translate_segments (segments : list segment) (out : list str)
    (t : T) : list str * T :=
  match segments with
  | [] => (out, t)
  | (is_code, seg) :: rest =>
      if is_code then translate_segments rest (out ++ [seg]) t
      else
        let (r, t') := translate_text seg t in
        translate_segments rest (out ++ [r]) t'
  end.

Definition translate_markdown (content : str) (t : T) : str * T :=
  let (out, t') := translate_segments (segments_of content) [] t in
  (Py.join [LF] out, t').

(** One document in [main]: translation, then normalization. *)
Definition process_document (content : str) (t : T) : str * T :=
  let (translated, t') := translate_markdown content t in
  (normalize_annotations translated, t').

End Translate.

(** A translator that also records the texts it is called with. *)
Definition logged {T : Type} (translate : str -> T -> option str * T)
    (text : str) (tl : T * list str) : option str * (T * list str) :=
  let (r, t') := translate text (fst tl) in (r, (t', snd tl ++ [text])).

(** Stateless translators used in the statements. *)
Definition identity_translator (text : str) (t : unit) : option str * unit :=
  (Some text, t).

Definition failing_translator (text : str) (t : unit) : option str * unit :=
  (None, t).

(** [needle in hay] *)
Fixpoint contains (needle hay : str) : bool :=
  Py.startswith needle hay ||
  match hay with
  | [] => false
  | _ :: hay' => contains needle hay'
  end.

(** Documents whose only line boundary is the line feed and that do not
    end with one. *)
Definition lf_only (content : str) : bool :=
  forallb (fun c => negb (Py.islinebreak c) || (c =? LF)%N) content
  && negb (last content 0 =? LF)%N.

(** Text segments without inline-code spans whose chunks neither begin
    nor end with white space. *)
Definition stable_text (seg : str) : bool :=
  forallb (fun p => is_nil (snd (protect_inline_code p))) (Py.split NL2 seg)
  && forallb (fun ch => str_eqb (Py.strip ch) ch)
       (chunk_paragraphs (Py.split NL2 seg)).

Definition stable_segments (content : str) : bool :=
  forallb (fun sg : segment => fst sg || stable_text (snd sg))
    (segments_of content).

(** *** Analysis of a paragraph for [protect_inline_code]

    A paragraph is read as the characters outside inline code and the
    spans [INLINE_CODE_RE] finds, in the order of the scan. *)
Inductive item : Type :=
  | Text (c : char)
  | Code (body : str).

Fixpoint spans_go (skip : nat) (s : str) : list item :=
  match s with
  | [] => []
  | c :: s' =>
      match skip with
      | S k => spans_go k s'
      | O =>
          match INLINE_CODE_RE None s with
          | Some (n, g) => Code g :: spans_go (n - 1) s'
          | None => Text c :: spans_go 0 s'
          end
      end
  end.

Definition code_text (body : str) : str := BACKTICK :: body ++ [BACKTICK].

(** The paragraph in which the spans of index below [j] are written out
    and the later ones are replaced by their placeholders; [idx] is the
    index of the first span of [items]. *)
Fixpoint mixed (j idx : nat) (items : list item) : str :=
  match items with
  | [] => []
  | Text c :: r => c :: mixed j idx r
  | Code g :: r =>
      (if idx <? j then code_text g else inline_key idx) ++ mixed j (S idx) r
  end.

Fixpoint source_of (items : list item) : str :=
  match items with
  | [] => []
  | Text c :: r => c :: source_of r
  | Code g :: r => code_text g ++ source_of r
  end.

(** The placeholders recorded for the spans. *)
Fixpoint table (idx : nat) (items : list item) : dict :=
  match items with
  | [] => []
  | Text _ :: r => table idx r
  | Code g :: r => (inline_key idx, code_text g) :: table (S idx) r
  end.

(** The dictionary holds the placeholders 0 .. n-1, in order. *)
Definition keys_ok (st : dict) : Prop :=
  map fst st = map inline_key (seq 0 (length st)).

(** No occurrence of [old] starts inside [x] in the text [x ++ rest]. *)
Fixpoint passes (old x rest : str) : Prop :=
  match x with
  | [] => True
  | _ :: x' => Py.startswith old (x ++ rest) = false /\ passes old x' rest
  end.

(** The text of the placeholders: [MARK] between two underscores and the
    index. *)
Definition MARK : str := py "INLINE_CODE_".

Definition UND : char := 95%N.

(** No two underscores in a row. *)
Fixpoint no_double (l : str) : bool :=
  match l with
  | x :: ((y :: _) as l') => negb ((x =? UND)%N && (y =? UND)%N) && no_double l'
  | _ => true
  end.

(** *** Vocabulary for the passes of [normalize_annotations]

    The brackets and parentheses delimit every pattern: no match reads
    past one of them, except as its first character. *)
Definition isstop (c : char) : bool :=
  (c =? 91)%N || (c =? 93)%N || (c =? 40)%N || (c =? 41)%N.

(** The text up to and including the first delimiter. *)
Fixpoint window_tail (s : str) : str :=
  match s with
  | [] => []
  | x :: s' => if isstop x then [x] else x :: window_tail s'
  end.

(** The character before the position that follows [x]. *)
Definition lastopt (p : option char) (x : str) : option char :=
  match x with
  | [] => p
  | _ :: _ => Some (last x 0%N)
  end.

(** The character before position [k] of [s]. *)
Definition prev_at (p : option char) (k : nat) (s : str) : option char :=
  match k with
  | O => p
  | S k' => nth_error s k'
  end.

(** Results of a match attempt that leave the text as it is: no match,
    and for the third pass also a target without white space. *)
Definition calm_none (r : option (nat * str)) : Prop := r = None.

Definition calm_target (r : option (nat * str)) : Prop :=
  match r with
  | None => True
  | Some (n, g) => n = 13 + length g
  end.

(** Every attempt of [mo] inside [x], in the text [x ++ rest], is calm. *)
Fixpoint quiet_in (mo : matcher) (calm : option (nat * str) -> Prop)
    (p : option char) (x rest : str) : Prop :=
  match x with
  | [] => True
  | c :: x' => calm (mo p (x ++ rest)) /\ quiet_in mo calm (Some c) x' rest
  end.

Definition quiet (mo : matcher) (calm : option (nat * str) -> Prop)
    (p : option char) (s : str) : Prop :=
  quiet_in mo calm p s [].

(** The attempts of [mo] are calm at the positions where the scan of
    [mt] stands without a match. *)
Fixpoint scan_calm (mo : matcher) (calm : option (nat * str) -> Prop)
    (mt : matcher) (p : option char) (skip : nat) (s : str) : Prop :=
  match s with
  | [] => True
  | c :: s' =>
      match skip with
      | S k => scan_calm mo calm mt (Some c) k s'
      | O =>
          match mt p s with
          | Some (n, _) => scan_calm mo calm mt (Some c) (n - 1) s'
          | None => calm (mo p s) /\ scan_calm mo calm mt (Some c) 0 s'
          end
      end
  end.

(** Previous characters that the look-behind does not tell apart. *)
Definition same_lookbehind (p p' : option char) : Prop :=
  not_after 40%N p = not_after 40%N p'.

Definition any_prev (p p' : option char) : Prop := True.

(** Characters a title can be made of. *)
Definition titlechar (c : char) : bool :=
  negb (isstop c) && negb (c =? 58)%N.

(** The word common to the patterns of [normalize_annotations]. *)
Definition WORD : str := py "annotation:".

(** *** Vocabulary for the further properties *)

(** The segment made of a run of lines between two fence lines, if the
    run is not empty. *)
Definition block (in_code : bool) (lines : list str) : list segment :=
  if negb (is_nil lines) then [(in_code, Py.join [LF] lines)] else [].

(** Lines that are not fence lines. *)
Definition plain_lines (lines : list str) : bool :=
  forallb (fun l => negb (FENCE_RE l)) lines.

(** The texts the loop over the chunks of one segment passes to the
    translator: the stripped chunks that are not empty; none for a code
    segment. *)
Definition sent_texts (protect : str -> str * dict) (sg : segment)
    : list str :=
  if fst sg then []
  else filter (fun text => negb (is_nil text))
         (map Py.strip
            (chunk_paragraphs
               (map (fun p => fst (protect p)) (Py.split NL2 (snd sg))))).

(** No closing bracket is followed by white space. *)
Fixpoint tight_brackets (s : str) : bool :=
  match s with
  | c :: ((d :: _) as s') =>
      negb ((c =? 93)%N && Py.isspace d) && tight_brackets s'
  | _ => true
  end.

(** A word with its first letter in upper case. *)
Definition capitalize (w : str) : str :=
  match w with
  | [] => []
  | c :: r => Py.toupper c :: r
  end.

(** A non-empty word made of lower-case letters only or of digits
    only. *)
Definition plain_word (w : str) : bool :=
  negb (is_nil w) && (forallb Py.islower w || forallb isdigit w).

(** The placeholder [protect_annotations] writes for a tag and a size of
    the mapping, and the two tags it uses. *)
Definition anno_key (tag : str) (n : nat) : str :=
  tag ++ Py.str_of_nat n ++ py "__".

Definition TAG_T : str := py "__ANNO_T_".
Definition TAG_B : str := py "__ANNO_B_".

(** The keys of the mapping are numbered [idx], [idx + 1], ... in
    order, each with one of the two tags. *)
Fixpoint anno_keyed (idx : nat) (st : dict) : Prop :=
  match st with
  | [] => True
  | (k, _) :: r =>
      (k = anno_key TAG_T idx \/ k = anno_key TAG_B idx)
      /\ anno_keyed (S idx) r
  end.

(** * Properties *)


(** ** Joining *)

Lemma join_cons sep x xs :
  xs <> [] -> Py.join sep (x :: xs) = x ++ sep ++ Py.join sep xs.
Proof. destruct xs; [congruence | reflexivity]. Qed.

Lemma join_app sep xs ys :
  xs <> [] -> ys <> [] ->
  Py.join sep (xs ++ ys) = Py.join sep xs ++ sep ++ Py.join sep ys.
Proof.
  induction xs as [|x xs IH]; intros Hx Hy; [congruence|].
  destruct xs as [|x' xs].
  - simpl app. now rewrite join_cons.
  - change ((x :: x' :: xs) ++ ys) with (x :: (x' :: xs) ++ ys).
    rewrite (join_cons sep x (xs := (x' :: xs) ++ ys)) by discriminate.
    rewrite (join_cons sep x (xs := x' :: xs)) by discriminate.
    rewrite IH by (discriminate || assumption).
    now rewrite <- !app_assoc.
Qed.

Lemma join_snoc sep xs x :
  xs <> [] -> Py.join sep (xs ++ [x]) = Py.join sep xs ++ sep ++ x.
Proof. intros H. now rewrite join_app. Qed.

(** A segment that is itself a join can be replaced by its lines. *)
Lemma join_join sep xs ys zs :
  ys <> [] ->
  Py.join sep (xs ++ Py.join sep ys :: zs) = Py.join sep (xs ++ ys ++ zs).
Proof.
  intros Hy.
  assert (Hmid : Py.join sep (Py.join sep ys :: zs) = Py.join sep (ys ++ zs)).
  { destruct zs as [|z zs].
    - now rewrite app_nil_r.
    - rewrite join_cons by discriminate.
      now rewrite join_app by (assumption || discriminate). }
  destruct xs as [|x xs]; [exact Hmid|].
  rewrite !join_app with (xs := x :: xs); try discriminate.
  - now rewrite Hmid.
  - destruct ys; [congruence | discriminate].
Qed.

Example splitlines_ex1 :
  Py.splitlines (py "a
b

c
") = [py "a"; py "b"; py ""; py "c"].
Proof. reflexivity. Qed.

Example splitlines_ex2 : Py.splitlines (py "") = [].
Proof. reflexivity. Qed.

Example splitlines_ex3 : Py.splitlines [97; CR; LF; 98; CR; 99]%N = [[97]; [98]; [99]]%N.
Proof. reflexivity. Qed.

Example split_ex1 :
  Py.split NL2 [97; LF; LF; LF; 98; LF; LF]%N = [[97]; [LF; 98]; []]%N.
Proof. reflexivity. Qed.

Example replace_ex1 :
  Py.replace (py "aa") (py "b") (py "aaaxaa") = py "baxb".
Proof. reflexivity. Qed.

Example title_ex1 : Py.title (py "red queen 2nd race") = py "Red Queen 2Nd Race".
Proof. reflexivity. Qed.

Example str_of_nat_ex : Py.str_of_nat 120 = py "120".
Proof. reflexivity. Qed.

(** ** The loops of [translate_markdown] *)

Section Loops.

Variable T : Type.
Variable translate : str -> T -> option str * T.
Variable protect : str -> str * dict.

Lemma translate_chunks_app chunks acc t :
  fst (translate_chunks translate chunks acc t)
  = acc ++ fst (translate_chunks translate chunks [] t)
  /\ snd (translate_chunks translate chunks acc t)
     = snd (translate_chunks translate chunks [] t).
Proof.
  revert acc t. induction chunks as [|ch rest IH]; intros acc t; simpl.
  - now rewrite app_nil_r.
  - destruct (translate_chunk translate ch t) as [r t'].
    destruct (IH (acc ++ [r]) t') as [E1 E2].
    destruct (IH [r] t') as [E3 E4].
    rewrite E1, E2, E3, E4. now rewrite <- app_assoc.
Qed.

(** When every chunk's result is a function of the chunk alone, the
    translated chunks are its image. *)
Lemma translate_chunks_map (f : str -> str) chunks acc t :
  (forall ch t0, fst (translate_chunk translate ch t0) = f ch) ->
  fst (translate_chunks translate chunks acc t) = acc ++ map f chunks.
Proof.
  intros Hf. revert acc t.
  induction chunks as [|ch rest IH]; intros acc t; simpl.
  - now rewrite app_nil_r.
  - specialize (Hf ch t).
    destruct (translate_chunk translate ch t) as [r t']. simpl in Hf.
    rewrite IH, <- app_assoc. now subst.
Qed.

Lemma restore_loop_app tr_paras phs idx acc :
  restore_loop idx tr_paras phs acc
  = acc ++ restore_loop idx tr_paras phs [].
Proof.
  revert idx acc. induction tr_paras as [|p rest IH]; intros idx acc; simpl.
  - now rewrite app_nil_r.
  - rewrite IH. rewrite (IH _ [_]). now rewrite <- app_assoc.
Qed.

Lemma restore_loop_length tr_paras phs idx :
  length (restore_loop idx tr_paras phs []) = length tr_paras.
Proof.
  revert idx. induction tr_paras as [|p rest IH]; intros idx; simpl; auto.
  rewrite restore_loop_app, length_app, IH. reflexivity.
Qed.

Lemma restore_loop_nth tr_paras phs idx i tr_p :
  nth_error tr_paras i = Some tr_p ->
  nth_error (restore_loop idx tr_paras phs []) i
  = Some (if idx + i <? length phs
          then restore_inline_code tr_p (nth (idx + i) phs [])
          else tr_p).
Proof.
  revert idx i. induction tr_paras as [|p rest IH]; intros idx i H.
  - destruct i; discriminate.
  - simpl. rewrite restore_loop_app. destruct i as [|i]; simpl in *.
    + injection H as ->. now rewrite Nat.add_0_r.
    + rewrite (IH (S idx) i H). now rewrite Nat.add_succ_r.
Qed.

Lemma translate_segments_app segs acc t :
  fst (translate_segments translate protect segs acc t)
  = acc ++ fst (translate_segments translate protect segs [] t)
  /\ snd (translate_segments translate protect segs acc t)
     = snd (translate_segments translate protect segs [] t).
Proof.
  revert acc t. induction segs as [|[is_code seg] rest IH]; intros acc t; simpl.
  - now rewrite app_nil_r.
  - destruct is_code.
    + destruct (IH (acc ++ [seg]) t) as [E1 E2].
      destruct (IH [seg] t) as [E3 E4].
      rewrite E1, E2, E3, E4. now rewrite <- app_assoc.
    + destruct (translate_text translate protect seg t) as [r t'].
      destruct (IH (acc ++ [r]) t') as [E1 E2].
      destruct (IH [r] t') as [E3 E4].
      rewrite E1, E2, E3, E4. now rewrite <- app_assoc.
Qed.

Lemma translate_segments_length segs t :
  length (fst (translate_segments translate protect segs [] t))
  = length segs.
Proof.
  revert t. induction segs as [|[is_code seg] rest IH]; intros t; simpl; auto.
  destruct is_code.
  - destruct (translate_segments_app rest [seg] t) as [-> _].
    simpl. now rewrite IH.
  - destruct (translate_text translate protect seg t) as [r t'].
    destruct (translate_segments_app rest [r] t') as [-> _].
    simpl. now rewrite IH.
Qed.

(** A code segment is copied to the same position of [out]. *)
Lemma translate_segments_code segs t i s :
  nth_error segs i = Some (true, s) ->
  nth_error (fst (translate_segments translate protect segs [] t)) i
  = Some s.
Proof.
  revert t i. induction segs as [|[is_code seg] rest IH]; intros t i H.
  - destruct i; discriminate.
  - simpl. destruct is_code.
    + destruct (translate_segments_app rest [seg] t) as [-> _].
      destruct i as [|i]; simpl in *; [congruence | now apply IH].
    + destruct (translate_text translate protect seg t) as [r t'].
      destruct (translate_segments_app rest [r] t') as [-> _].
      destruct i as [|i]; simpl in *; [congruence | now apply IH].
Qed.

End Loops.

(** ** Substrings *)

Lemma startswith_app p s : Py.startswith p (p ++ s) = true.
Proof. induction p; simpl; auto. now rewrite N.eqb_refl. Qed.

Lemma contains_app_r a b needle :
  contains needle b = true -> contains needle (a ++ b) = true.
Proof.
  intros H. induction a as [|c a IH]; simpl; auto.
  rewrite IH. apply orb_true_r.
Qed.

Lemma contains_here needle s : contains needle (needle ++ s) = true.
Proof.
  destruct (needle ++ s) eqn:E; simpl.
  - destruct needle; [reflexivity | discriminate].
  - rewrite <- E, startswith_app. reflexivity.
Qed.

Lemma contains_mid a needle b : contains needle (a ++ needle ++ b) = true.
Proof. apply contains_app_r, contains_here. Qed.

Lemma contains_join sep xs x :
  In x xs -> contains x (Py.join sep xs) = true.
Proof.
  induction xs as [|y xs IH]; intros H; [contradiction|].
  destruct xs as [|z xs].
  - destruct H as [->|[]]. simpl Py.join.
    rewrite <- (app_nil_r x) at 2. apply contains_here.
  - rewrite join_cons by discriminate. destruct H as [->|H].
    + apply contains_here.
    + apply contains_app_r, contains_app_r, IH, H.
Qed.

(** ** Claims about the translation loops *)

(** C10: for every translator and either protection step,
    [translate_markdown] maps the empty document to the empty string, and
    the translator is not called (its state and the record of its calls
    are unchanged). *)
Theorem translate_markdown_empty :
  forall (T : Type) (translate : str -> T -> option str * T)
         (protect : str -> str * dict) (t : T),
    translate_markdown translate protect [] t = ([], t)
    /\ translate_markdown (logged translate) protect_chapters [] (t, [])
       = ([], (t, []))
    /\ translate_markdown (logged translate) protect_ja [] (t, [])
       = ([], (t, [])).
Proof. intros. repeat split. Qed.

(** C7: the three concrete inputs of the annotation normalizer. *)
Theorem normalize_annotations_examples :
  normalize_annotations (py "[annotation: red-queen-race]")
  = py "[Red Queen Race](annotation:red-queen-race)"
  /\ normalize_annotations (py "See annotation:dead-letter-queue for details.")
     = py "See [Dead Letter Queue](annotation:dead-letter-queue) for details."
  /\ normalize_annotations (py "[Dead Letter](annotation: dead-letter-queue)")
     = py "[Dead Letter](annotation:dead-letter-queue)".
Proof. repeat split; vm_compute; reflexivity. Qed.

(** C9, as stated, fails: the chunk made of one space is white space
    only, yet what reaches the reassembled segment is the empty string,
    not the chunk. *)
Lemma blank_chunk_not_unchanged :
  let ch := py " " in
  chunk_paragraphs
    (map (fun p => fst (protect_chapters p)) (Py.split NL2 ch)) = [ch]
  /\ Py.strip ch = []
  /\ fst (translate_chunk identity_translator ch tt) <> ch
  /\ fst (translate_text identity_translator protect_chapters ch tt) = []
  /\ fst (translate_markdown identity_translator protect_chapters ch tt) = [].
Proof. vm_compute. repeat split; discriminate. Qed.

Lemma lstrip_blank ch : forallb Py.isspace ch = true -> Py.lstrip ch = [].
Proof.
  induction ch as [|c ch IH]; [reflexivity|]. cbn [forallb Py.lstrip].
  intros H. apply andb_true_iff in H as [Hc H]. rewrite Hc. now apply IH.
Qed.

Lemma strip_blank ch : forallb Py.isspace ch = true -> Py.strip ch = [].
Proof. intros H. unfold Py.strip. now rewrite lstrip_blank. Qed.

(** C9, amended: a chunk that is empty or made of white space only does
    not reach the translator (state and record of calls unchanged) and
    contributes the empty string, its stripped content, to the translated
    chunks. *)
Theorem blank_chunk_not_translated :
  forall (T : Type) (translate : str -> T -> option str * T)
         (ch : str) (t : T) (calls : list str),
    forallb Py.isspace ch = true ->
    Py.strip ch = []
    /\ translate_chunk (logged translate) ch (t, calls) = ([], (t, calls))
    /\ forall rest acc,
         translate_chunks (logged translate) (ch :: rest) acc (t, calls)
         = translate_chunks (logged translate) rest (acc ++ [[]]) (t, calls).
Proof.
  intros T translate ch t calls Hb.
  assert (H : Py.strip ch = []) by now apply strip_blank.
  assert (E : translate_chunk (logged translate) ch (t, calls)
              = ([], (t, calls))).
  { unfold translate_chunk. now rewrite H. }
  split; [exact H|]. split; [exact E|]. intros rest acc. simpl. now rewrite E.
Qed.

Lemma blank_chunk_not_translated_witness :
  forallb Py.isspace [32; LF; 9]%N = true
  /\ translate_chunk (logged identity_translator) [32; LF; 9]%N (tt, [])
     = ([], (tt, [])).
Proof.
  split; [reflexivity|].
  apply (blank_chunk_not_translated identity_translator [32; LF; 9]%N tt []).
  reflexivity.
Defined.

(** C3, as stated, fails when the chunk begins or ends with white space:
    the fallback is the stripped text, not the chunk. *)
Lemma fallback_not_chunk :
  let ch := py " a" in
  chunk_paragraphs
    (map (fun p => fst (protect_chapters p)) (Py.split NL2 ch)) = [ch]
  /\ fst (translate_chunk failing_translator ch tt) = py "a"
  /\ fst (translate_chunk failing_translator ch tt) <> ch.
Proof. vm_compute. repeat split; discriminate. Qed.

Section Fallback.

Variable T : Type.
Variable translate : str -> T -> option str * T.
Variable protect : str -> str * dict.
Hypothesis always_fails : forall text t, fst (translate text t) = None.

Lemma failing_chunk ch t :
  fst (translate_chunk translate ch t) = Py.strip ch.
Proof.
  unfold translate_chunk. destruct (is_nil (Py.strip ch)); [reflexivity|].
  specialize (always_fails (Py.strip ch) t).
  destruct (translate (Py.strip ch) t) as [[r|] t']; [discriminate|].
  reflexivity.
Qed.

End Fallback.

Lemma identity_chunk ch t :
  fst (translate_chunk identity_translator ch t) = Py.strip ch.
Proof. unfold translate_chunk. now destruct (is_nil (Py.strip ch)). Qed.

Section SameChunks.

Variables T1 T2 : Type.
Variable tr1 : str -> T1 -> option str * T1.
Variable tr2 : str -> T2 -> option str * T2.
Variable protect : str -> str * dict.
Variable f : str -> str.
Hypothesis H1 : forall ch t, fst (translate_chunk tr1 ch t) = f ch.
Hypothesis H2 : forall ch t, fst (translate_chunk tr2 ch t) = f ch.

Lemma same_text seg t1 t2 :
  fst (translate_text tr1 protect seg t1)
  = fst (translate_text tr2 protect seg t2).
Proof.
  unfold translate_text.
  pose proof (translate_chunks_map tr1 f
    (chunk_paragraphs (map (fun p => fst (protect p)) (Py.split NL2 seg)))
    [] t1 H1) as E1.
  pose proof (translate_chunks_map tr2 f
    (chunk_paragraphs (map (fun p => fst (protect p)) (Py.split NL2 seg)))
    [] t2 H2) as E2.
  destruct (translate_chunks tr1 _ [] t1) as [c1 t1'].
  destruct (translate_chunks tr2 _ [] t2) as [c2 t2'].
  simpl in *. now subst.
Qed.

Lemma same_segments segs acc t1 t2 :
  fst (translate_segments tr1 protect segs acc t1)
  = fst (translate_segments tr2 protect segs acc t2).
Proof.
  revert acc t1 t2.
  induction segs as [|[is_code seg] rest IH]; intros acc t1 t2; simpl; auto.
  destruct is_code; [apply IH|].
  pose proof (same_text seg t1 t2) as E.
  destruct (translate_text tr1 protect seg t1) as [r1 t1'].
  destruct (translate_text tr2 protect seg t2) as [r2 t2'].
  simpl in E. subst. apply IH.
Qed.

Lemma same_markdown content t1 t2 :
  fst (translate_markdown tr1 protect content t1)
  = fst (translate_markdown tr2 protect content t2).
Proof.
  unfold translate_markdown.
  pose proof (same_segments (segments_of content) [] t1 t2) as E.
  destruct (translate_segments tr1 protect _ [] t1).
  destruct (translate_segments tr2 protect _ [] t2).
  simpl in *. now subst.
Qed.

End SameChunks.

(** C3, amended: when the translation call fails, the result used for the
    chunk is the chunk's protected text with leading and trailing white
    space stripped, which is the text the call was given; and with a
    translator that fails on every input [translate_markdown] returns, with
    the document an identity translator would produce. *)
Theorem translation_failure_fallback :
  forall (T : Type) (translate : str -> T -> option str * T)
         (protect : str -> str * dict),
    (forall text t, fst (translate text t) = None) ->
    (forall ch t, fst (translate_chunk translate ch t) = Py.strip ch)
    /\ (forall content t,
          fst (translate_markdown translate protect content t)
          = fst (translate_markdown identity_translator protect content tt)).
Proof.
  intros T translate protect Hfail. split.
  - intros ch t. now apply failing_chunk.
  - intros content t.
    apply same_markdown with (f := Py.strip).
    + intros. now apply failing_chunk.
    + intros. apply identity_chunk.
Qed.

Lemma translation_failure_fallback_witness :
  (forall text t, fst (failing_translator text t) = None)
  /\ fst (translate_chunk failing_translator (py "  x `y` ") tt) = py "x `y`"
  /\ fst (translate_markdown failing_translator protect_chapters
            (py "t `c`") tt) = py "t `c`".
Proof.
  assert (H : forall text t, fst (failing_translator text t) = None)
    by reflexivity.
  destruct (translation_failure_fallback failing_translator protect_chapters H)
    as [Hc Hm].
  split; [exact H|]. split.
  - rewrite Hc. reflexivity.
  - rewrite Hm. reflexivity.
Defined.

(** C5: the translated segment is split again on the blank line; the
    paragraph at an index below the number of original paragraphs is
    restored with the mapping recorded for the original paragraph at that
    index, a paragraph at a larger index is kept as it is, and the
    restored list has one entry per translated paragraph. *)
Theorem positional_restore :
  forall (T : Type) (translate : str -> T -> option str * T)
         (protect : str -> str * dict) (seg : str) (t : T),
    let paragraphs := Py.split NL2 seg in
    let chunks := chunk_paragraphs (map (fun p => fst (protect p)) paragraphs) in
    let translated_seg :=
      Py.join NL2 (fst (translate_chunks translate chunks [] t)) in
    let tr_paras := tr_paras_of translated_seg in
    exists restored : list str,
      fst (translate_text translate protect seg t) = Py.join NL2 restored
      /\ length restored = length tr_paras
      /\ (translated_seg <> [] -> tr_paras = Py.split NL2 translated_seg)
      /\ forall i tr_p,
           nth_error tr_paras i = Some tr_p ->
           (i < length paragraphs ->
            nth_error restored i
            = Some (restore_inline_code tr_p
                      (snd (protect (nth i paragraphs [])))))
           /\ (length paragraphs <= i -> nth_error restored i = Some tr_p).
Proof.
  intros T translate protect seg t paragraphs chunks translated_seg tr_paras.
  exists (restore_loop 0 tr_paras
            (map (fun p => snd (protect p)) paragraphs) []).
  split; [|split; [|split]].
  - unfold translate_text. fold paragraphs. fold chunks.
    unfold tr_paras, translated_seg.
    now destruct (translate_chunks translate chunks [] t).
  - apply restore_loop_length.
  - unfold tr_paras, tr_paras_of. destruct translated_seg; [congruence|].
    reflexivity.
  - intros i tr_p Hi.
    rewrite (@restore_loop_nth tr_paras _ 0 i tr_p Hi). simpl. rewrite length_map.
    split; intros Hlt.
    + apply Nat.ltb_lt in Hlt as Hb. rewrite Hb.
      rewrite (nth_indep _ [] (snd (protect []))) by now rewrite length_map.
      now rewrite (map_nth (fun p => snd (protect p))).
    + apply Nat.ltb_ge in Hlt. now rewrite Hlt.
Qed.

Lemma positional_restore_witness :
  exists restored : list str,
    fst (translate_text identity_translator protect_chapters
           (py "a `x`") tt) = Py.join NL2 restored
    /\ nth_error restored 0 = Some (py "a `x`").
Proof.
  destruct (positional_restore identity_translator protect_chapters
              (py "a `x`") tt) as (restored & E & _ & _ & H).
  exists restored. split; [exact E|].
  destruct (H 0 (py "a __INLINE_CODE_0__") eq_refl) as [H0 _].
  rewrite H0; [reflexivity|]. vm_compute. lia.
Defined.

(** C1, as stated, fails: the normalizer runs over the whole document and
    rewrites a bracketed annotation inside a code block. *)
Lemma code_changed_by_normalizer :
  let doc := py "```
[annotation: x]
```" in
  In (true, py "[annotation: x]") (segments_of doc)
  /\ fst (process_document identity_translator protect_chapters doc tt)
     = py "```
[X](annotation:x)
```"
  /\ contains (py "[annotation: x]")
       (fst (process_document identity_translator protect_chapters doc tt))
     = false.
Proof. vm_compute. repeat split. right; left; reflexivity. Qed.

(** C1, amended: the content of every code segment is copied unchanged to
    the same position of the output list of [translate_markdown], whose
    result is that list joined by line feeds; so it appears unchanged in
    the document before [normalize_annotations] is applied. *)
Theorem code_segments_untranslated :
  forall (T : Type) (translate : str -> T -> option str * T)
         (protect : str -> str * dict) (content : str) (t : T)
         (i : nat) (s : str),
    nth_error (segments_of content) i = Some (true, s) ->
    let out :=
      fst (translate_segments translate protect (segments_of content) [] t) in
    nth_error out i = Some s
    /\ length out = length (segments_of content)
    /\ fst (translate_markdown translate protect content t) = Py.join [LF] out
    /\ contains s (fst (translate_markdown translate protect content t)) = true.
Proof.
  intros T translate protect content t i s H out.
  assert (Hn : nth_error out i = Some s)
    by now apply translate_segments_code.
  assert (Hm : fst (translate_markdown translate protect content t)
               = Py.join [LF] out).
  { unfold translate_markdown, out.
    now destruct (translate_segments translate protect _ [] t). }
  repeat split; auto.
  - apply translate_segments_length.
  - rewrite Hm. apply contains_join. eapply nth_error_In, Hn.
Qed.

Lemma code_segments_untranslated_witness :
  contains (py "x = `1`")
    (fst (translate_markdown failing_translator protect_ja (py "a
```
x = `1`
```") tt)) = true.
Proof.
  apply (code_segments_untranslated failing_translator protect_ja
           (py "a
```
x = `1`
```") tt 2 (s := py "x = `1`")).
  reflexivity.
Defined.

(** ** Chunking *)

Lemma chunk_loop_ja_eq max ps chunks current len :
  chunk_loop_ja max ps chunks current len = chunk_loop max ps chunks current len.
Proof.
  revert chunks current len.
  induction ps as [|p rest IH]; intros; simpl; auto.
  rewrite andb_comm. destruct (_ && _); apply IH.
Qed.

Lemma chunk_paragraphs_ja_eq max ps :
  chunk_paragraphs_ja_with max ps = chunk_paragraphs_with max ps.
Proof.
  unfold chunk_paragraphs_ja_with, chunk_paragraphs_with.
  now rewrite chunk_loop_ja_eq.
Qed.

Lemma chunk_loop_groups max ps groups current len :
  chunk_loop max ps (map (Py.join NL2) groups) current len
  = (map (Py.join NL2) (fst (chunk_groups_loop max ps groups current len)),
     snd (chunk_groups_loop max ps groups current len)).
Proof.
  revert groups current len.
  induction ps as [|p rest IH]; intros; simpl; auto.
  destruct (_ && _).
  - rewrite <- IH. now rewrite map_app.
  - apply IH.
Qed.

Lemma chunk_paragraphs_groups max ps :
  chunk_paragraphs_with max ps = map (Py.join NL2) (chunk_groups max ps).
Proof.
  unfold chunk_paragraphs_with, chunk_groups.
  change (chunk_loop max ps [] [] 0)
    with (chunk_loop max ps (map (Py.join NL2) []) [] 0).
  rewrite chunk_loop_groups.
  destruct (chunk_groups_loop max ps [] [] 0) as [gs cur]. simpl.
  destruct (is_nil cur); simpl; auto. now rewrite map_app.
Qed.

Lemma current_ok_chunk max current len :
  current <> [] -> current_ok max current len -> chunk_ok max current.
Proof.
  intros Hne Hok. split; [assumption|].
  destruct (Hok Hne) as [Hlen [Hmax | [p ->]]].
  - left. lia.
  - simpl. destruct (Nat.le_gt_cases (length p) max); [now left|].
    right. now exists p.
Qed.

Lemma chunk_groups_loop_inv max ps groups current len :
  Forall (chunk_ok max) groups ->
  current_ok max current len ->
  let r := chunk_groups_loop max ps groups current len in
  Forall (chunk_ok max) (fst r)
  /\ (exists len', current_ok max (snd r) len')
  /\ concat (fst r) ++ snd r = concat groups ++ current ++ ps.
Proof.
  revert groups current len.
  induction ps as [|p rest IH]; intros groups current len Hg Hc; simpl.
  - repeat split; auto. + now exists len. + now rewrite app_nil_r.
  - destruct (max <? len + (length p + 2)) eqn:Hcmp;
      destruct current as [|q current]; simpl.
    + (* first paragraph of the first chunk *)
      destruct (IH groups [p] (len + (length p + 2))) as (A & B & C); auto.
      { intros _. simpl. split; [lia | right; now exists p]. }
    + (* the chunk is closed *)
      destruct (IH (groups ++ [q :: current]) [p] (length p)) as (A & B & C).
      { apply Forall_app. split; auto. constructor; auto.
        apply current_ok_chunk with len; [discriminate | assumption]. }
      { intros _. simpl. split; [lia | right; now exists p]. }
      repeat split; auto.
      rewrite C, concat_app. simpl. now rewrite app_nil_r, <- !app_assoc.
    + destruct (IH groups [p] (len + (length p + 2))) as (A & B & C); auto.
      { intros _. simpl. split; [lia | right; now exists p]. }
    + (* the paragraph joins the chunk *)
      apply Nat.ltb_ge in Hcmp.
      destruct (IH groups ((q :: current) ++ [p]) (len + (length p + 2)))
        as (A & B & C); auto.
      { intros _. destruct (Hc ltac:(discriminate)) as [Hlen _].
        rewrite join_snoc by discriminate.
        rewrite !length_app. simpl length at 2. split; [lia | left; lia]. }
      repeat split; auto.
      simpl in C. rewrite C. simpl. now rewrite <- !app_assoc.
Qed.

Lemma chunk_groups_ok max ps :
  Forall (chunk_ok max) (chunk_groups max ps)
  /\ concat (chunk_groups max ps) = ps.
Proof.
  unfold chunk_groups.
  destruct (@chunk_groups_loop_inv max ps [] [] 0) as (A & [len' B] & C).
  { constructor. } { intros H. congruence. }
  destruct (chunk_groups_loop max ps [] [] 0) as [gs cur]. simpl in *.
  destruct cur as [|q cur]; simpl.
  - split; auto. now rewrite app_nil_r in C.
  - split.
    + apply Forall_app. split; auto. constructor; auto.
      apply current_ok_chunk with len'; [discriminate | assumption].
    + rewrite concat_app. simpl. now rewrite app_nil_r.
Qed.

(** C4, as stated, fails: a paragraph of 799 characters is a chunk of
    its own whose counted length, 801, exceeds the budget although the
    paragraph does not; and after a first chunk, two paragraphs of 398 and
    400 characters are put together although they count for 802. *)
Lemma counted_length_over_budget :
  let p := repeat 97%N 799 in
  let p0 := repeat 97%N 800 in
  let p1 := repeat 98%N 398 in
  let p2 := repeat 99%N 400 in
  chunk_groups 800 [p] = [[p]]
  /\ chunk_paragraphs [p] = [p]
  /\ counted_length [p] = 801
  /\ ~ (counted_length [p] <= 800 \/ exists q, [p] = [q] /\ 800 < length q)
  /\ chunk_groups 800 [p0; p1; p2] = [[p0]; [p1; p2]]
  /\ counted_length [p1; p2] = 802.
Proof.
  cbv zeta. repeat split; try (vm_compute; reflexivity).
  intros [H | [q [E H]]].
  - apply Nat.leb_le in H. vm_compute in H. discriminate.
  - injection E as E. subst q.
    apply Nat.ltb_lt in H. vm_compute in H. discriminate.
Qed.

(** C4, amended: the chunks of [chunk_paragraphs] are the joined groups
    of a partition of the paragraphs into consecutive non-empty groups,
    so that no paragraph is split, dropped or truncated; and the text of
    every chunk has at most 800 characters unless the chunk is a single
    paragraph that is itself longer than 800 characters.  Both scripts
    compute the same chunks. *)
Theorem chunk_bound :
  forall paragraphs : list str,
    chunk_paragraphs paragraphs
    = map (Py.join NL2) (chunk_groups 800 paragraphs)
    /\ chunk_paragraphs_ja_with 800 paragraphs = chunk_paragraphs paragraphs
    /\ concat (chunk_groups 800 paragraphs) = paragraphs
    /\ Forall (fun g =>
                 g <> [] /\
                 (length (Py.join NL2 g) <= 800
                  \/ exists p, g = [p] /\ 800 < length p))
         (chunk_groups 800 paragraphs).
Proof.
  intros ps. destruct (chunk_groups_ok 800 ps) as [A B].
  repeat split; auto.
  - apply chunk_paragraphs_groups.
  - apply chunk_paragraphs_ja_eq.
Qed.

(** ** Segmentation round trip *)

Lemma segment_loop_join lines segments buf in_code :
  let '(segments', buf', in_code') :=
    segment_loop lines segments buf in_code in
  Py.join [LF]
    (map snd (if negb (is_nil buf')
              then segments' ++ [(in_code', Py.join [LF] buf')]
              else segments'))
  = Py.join [LF] (map snd segments ++ buf ++ lines).
Proof.
  revert segments buf in_code.
  induction lines as [|line rest IH]; intros segments buf in_code.
  - cbn [segment_loop]. rewrite app_nil_r.
    destruct buf as [|b buf]; cbn [is_nil negb].
    + now rewrite app_nil_r.
    + rewrite map_app. cbn [map snd].
      rewrite join_join by discriminate. now rewrite app_nil_r.
  - cbn [segment_loop]. destruct (FENCE_RE line).
    + specialize (IH ((if negb (is_nil buf)
                       then segments ++ [(in_code, Py.join [LF] buf)]
                       else segments) ++ [(true, line)]) [] (negb in_code)).
      destruct (segment_loop rest _ [] (negb in_code)) as [[s' b'] c'].
      rewrite IH. rewrite map_app. cbn [map snd app].
      destruct buf as [|b buf]; cbn [is_nil negb app].
      * now rewrite <- app_assoc.
      * rewrite map_app. cbn [map snd]. rewrite <- !app_assoc.
        cbn [app]. now rewrite join_join by discriminate.
    + specialize (IH segments (buf ++ [line]) in_code).
      destruct (segment_loop rest segments (buf ++ [line]) in_code)
        as [[s' b'] c'].
      rewrite IH. now rewrite <- !app_assoc.
Qed.

(** Joining the segments gives back the lines of the document. *)
Lemma segments_join content :
  Py.join [LF] (map snd (segments_of content))
  = Py.join [LF] (Py.splitlines content).
Proof.
  unfold segments_of.
  pose proof (segment_loop_join (Py.splitlines content) [] [] false) as H.
  destruct (segment_loop (Py.splitlines content) [] [] false) as [[s b] c].
  exact H.
Qed.

Lemma line_pieces_nonempty b s : Py.line_pieces b s <> [].
Proof.
  revert b. induction s as [|c s IH]; intros b; simpl; [discriminate|].
  destruct (b && _); [apply IH|].
  destruct (Py.islinebreak c); [discriminate|].
  specialize (IH false). now destruct (Py.line_pieces false s).
Qed.

Lemma join_cons_head sep c ps :
  ps <> [] -> Py.join sep (Py.cons_head c ps) = c :: Py.join sep ps.
Proof.
  destruct ps as [|p ps]; [congruence|]. intros _.
  destruct ps; reflexivity.
Qed.

(** Documents whose only line boundary is the line feed. *)

Lemma line_pieces_join content :
  Forall (fun c => Py.islinebreak c = true -> c = LF) content ->
  Py.join [LF] (Py.line_pieces false content) = content.
Proof.
  induction 1 as [|c s Hc Hs IH]; [reflexivity|].
  cbn [Py.line_pieces andb]. destruct (Py.islinebreak c) eqn:E.
  - rewrite (Hc eq_refl). change (LF =? CR)%N with false.
    rewrite join_cons by apply line_pieces_nonempty.
    cbn [app]. now rewrite IH.
  - rewrite join_cons_head by apply line_pieces_nonempty. now rewrite IH.
Qed.

Lemma line_pieces_last content :
  Forall (fun c => Py.islinebreak c = true -> c = LF) content ->
  last (Py.line_pieces false content) [] = [] ->
  content = [] \/ last content 0%N = LF.
Proof.
  induction 1 as [|c s Hc Hs IH]; [now left|].
  cbn [Py.line_pieces andb]. destruct (Py.islinebreak c) eqn:E.
  - rewrite (Hc eq_refl). change (LF =? CR)%N with false.
    pose proof (line_pieces_nonempty false s) as Hne.
    destruct (Py.line_pieces false s) as [|p ps] eqn:Ep; [congruence|].
    intros Hl. right. destruct (IH Hl) as [-> | Hs'].
    + reflexivity.
    + destruct s; [discriminate | exact Hs'].
  - pose proof (line_pieces_nonempty false s) as Hne.
    destruct (Py.line_pieces false s) as [|p ps] eqn:Ep; [congruence|].
    cbn [Py.cons_head]. destruct ps as [|p' ps]; [discriminate|].
    intros Hl. right. destruct (IH Hl) as [-> | Hs'].
    + discriminate.
    + destruct s; [discriminate | exact Hs'].
Qed.

Lemma splitlines_join content :
  Forall (fun c => Py.islinebreak c = true -> c = LF) content ->
  last content 0%N <> LF ->
  Py.join [LF] (Py.splitlines content) = content.
Proof.
  intros Hlf Hlast. unfold Py.splitlines.
  destruct (last (Py.line_pieces false content) []) eqn:El.
  - destruct (line_pieces_last Hlf El) as [-> | H];
      [reflexivity | contradiction].
  - now apply line_pieces_join.
Qed.

(** ** Splitting and joining again *)

Lemma str_eqb_eq a b : str_eqb a b = true -> a = b.
Proof.
  revert b. induction a as [|x a IH]; destruct b as [|y b]; simpl;
    try discriminate; auto.
  intros H. apply andb_true_iff in H as [H1 H2].
  apply N.eqb_eq in H1. subst. f_equal. auto.
Qed.

Lemma str_eqb_refl a : str_eqb a a = true.
Proof. induction a; simpl; auto. now rewrite N.eqb_refl. Qed.

Lemma startswith_split p s :
  Py.startswith p s = true -> exists rest, s = p ++ rest.
Proof.
  revert s. induction p as [|x p IH]; intros s H.
  - now exists s.
  - destruct s as [|y s]; [discriminate|]. simpl in H.
    apply andb_true_iff in H as [H1 H2]. apply N.eqb_eq in H1. subst.
    destruct (IH s H2) as [rest ->]. now exists rest.
Qed.

Lemma split_go_skip sep a rest :
  Py.split_go sep (length a) (a ++ rest) = Py.split_go sep 0 rest.
Proof. induction a; simpl; auto. Qed.

Lemma split_go_nonempty sep k s : Py.split_go sep k s <> [].
Proof.
  revert k. induction s as [|c s IH]; intros k; [discriminate|].
  cbn [Py.split_go]. destruct k; [|apply IH].
  destruct (Py.startswith sep (c :: s)); [discriminate|].
  specialize (IH 0). now destruct (Py.split_go sep 0 s).
Qed.

Lemma join_split_bounded sep n s :
  sep <> [] -> length s <= n -> Py.join sep (Py.split_go sep 0 s) = s.
Proof.
  intros Hsep. revert s. induction n as [|n IH]; intros s Hn.
  - destruct s; [reflexivity | simpl in Hn; lia].
  - destruct s as [|c s]; [reflexivity|].
    cbn [Py.split_go]. destruct (Py.startswith sep (c :: s)) eqn:E.
    + destruct (startswith_split _ _ E) as [rest Hr].
      destruct sep as [|x sep]; [congruence|].
      injection Hr as <- ->.
      replace (length (c :: sep) - 1) with (length sep) by (simpl; lia).
      rewrite split_go_skip.
      rewrite join_cons by apply split_go_nonempty.
      rewrite IH; [reflexivity|].
      simpl in Hn. rewrite length_app in Hn. lia.
    + rewrite join_cons_head by apply split_go_nonempty.
      rewrite IH; [reflexivity | simpl in Hn; lia].
Qed.

Lemma join_split sep s :
  sep <> [] -> Py.join sep (Py.split sep s) = s.
Proof. intros H. now apply join_split_bounded with (length s). Qed.

Lemma join_concat sep gs :
  Forall (fun g : list str => g <> []) gs ->
  Py.join sep (map (Py.join sep) gs) = Py.join sep (concat gs).
Proof.
  induction 1 as [|g gs Hg Hgs IH]; [reflexivity|].
  cbn [map concat].
  pose proof (@join_join sep [] g (map (Py.join sep) gs) Hg) as E.
  cbn [app] in E. rewrite E. clear E.
  destruct gs as [|g' gs]; [reflexivity|].
  assert (Hne : concat (g' :: gs) <> []).
  { inversion Hgs; subst. cbn [concat]. destruct g'; [congruence | discriminate]. }
  rewrite !join_app; try assumption; try discriminate.
  now rewrite IH.
Qed.

Lemma chunk_paragraphs_join max ps :
  Py.join NL2 (chunk_paragraphs_with max ps) = Py.join NL2 ps.
Proof.
  rewrite chunk_paragraphs_groups.
  destruct (chunk_groups_ok max ps) as [A B].
  rewrite join_concat, B; [reflexivity|].
  eapply Forall_impl; [|exact A]. now intros g [H _].
Qed.

(** ** Paragraphs without inline code *)

Lemma dict_set_nonempty d k v : dict_set d k v <> [].
Proof. destruct d as [|[k' v'] d]; simpl; [discriminate|]. now destruct (str_eqb k' k). Qed.

Lemma protect_go_nonempty prev skip st s :
  st <> [] ->
  snd (re_sub_st_go INLINE_CODE_RE protect_repl prev skip st s) <> [].
Proof.
  revert prev skip st. induction s as [|c s IH]; intros prev skip st H; auto.
  cbn [re_sub_st_go]. destruct skip; [|now apply IH].
  destruct (INLINE_CODE_RE prev (c :: s)) as [[n g]|].
  - cbn [protect_repl].
    specialize (IH (Some c) (n - 1) _ (dict_set_nonempty st
      (inline_key (length st)) (firstn n (c :: s)))).
    now destruct (re_sub_st_go INLINE_CODE_RE protect_repl (Some c) (n - 1) _ s).
  - specialize (IH (Some c) 0 st H).
    now destruct (re_sub_st_go INLINE_CODE_RE protect_repl (Some c) 0 st s).
Qed.

Lemma protect_go_unchanged prev s :
  snd (re_sub_st_go INLINE_CODE_RE protect_repl prev 0 [] s) = [] ->
  fst (re_sub_st_go INLINE_CODE_RE protect_repl prev 0 [] s) = s.
Proof.
  revert prev. induction s as [|c s IH]; intros prev; auto.
  cbn [re_sub_st_go]. destruct (INLINE_CODE_RE prev (c :: s)) as [[n g]|].
  - cbn [protect_repl]. intros H. exfalso.
    pose proof (@protect_go_nonempty (Some c) (n - 1)
      (dict_set [] (inline_key (length (@nil (str * str))))
         (firstn n (c :: s))) s (dict_set_nonempty _ _ _)) as Hne.
    destruct (re_sub_st_go INLINE_CODE_RE protect_repl (Some c) (n - 1) _ s).
    now apply Hne.
  - specialize (IH (Some c)).
    destruct (re_sub_st_go INLINE_CODE_RE protect_repl (Some c) 0 [] s).
    simpl in *. intros H. now rewrite IH.
Qed.

Lemma protect_unchanged p :
  snd (protect_inline_code p) = [] -> fst (protect_inline_code p) = p.
Proof. apply protect_go_unchanged. Qed.

Lemma restore_loop_id tr_paras phs idx :
  Forall (fun d : dict => d = []) phs ->
  restore_loop idx tr_paras phs [] = tr_paras.
Proof.
  intros H. revert idx. induction tr_paras as [|p rest IH]; intros idx; auto.
  cbn [restore_loop]. rewrite restore_loop_app, IH.
  assert (E : nth idx phs [] = []).
  { destruct (nth_in_or_default idx phs []) as [Hin | ->]; auto.
    rewrite Forall_forall in H. now apply H. }
  rewrite E. now destruct (idx <? length phs).
Qed.

(** The identity translator leaves a stable text segment unchanged. *)
Lemma translate_text_stable seg t :
  stable_text seg = true ->
  fst (translate_text identity_translator protect_chapters seg t) = seg.
Proof.
  intros H. apply andb_true_iff in H as [Hp Hc].
  rewrite forallb_forall in Hp, Hc.
  assert (Eprot : map (fun p => fst (protect_chapters p)) (Py.split NL2 seg)
                  = Py.split NL2 seg).
  { rewrite <- (map_id (Py.split NL2 seg)) at 2. apply map_ext_in.
    intros p Hin. apply protect_unchanged.
    specialize (Hp p Hin). now destruct (snd (protect_inline_code p)). }
  assert (Eph : Forall (fun d : dict => d = [])
                  (map (fun p => snd (protect_chapters p)) (Py.split NL2 seg))).
  { apply Forall_forall. intros d Hd. apply in_map_iff in Hd as [p [<- Hin]].
    specialize (Hp p Hin). unfold protect_chapters.
    now destruct (snd (protect_inline_code p)). }
  unfold translate_text. rewrite Eprot.
  pose proof (translate_chunks_map identity_translator Py.strip
    (chunk_paragraphs (Py.split NL2 seg)) [] t
    (fun ch t0 => identity_chunk ch t0)) as Ech.
  destruct (translate_chunks identity_translator _ [] t) as [tc t'].
  cbn [fst] in *. rewrite Ech. cbn [app].
  assert (Emap : map Py.strip (chunk_paragraphs (Py.split NL2 seg))
                 = chunk_paragraphs (Py.split NL2 seg)).
  { rewrite <- (map_id (chunk_paragraphs (Py.split NL2 seg))) at 2.
    apply map_ext_in. intros ch Hin. apply str_eqb_eq. now apply Hc. }
  rewrite Emap. unfold chunk_paragraphs. rewrite chunk_paragraphs_join.
  rewrite join_split by discriminate.
  rewrite restore_loop_id by assumption.
  unfold tr_paras_of. destruct seg as [|c seg]; [reflexivity|].
  cbn [is_nil negb]. now apply join_split.
Qed.

Lemma translate_segments_stable segs t :
  forallb (fun sg : segment => fst sg || stable_text (snd sg)) segs = true ->
  fst (translate_segments identity_translator protect_chapters segs [] t)
  = map snd segs.
Proof.
  revert t. induction segs as [|[is_code seg] rest IH]; intros t H; auto.
  cbn [forallb fst snd] in H. apply andb_true_iff in H as [H1 H2].
  cbn [translate_segments]. destruct is_code.
  - destruct (translate_segments_app identity_translator protect_chapters
                rest [seg] t) as [E _].
    cbn [app]. rewrite E. cbn [map snd app]. now rewrite IH.
  - cbn [orb] in H1. pose proof (translate_text_stable seg t H1) as Et.
    destruct (translate_text identity_translator protect_chapters seg t)
      as [r t'].
    cbn [fst] in Et. subst r.
    destruct (translate_segments_app identity_translator protect_chapters
                rest [seg] t') as [E _].
    cbn [app]. rewrite E. cbn [map snd app]. now rewrite IH.
Qed.

(** C2, as stated, fails: a document that ends with a line feed has no
    fence line at all, yet joining its segments loses the final line
    feed, and so does [translate_markdown] with the identity translator. *)
Lemma trailing_newline_lost :
  let doc := [97; LF]%N in
  filter FENCE_RE (Py.splitlines doc) = []
  /\ Py.join [LF] (map snd (segments_of doc)) = [97]%N
  /\ Py.join [LF] (map snd (segments_of doc)) <> doc
  /\ snd (protect_inline_code doc) = []
  /\ fst (translate_markdown identity_translator protect_chapters doc tt)
     <> doc.
Proof. vm_compute. repeat split; discriminate. Qed.

(** C2, amended: for every document whose only line boundary is the line
    feed and that does not end with one (whatever its number of fence
    lines), joining the contents of the segments by line feeds gives the
    document back; and if moreover its text segments have no inline-code
    span and their chunks neither begin nor end with white space,
    [translate_markdown] with the identity translator returns the document
    unchanged. *)
Theorem fence_round_trip :
  forall content : str,
    lf_only content = true ->
    Py.join [LF] (map snd (segments_of content)) = content
    /\ (stable_segments content = true ->
        fst (translate_markdown identity_translator protect_chapters
               content tt) = content).
Proof.
  intros content H. apply andb_true_iff in H as [H1 H2].
  assert (E : Py.join [LF] (map snd (segments_of content)) = content).
  { rewrite segments_join. apply splitlines_join.
    - apply Forall_forall. intros c Hin Hlb.
      rewrite forallb_forall in H1. specialize (H1 c Hin).
      rewrite Hlb in H1. now apply N.eqb_eq in H1.
    - intros Hl. rewrite Hl in H2. discriminate. }
  split; [exact E|]. intros Hs.
  unfold translate_markdown.
  pose proof (translate_segments_stable (segments_of content) tt Hs) as Eo.
  destruct (translate_segments identity_translator protect_chapters _ [] tt).
  cbn [fst] in *. now subst.
Qed.

Lemma fence_round_trip_witness :
  let doc := py "intro

more
```
x = 1

```
end" in
  lf_only doc = true
  /\ Py.join [LF] (map snd (segments_of doc)) = doc
  /\ fst (translate_markdown identity_translator protect_chapters doc tt) = doc.
Proof.
  intros doc.
  assert (H : lf_only doc = true) by reflexivity.
  destruct (fence_round_trip doc H) as [A B].
  split; [exact H|]. split; [exact A|]. apply B. reflexivity.
Defined.

(** ** Inline-code protection and restoration *)

Lemma span_app f s :
  fst (span f s) ++ snd (span f s) = s.
Proof.
  induction s as [|c s IH]; [reflexivity|]. cbn [span].
  destruct (f c); [|reflexivity].
  destruct (span f s) as [a b]. simpl in *. now rewrite IH.
Qed.

Lemma span_all f s : forallb f (fst (span f s)) = true.
Proof.
  induction s as [|c s IH]; [reflexivity|]. cbn [span].
  destruct (f c) eqn:E; [|reflexivity].
  destruct (span f s) as [a b]. simpl in *. now rewrite E, IH.
Qed.

Lemma span_stop f s c r : snd (span f s) = c :: r -> f c = false.
Proof.
  induction s as [|x s IH]; [discriminate|]. cbn [span].
  destruct (f x) eqn:E.
  - destruct (span f s) as [a b]. simpl in *. exact IH.
  - simpl. now intros [= <- _].
Qed.

Lemma strip_prefix_app p s s1 : strip_prefix p s = Some s1 -> s = p ++ s1.
Proof.
  revert s. induction p as [|x p IH]; intros s H.
  - now injection H as ->.
  - destruct s as [|y s]; [discriminate|]. simpl in H.
    destruct (x =? y)%N eqn:E; [|discriminate].
    apply N.eqb_eq in E. subst. simpl. f_equal. auto.
Qed.

Lemma skipn_code_text g r k :
  k = length (code_text g) -> skipn k (code_text g ++ r) = r.
Proof. intros ->. now rewrite skipn_app, skipn_all, Nat.sub_diag. Qed.

(** What a match of [INLINE_CODE_RE] looks like. *)
Lemma inline_match prev s n g :
  INLINE_CODE_RE prev s = Some (n, g) ->
  n = length g + 2
  /\ s = code_text g ++ skipn n s
  /\ forallb (fun c => negb (c =? BACKTICK)%N) g = true.
Proof.
  unfold INLINE_CODE_RE, match_shape.
  destruct (strip_prefix [BACKTICK] s) as [s1|] eqn:E1; [|discriminate].
  apply strip_prefix_app in E1.
  pose proof (span_app (fun c => negb (c =? BACKTICK)%N) s1) as Ea.
  pose proof (span_all (fun c => negb (c =? BACKTICK)%N) s1) as Eb.
  destruct (span (fun c => negb (c =? BACKTICK)%N) s1) as [a b].
  cbn [fst snd] in *.
  destruct a as [|a0 a]; [discriminate|].
  destruct b as [|e b]; [discriminate|].
  destruct (e =? BACKTICK)%N eqn:Ee; [|discriminate].
  apply N.eqb_eq in Ee. intros [= <- <-]. subst e.
  split; [cbn [length]; lia|]. split; [|exact Eb].
  subst s s1.
  assert (Hs : [BACKTICK] ++ (a0 :: a) ++ BACKTICK :: b
               = code_text (a0 :: a) ++ b).
  { unfold code_text. simpl. now rewrite <- app_assoc. }
  rewrite Hs. f_equal. symmetry. apply skipn_code_text.
  unfold code_text. cbn [length]. rewrite length_app. cbn [length]. lia.
Qed.

Lemma firstn_code_text g r : firstn (length g + 2) (code_text g ++ r) = code_text g.
Proof.
  replace (length g + 2) with (length (code_text g) + 0)
    by (unfold code_text; simpl; rewrite length_app; simpl; lia).
  rewrite firstn_app_2. simpl. now rewrite app_nil_r.
Qed.

Lemma spans_source k s : source_of (spans_go k s) = skipn k s.
Proof.
  revert k. induction s as [|c s IH]; intros k.
  - now destruct k.
  - cbn [spans_go]. destruct k as [|k]; [|apply IH].
    destruct (INLINE_CODE_RE None (c :: s)) as [[n g]|] eqn:E.
    + apply inline_match in E as (En & Es & _).
      cbn [source_of]. rewrite IH.
      transitivity (code_text g ++ skipn n (c :: s)); [|now symmetry].
      f_equal. subst n.
      replace (length g + 2) with (S (length g + 1)) by lia.
      cbn [skipn]. f_equal. lia.
    + cbn [source_of]. now rewrite IH.
Qed.

(** *** The placeholders are distinct *)

Lemma str_of_string_inj a b : str_of_string a = str_of_string b -> a = b.
Proof.
  revert b. induction a as [|x a IH]; destruct b as [|y b]; simpl;
    try discriminate; auto.
  intros [= H1 H2]. f_equal; auto.
  rewrite <- (ascii_N_embedding x), <- (ascii_N_embedding y). now rewrite H1.
Qed.

Lemma str_of_nat_inj a b : Py.str_of_nat a = Py.str_of_nat b -> a = b.
Proof.
  unfold Py.str_of_nat. intros H. apply str_of_string_inj in H.
  apply Unsigned.to_uint_inj.
  assert (E : Some (Nat.to_uint a) = Some (Nat.to_uint b))
    by now rewrite <- !NilEmpty.usu, H.
  now injection E.
Qed.

Lemma digits_of_uint d :
  forallb isdigit (str_of_string (NilEmpty.string_of_uint d)) = true.
Proof. induction d; simpl; auto. Qed.

Lemma str_of_nat_digits n : forallb isdigit (Py.str_of_nat n) = true.
Proof. apply digits_of_uint. Qed.

Lemma str_of_nat_nonempty n : Py.str_of_nat n <> [].
Proof.
  unfold Py.str_of_nat. intros H.
  assert (E : Nat.to_uint n = Decimal.Nil).
  { destruct (Nat.to_uint n); simpl in H; try discriminate. reflexivity. }
  pose proof (Unsigned.of_to n) as Hn. rewrite E in Hn. simpl in Hn. subst n.
  discriminate.
Qed.

Lemma inline_key_inj a b : inline_key a = inline_key b -> a = b.
Proof.
  unfold inline_key. intros H. apply app_inv_head in H.
  apply app_inv_tail in H. now apply str_of_nat_inj.
Qed.

Lemma str_eqb_neq a b : a <> b -> str_eqb a b = false.
Proof.
  intros H. destruct (str_eqb a b) eqn:E; auto.
  apply str_eqb_eq in E. contradiction.
Qed.

Lemma dict_set_fresh d k v :
  ~ In k (map fst d) -> dict_set d k v = d ++ [(k, v)].
Proof.
  induction d as [|[k' v'] d IH]; intros H; [reflexivity|].
  simpl in *. rewrite str_eqb_neq by tauto. f_equal. apply IH. tauto.
Qed.

Lemma keys_ok_fresh st : keys_ok st -> ~ In (inline_key (length st)) (map fst st).
Proof.
  unfold keys_ok. intros -> H. apply in_map_iff in H as [i [E Hi]].
  apply inline_key_inj in E. apply in_seq in Hi. lia.
Qed.

Lemma keys_ok_snoc st v :
  keys_ok st -> keys_ok (st ++ [(inline_key (length st), v)]).
Proof.
  unfold keys_ok. intros H.
  rewrite map_app, length_app, H. simpl length.
  rewrite Nat.add_1_r, seq_S, map_app. reflexivity.
Qed.

(** [protect_inline_code] in terms of the analysis. *)
Lemma protect_go_spec s prev skip st :
  keys_ok st ->
  re_sub_st_go INLINE_CODE_RE protect_repl prev skip st s
  = (mixed 0 (length st) (spans_go skip s),
     st ++ table (length st) (spans_go skip s)).
Proof.
  revert prev skip st. induction s as [|c s IH]; intros prev skip st Hst.
  - simpl. now rewrite app_nil_r.
  - cbn [re_sub_st_go spans_go]. destruct skip as [|k]; [|now apply IH].
    change (INLINE_CODE_RE prev (c :: s)) with (INLINE_CODE_RE None (c :: s)).
    destruct (INLINE_CODE_RE None (c :: s)) as [[n g]|] eqn:E.
    + apply inline_match in E as (En & Es & _).
      unfold protect_repl.
      rewrite dict_set_fresh by now apply keys_ok_fresh.
      rewrite (IH (Some c) (n - 1) _ (keys_ok_snoc _ Hst)).
      cbn [mixed table]. rewrite length_app. simpl length.
      rewrite Nat.add_1_r. simpl Nat.ltb.
      rewrite <- app_assoc. simpl app.
      rewrite Es, En, firstn_code_text. reflexivity.
    + rewrite (IH (Some c) 0 st Hst). reflexivity.
Qed.

Lemma protect_spec p :
  protect_inline_code p = (mixed 0 0 (spans_go 0 p), table 0 (spans_go 0 p)).
Proof. apply (@protect_go_spec p None 0 []). reflexivity. Qed.

(** *** Replacing a placeholder *)

Lemma replace_go_skip old new a rest :
  Py.replace_go old new (length a) (a ++ rest) = Py.replace_go old new 0 rest.
Proof. induction a; simpl; auto. Qed.

Lemma replace_go_hit old new rest :
  old <> [] ->
  Py.replace_go old new 0 (old ++ rest) = new ++ Py.replace_go old new 0 rest.
Proof.
  destruct old as [|c old]; [congruence|]. intros _.
  change ((c :: old) ++ rest) with (c :: old ++ rest).
  cbn [Py.replace_go].
  change (c :: old ++ rest) with ((c :: old) ++ rest).
  rewrite startswith_app.
  replace (length (c :: old) - 1) with (length old) by (simpl; lia).
  now rewrite replace_go_skip.
Qed.

Lemma replace_go_pass old new x rest :
  passes old x rest ->
  Py.replace_go old new 0 (x ++ rest) = x ++ Py.replace_go old new 0 rest.
Proof.
  induction x as [|c x IH]; intros H; [reflexivity|].
  destruct H as [H1 H2].
  change ((c :: x) ++ rest) with (c :: x ++ rest) in *.
  cbn [Py.replace_go]. rewrite H1. now rewrite IH.
Qed.

Lemma passes_app old a b rest :
  passes old a (b ++ rest) -> passes old b rest -> passes old (a ++ b) rest.
Proof.
  induction a as [|c a IH]; intros Ha Hb; [exact Hb|].
  destruct Ha as [H1 H2]. cbn [passes app] in *. split.
  - now rewrite <- app_assoc.
  - now apply IH.
Qed.

Lemma startswith_app_same a b c :
  Py.startswith (a ++ b) (a ++ c) = Py.startswith b c.
Proof. induction a; simpl; auto. now rewrite N.eqb_refl. Qed.

Lemma startswith_stop l x d r :
  Py.startswith l (x ++ d :: r) = true -> ~ In d l ->
  Py.startswith l x = true.
Proof.
  revert x. induction l as [|y l IH]; intros x H Hd; [reflexivity|].
  destruct x as [|c x]; simpl in *.
  - apply andb_true_iff in H as [H _]. apply N.eqb_eq in H. tauto.
  - apply andb_true_iff in H as [H1 H2]. rewrite H1. simpl.
    apply IH; tauto.
Qed.

Lemma contains_app_l a b needle :
  contains needle a = true -> contains needle (a ++ b) = true.
Proof.
  induction a as [|c a IH]; simpl.
  - rewrite orb_false_r. intros H. destruct needle; [|discriminate].
    now destruct b.
  - intros H. apply orb_true_iff in H as [H | H].
    + destruct (startswith_split _ _ H) as [rest Hr].
      change (c :: a ++ b) with ((c :: a) ++ b). rewrite Hr, <- app_assoc.
      now rewrite startswith_app.
    + rewrite IH by assumption. apply orb_true_r.
Qed.

Lemma contains_tail needle c s :
  contains needle (c :: s) = false -> contains needle s = false.
Proof. simpl. intros H. now apply orb_false_iff in H as [_ H]. Qed.

Lemma not_contains_app needle a b :
  contains needle (a ++ b) = false ->
  contains needle a = false /\ contains needle b = false.
Proof.
  intros H. split.
  - destruct (contains needle a) eqn:E; auto.
    now rewrite (@contains_app_l a b needle E) in H.
  - destruct (contains needle b) eqn:E; auto.
    now rewrite (@contains_app_r a b needle E) in H.
Qed.

Lemma startswith_contains a w b x :
  Py.startswith (a ++ w ++ b) x = true -> contains w x = true.
Proof.
  intros H. destruct (startswith_split _ _ H) as [rest ->].
  rewrite <- !app_assoc. apply contains_mid.
Qed.

(** *** The shape of the placeholders *)

Lemma inline_key_shape n :
  inline_key n = [UND; UND] ++ MARK ++ Py.str_of_nat n ++ [UND; UND].
Proof. reflexivity. Qed.

Lemma digit_not_und d : isdigit d = true -> (UND =? d)%N = false.
Proof.
  unfold isdigit, UND. intros H. apply andb_true_iff in H as [_ H].
  apply N.leb_le in H. apply N.eqb_neq. lia.
Qed.

Lemma digit_not_backtick d : isdigit d = true -> d <> BACKTICK.
Proof.
  unfold isdigit, BACKTICK. intros H. apply andb_true_iff in H as [_ H].
  apply N.leb_le in H. lia.
Qed.

Lemma str_of_nat_head n :
  exists d ds, Py.str_of_nat n = d :: ds /\ isdigit d = true
               /\ forallb isdigit ds = true.
Proof.
  pose proof (str_of_nat_digits n) as H.
  pose proof (@str_of_nat_nonempty n) as Hne.
  destruct (Py.str_of_nat n) as [|d ds]; [congruence|].
  simpl in H. apply andb_true_iff in H as [H1 H2]. now exists d, ds.
Qed.

Lemma inline_key_no_backtick n : ~ In BACKTICK (inline_key n).
Proof.
  rewrite inline_key_shape. intros H.
  apply in_app_or in H as [H | H].
  { simpl in H. unfold UND, BACKTICK in H. intuition discriminate. }
  apply in_app_or in H as [H | H].
  { vm_compute in H. intuition discriminate. }
  apply in_app_or in H as [H | H].
  - pose proof (str_of_nat_digits n) as Hd. rewrite forallb_forall in Hd.
    now apply (digit_not_backtick (Hd _ H)).
  - simpl in H. unfold UND, BACKTICK in H. intuition discriminate.
Qed.

Lemma digits_differ a b rest :
  forallb isdigit a = true -> forallb isdigit b = true ->
  Py.startswith (a ++ [UND; UND]) (b ++ [UND; UND] ++ rest) = true -> a = b.
Proof.
  revert b. induction a as [|x a IH]; intros b Ha Hb H.
  - destruct b as [|y b]; [reflexivity|]. exfalso.
    simpl in Hb. apply andb_true_iff in Hb as [Hy _].
    apply digit_not_und in Hy.
    cbn [app Py.startswith] in H. rewrite Hy in H. discriminate.
  - simpl in Ha. apply andb_true_iff in Ha as [Hx Ha].
    destruct b as [|y b].
    + exfalso. simpl in H. apply andb_true_iff in H as [H _].
      apply N.eqb_eq in H. subst x.
      apply digit_not_und in Hx. now rewrite N.eqb_refl in Hx.
    + simpl in Hb. apply andb_true_iff in Hb as [Hy Hb].
      simpl in H. apply andb_true_iff in H as [H1 H2].
      apply N.eqb_eq in H1. subst y. f_equal. now apply IH.
Qed.

(** A run of characters of a placeholder that is not its beginning can
    only be met by characters outside inline code. *)
Lemma texts_only L d tl j idx items :
  L <> [] ->
  ~ In BACKTICK L ->
  no_double L = true ->
  d <> UND ->
  Py.startswith (L ++ d :: tl) (mixed j idx items) = true ->
  exists items', items = map Text L ++ items'.
Proof.
  intros HL. revert idx items.
  induction L as [|x L IH]; [congruence|].
  intros idx items Hbt Hnd Hd H.
  destruct items as [|[c|g] r].
  - discriminate.
  - cbn [mixed] in H. simpl in H. apply andb_true_iff in H as [H1 H2].
    apply N.eqb_eq in H1. subst c.
    destruct L as [|y L].
    + now exists r.
    + destruct (IH ltac:(discriminate) idx r) as [items' ->]; auto.
      * simpl in Hbt |- *. tauto.
      * cbn [no_double] in Hnd. now apply andb_true_iff in Hnd as [_ Hnd].
      * now exists items'.
  - exfalso. cbn [mixed] in H. destruct (idx <? j).
    + unfold code_text in H. simpl in H. apply andb_true_iff in H as [H _].
      apply N.eqb_eq in H. subst x. simpl in Hbt. tauto.
    + rewrite inline_key_shape in H. simpl in H.
      apply andb_true_iff in H as [H1 H2]. 
      destruct L as [|y L].
      * simpl in H2. apply andb_true_iff in H2 as [H2 _].
        apply N.eqb_eq in H2. congruence.
      * simpl in H2. apply andb_true_iff in H2 as [H2 _].
        cbn [no_double] in Hnd. rewrite H1, H2 in Hnd. discriminate.
Qed.

Lemma source_of_texts L r : source_of (map Text L ++ r) = L ++ source_of r.
Proof. induction L; simpl; auto. now f_equal. Qed.

(** The end of a placeholder followed by the text cannot complete another
    placeholder. *)
Lemma no_key_tail L j idx items :
  L = MARK \/ L = UND :: MARK ->
  contains MARK (source_of items) = false ->
  Py.startswith (L ++ Py.str_of_nat j ++ [UND; UND]) (mixed j idx items)
  = false.
Proof.
  intros HL Hsrc.
  destruct (Py.startswith _ _) eqn:E; [exfalso | reflexivity].
  destruct (str_of_nat_head j) as (d & ds & Ed & Hd & _).
  rewrite Ed in E. cbn [app] in E.
  apply texts_only in E as [items' ->].
  - rewrite source_of_texts in Hsrc.
    destruct HL as [-> | ->].
    + now rewrite contains_here in Hsrc.
    + change (UND :: MARK) with ([UND] ++ MARK) in Hsrc.
      rewrite <- app_assoc in Hsrc.
      now rewrite (@contains_app_r [UND] _ MARK (contains_here MARK _)) in Hsrc.
  - destruct HL as [-> | ->]; discriminate.
  - destruct HL as [-> | ->]; vm_compute; intuition discriminate.
  - destruct HL as [-> | ->]; reflexivity.
  - intros ->. pose proof (digit_not_und _ Hd) as E'.
    now rewrite N.eqb_refl in E'.
Qed.

Lemma no_key_text c j idx r :
  contains MARK (source_of (Text c :: r)) = false ->
  Py.startswith (inline_key j) (c :: mixed j idx r) = false.
Proof.
  intros Hsrc.
  destruct (Py.startswith _ _) eqn:E; [exfalso | reflexivity].
  rewrite inline_key_shape in E. cbn [app Py.startswith] in E.
  apply andb_true_iff in E as [E1 E2]. apply N.eqb_eq in E1. subst c.
  destruct (str_of_nat_head j) as (d & ds & Ed & Hd & _).
  change (Py.startswith ((UND :: MARK) ++ Py.str_of_nat j ++ [UND; UND])
            (mixed j idx r) = true) in E2.
  rewrite Ed in E2.
  apply (@texts_only (UND :: MARK) d (ds ++ [UND; UND])) in E2
    as [items' ->].
  - cbn [source_of] in Hsrc. rewrite source_of_texts in Hsrc.
    change (UND :: (UND :: MARK) ++ source_of items')
      with ([UND; UND] ++ MARK ++ source_of items') in Hsrc.
    now rewrite contains_mid in Hsrc.
  - discriminate.
  - vm_compute; intuition discriminate.
  - reflexivity.
  - intros ->. pose proof (digit_not_und _ Hd) as E'.
    now rewrite N.eqb_refl in E'.
Qed.

Lemma passes_digits key ds rest :
  forallb isdigit ds = true -> passes (UND :: key) ds rest.
Proof.
  induction ds as [|d ds IH]; intros H; [exact I|].
  simpl in H. apply andb_true_iff in H as [Hd Hds].
  split; [|now apply IH].
  cbn [app Py.startswith]. now rewrite (digit_not_und _ Hd).
Qed.

(** Another placeholder is passed over unchanged. *)
Lemma passes_key i j rest :
  i <> j ->
  Py.startswith (MARK ++ Py.str_of_nat j ++ [UND; UND]) rest = false ->
  Py.startswith ((UND :: MARK) ++ Py.str_of_nat j ++ [UND; UND]) rest = false ->
  passes (inline_key j) (inline_key i) rest.
Proof.
  intros Hij H2 H1.
  rewrite (inline_key_shape i).
  change ([UND; UND] ++ MARK ++ Py.str_of_nat i ++ [UND; UND])
    with (([UND; UND] ++ MARK) ++ Py.str_of_nat i ++ [UND; UND]).
  apply passes_app; [|apply passes_app].
  - (* inside the fixed part *)
    destruct (str_of_nat_head i) as (d & ds & Ed & Hd & _).
    assert (Hfirst : Py.startswith (inline_key j)
              (([UND; UND] ++ MARK) ++ (Py.str_of_nat i ++ [UND; UND]) ++ rest)
            = false).
    { rewrite inline_key_shape.
      change ([UND; UND] ++ MARK ++ Py.str_of_nat j ++ [UND; UND])
        with (([UND; UND] ++ MARK) ++ Py.str_of_nat j ++ [UND; UND]).
      rewrite startswith_app_same, <- app_assoc.
      destruct (Py.startswith (Py.str_of_nat j ++ [UND; UND])
                  (Py.str_of_nat i ++ [UND; UND] ++ rest)) eqn:E;
        [exfalso | reflexivity].
      apply digits_differ in E; try apply str_of_nat_digits.
      apply str_of_nat_inj in E. congruence. }
    split; [exact Hfirst|].
    rewrite Ed. pose proof (digit_not_und _ Hd) as Hu. unfold UND in Hu.
    simpl in Hu. rewrite inline_key_shape. simpl. rewrite Hu. simpl.
    repeat split; reflexivity.
  - rewrite inline_key_shape. apply passes_digits, str_of_nat_digits.
  - rewrite inline_key_shape. cbn [passes app Py.startswith] in *.
    rewrite !N.eqb_refl, H1, H2. repeat split; reflexivity.
Qed.

(** A written-out span is passed over unchanged. *)
Lemma passes_body key g rest :
  ~ In BACKTICK key ->
  (forall x, Py.startswith key x = true -> contains MARK x = true) ->
  contains MARK g = false ->
  passes key g (BACKTICK :: rest).
Proof.
  intros Hbt Hk. induction g as [|x g IH]; intros Hg; [exact I|].
  split.
  - destruct (Py.startswith key _) eqn:E; [exfalso | reflexivity].
    apply startswith_stop in E; [|assumption].
    apply Hk in E. congruence.
  - apply IH. now apply contains_tail in Hg.
Qed.

Lemma inline_key_mark j x :
  Py.startswith (inline_key j) x = true -> contains MARK x = true.
Proof. rewrite inline_key_shape. apply startswith_contains. Qed.

Lemma passes_code j g rest :
  contains MARK g = false -> passes (inline_key j) (code_text g) rest.
Proof.
  intros Hg. unfold code_text. split; [reflexivity|].
  apply passes_app.
  - apply passes_body;
      [apply inline_key_no_backtick | intros x; apply inline_key_mark
       | exact Hg].
  - split; [reflexivity | exact I].
Qed.

(** *** Restoring the placeholders one after the other *)

Lemma source_code_parts g r :
  contains MARK (source_of (Code g :: r)) = false ->
  contains MARK g = false /\ contains MARK (source_of r) = false.
Proof.
  cbn [source_of]. intros H. apply not_contains_app in H as [H1 H2].
  split; [|exact H2].
  unfold code_text in H1. apply contains_tail in H1.
  now apply not_contains_app in H1 as [H1 _].
Qed.

(** Replacing placeholder [j] by its text writes out span [j] and changes
    nothing else. *)
Lemma replace_step j new items idx :
  contains MARK (source_of items) = false ->
  (idx <= j -> nth_error (table idx items) (j - idx) = Some (inline_key j, new)) ->
  Py.replace_go (inline_key j) new 0 (mixed j idx items)
  = mixed (S j) idx items.
Proof.
  revert idx. induction items as [|[c|g] r IH]; intros idx Hsrc Hnew.
  - reflexivity.
  - cbn [mixed Py.replace_go]. rewrite (@no_key_text c j idx r Hsrc).
    f_equal. apply IH; [|exact Hnew].
    cbn [source_of] in Hsrc. now apply contains_tail in Hsrc.
  - destruct (@source_code_parts g r Hsrc) as [Hg Hr].
    cbn [mixed]. destruct (Nat.lt_trichotomy idx j) as [Hlt | [Heq | Hgt]].
    + (* an earlier span, already written out *)
      assert (E1 : (idx <? j) = true) by now apply Nat.ltb_lt.
      assert (E2 : (idx <? S j) = true) by (apply Nat.ltb_lt; lia).
      rewrite E1, E2. rewrite replace_go_pass by now apply passes_code.
      f_equal. apply IH; [exact Hr|]. intros Hle.
      specialize (Hnew ltac:(lia)). cbn [table] in Hnew.
      replace (j - idx) with (S (j - S idx)) in Hnew by lia. exact Hnew.
    + (* the span of the placeholder *)
      subst idx. rewrite Nat.ltb_irrefl.
      assert (E2 : (j <? S j) = true) by (apply Nat.ltb_lt; lia).
      rewrite E2. specialize (Hnew (Nat.le_refl j)).
      rewrite Nat.sub_diag in Hnew. cbn [table nth_error] in Hnew.
      injection Hnew as <-.
      rewrite replace_go_hit by (rewrite inline_key_shape; discriminate).
      f_equal. apply IH; [exact Hr|]. intros Hle. lia.
    + (* a later placeholder *)
      assert (E1 : (idx <? j) = false) by (apply Nat.ltb_ge; lia).
      assert (E2 : (idx <? S j) = false) by (apply Nat.ltb_ge; lia).
      rewrite E1, E2. rewrite replace_go_pass.
      * f_equal. apply IH; [exact Hr|]. intros Hle. lia.
      * apply passes_key; [lia | |].
        -- apply no_key_tail; [now left | exact Hr].
        -- apply no_key_tail; [now right | exact Hr].
Qed.

Lemma table_length_mixed j idx items :
  idx + length (table idx items) <= j -> mixed j idx items = source_of items.
Proof.
  revert idx. induction items as [|[c|g] r IH]; intros idx H; cbn [mixed source_of].
  - reflexivity.
  - f_equal. now apply IH.
  - cbn [table length] in H.
    assert (E : (idx <? j) = true) by (apply Nat.ltb_lt; lia).
    rewrite E. f_equal. apply IH. lia.
Qed.

Lemma table_nth idx items k e :
  nth_error (table idx items) k = Some e -> fst e = inline_key (idx + k).
Proof.
  revert idx k. induction items as [|[c|g] r IH]; intros idx k H.
  - destruct k; discriminate.
  - now apply IH.
  - cbn [table] in H. destruct k as [|k]; simpl in H.
    + injection H as <-. now rewrite Nat.add_0_r.
    + apply IH in H. now rewrite Nat.add_succ_r.
Qed.

Lemma skipn_nth_error {A : Type} (l : list A) k e :
  nth_error l k = Some e -> skipn k l = e :: skipn (S k) l.
Proof.
  revert k. induction l as [|x l IH]; intros k H.
  - destruct k; discriminate.
  - destruct k as [|k]; simpl in *.
    + now injection H as ->.
    + now apply IH.
Qed.

Lemma replace_inline_key j new s :
  Py.replace (inline_key j) new s = Py.replace_go (inline_key j) new 0 s.
Proof. reflexivity. Qed.

Lemma restore_from items n j :
  contains MARK (source_of items) = false ->
  n + j = length (table 0 items) ->
  restore_inline_code (mixed j 0 items) (skipn j (table 0 items))
  = source_of items.
Proof.
  intros Hsrc. revert j. induction n as [|n IH]; intros j Hj.
  - simpl in Hj. subst j. rewrite skipn_all. cbn [restore_inline_code fold_left].
    now apply table_length_mixed.
  - destruct (nth_error (table 0 items) j) as [e|] eqn:E.
    2:{ apply nth_error_None in E. lia. }
    rewrite (@skipn_nth_error _ _ _ _ E).
    unfold restore_inline_code. cbn [fold_left].
    pose proof (@table_nth _ _ _ _ E) as Ek. cbn [Nat.add] in Ek.
    rewrite Ek, replace_inline_key.
    rewrite replace_step; auto.
    + apply IH. lia.
    + intros _. rewrite Nat.sub_0_r, E. destruct e as [k v].
      cbn [fst snd] in *. now subst k.
Qed.

(** Protection followed by restoration gives the paragraph back as soon
    as the paragraph does not contain the text of the placeholders. *)
Lemma protect_restore p :
  contains MARK p = false ->
  restore_inline_code (fst (protect_inline_code p))
    (snd (protect_inline_code p)) = p.
Proof.
  intros H. rewrite protect_spec. cbn [fst snd].
  pose proof (spans_source 0 p) as Hs. cbn [skipn] in Hs.
  rewrite <- Hs in H.
  rewrite <- Hs at 3.
  apply (@restore_from (spans_go 0 p) (length (table 0 (spans_go 0 p))) 0 H).
  lia.
Qed.

(** C8, as stated, fails: when the paragraph already contains text that
    looks like a placeholder, restoring the first placeholder also rewrites
    the beginning of the second, and the span is lost. *)
Lemma inline_code_lost :
  let p := py "`x`__INLINE_CODE_0`foo_bar`" in
  let translate := fun text : str => text in
  contains (py "`foo_bar`") p = true
  /\ snd (protect_inline_code p)
     = [(py "__INLINE_CODE_0__", py "`x`");
        (py "__INLINE_CODE_1__", py "`foo_bar`")]
  /\ restore_inline_code (translate (fst (protect_inline_code p)))
       (snd (protect_inline_code p)) = py "`x``x`INLINE_CODE_1__"
  /\ contains (py "`foo_bar`")
       (restore_inline_code (translate (fst (protect_inline_code p)))
          (snd (protect_inline_code p))) = false.
Proof. vm_compute. repeat split. Qed.

(** C8, amended: for every paragraph that contains the span `foo_bar`
    and does not contain the text [INLINE_CODE_] of the placeholders,
    protection, identity translation and restoration give the paragraph
    back, so the span appears unchanged in the output. *)
Theorem inline_code_immunity :
  forall p : str,
    contains (py "`foo_bar`") p = true ->
    contains (py "INLINE_CODE_") p = false ->
    let translate := fun text : str => text in
    let output :=
      restore_inline_code (translate (fst (protect_inline_code p)))
        (snd (protect_inline_code p)) in
    output = p /\ contains (py "`foo_bar`") output = true.
Proof.
  intros p Hfoo Hmark translate output.
  assert (E : output = p) by now apply protect_restore.
  split; [exact E | now rewrite E].
Qed.

Lemma inline_code_immunity_witness :
  let p := py "call `foo_bar` with `x_1` and __init__" in
  restore_inline_code (fst (protect_inline_code p))
    (snd (protect_inline_code p)) = p.
Proof.
  intros p.
  apply (inline_code_immunity p); reflexivity.
Defined.

(** ** The annotation normalizer is idempotent

    The argument follows the scan of each pass: a pass leaves calm the
    attempts of the patterns of the passes before it and of its own, at
    the positions it does not touch because the text up to the next
    delimiter is unchanged there, and inside the text it writes because
    of the shape of that text. *)

Unset Implicit Arguments.

Lemma prev_at_cons p c k s :
  prev_at (Some c) k s = prev_at p (S k) (c :: s).
Proof. now destruct k. Qed.

Lemma re_sub_go_skip m r s p k :
  k <= length s ->
  re_sub_go m r p k s = re_sub_go m r (prev_at p k s) 0 (skipn k s).
Proof.
  revert p k. induction s as [|c s IH]; intros p k Hk.
  - destruct k; [reflexivity | simpl in Hk; lia].
  - destruct k as [|k]; [reflexivity|].
    cbn [re_sub_go skipn]. rewrite IH by (simpl in Hk; lia).
    now rewrite (prev_at_cons p).
Qed.

Lemma scan_calm_skip mo calm mt s p k :
  k <= length s ->
  scan_calm mo calm mt p k s ->
  scan_calm mo calm mt (prev_at p k s) 0 (skipn k s).
Proof.
  revert p k. induction s as [|c s IH]; intros p k Hk H.
  - destruct k; [exact H | simpl in Hk; lia].
  - destruct k as [|k]; [exact H|].
    cbn [scan_calm skipn] in *. rewrite <- (prev_at_cons p).
    apply IH; [simpl in Hk; lia | exact H].
Qed.

Lemma lastopt_cons p c x : lastopt p (c :: x) = lastopt (Some c) x.
Proof.
  destruct x as [|d x]; [reflexivity|].
  unfold lastopt. f_equal.
Qed.

Lemma quiet_in_app mo calm p a b r :
  quiet_in mo calm p a (b ++ r) ->
  quiet_in mo calm (lastopt p a) b r ->
  quiet_in mo calm p (a ++ b) r.
Proof.
  revert p. induction a as [|c a IH]; intros p Ha Hb; [exact Hb|].
  destruct Ha as [H1 H2]. cbn [quiet_in app]. split.
  - change (c :: a ++ b) with ((c :: a) ++ b). now rewrite <- app_assoc.
  - apply IH; [exact H2|]. now rewrite <- (lastopt_cons p).
Qed.

Lemma quiet_in_tail mo calm p c x r :
  quiet_in mo calm p (c :: x) r -> quiet_in mo calm (Some c) x r.
Proof. now intros [_ H]. Qed.

Section Preserve.

(** The pattern observed, with its calm results and the previous
    characters it does not tell apart; and the pass that rewrites. *)
Variable mo : matcher.
Variable calm : option (nat * str) -> Prop.
Variable eqv : option char -> option char -> Prop.
Variable mt : matcher.
Variable rt : str -> str -> str.

Hypothesis eqv_refl : forall p, eqv p p.

Hypothesis mt_pos :
  forall p s n g, mt p s = Some (n, g) -> 1 <= n <= length s.

Hypothesis head_stable :
  forall c t p p',
    eqv p p' -> mt p (c :: t) = None -> calm (mo p (c :: t)) ->
    calm (mo p' (c :: re_sub_go mt rt (Some c) 0 t)).

Hypothesis inside_calm :
  forall p p' s n g rest,
    mt p s = Some (n, g) -> eqv p p' ->
    quiet_in mo calm p' (rt (firstn n s) g) rest.

Hypothesis after_eqv :
  forall p p' s n g,
    mt p s = Some (n, g) ->
    eqv (prev_at p n s) (lastopt p' (rt (firstn n s) g)).

Lemma preserve_bounded n :
  forall s, length s <= n ->
  forall p p', eqv p p' ->
    scan_calm mo calm mt p 0 s ->
    quiet mo calm p' (re_sub_go mt rt p 0 s).
Proof.
  induction n as [|n IH]; intros s Hn p p' Hp Hs.
  - destruct s; [exact I | simpl in Hn; lia].
  - destruct s as [|c s]; [exact I|].
    cbn [re_sub_go scan_calm] in *.
    destruct (mt p (c :: s)) as [[m g]|] eqn:E.
    + destruct (mt_pos _ _ _ _ E) as [Hm1 Hm2]. cbn [length] in Hm2.
      rewrite re_sub_go_skip by lia.
      apply quiet_in_app.
      * now apply inside_calm with p.
      * apply IH.
        -- rewrite length_skipn. simpl in Hn. lia.
        -- rewrite (prev_at_cons p).
           replace (S (m - 1)) with m by lia. now apply after_eqv.
        -- apply scan_calm_skip; [lia | exact Hs].
    + destruct Hs as [Hc Hs]. split.
      * rewrite app_nil_r. now apply head_stable with p.
      * apply IH; [simpl in Hn; lia | apply eqv_refl | exact Hs].
Qed.

Lemma preserve s p p' :
  eqv p p' ->
  scan_calm mo calm mt p 0 s ->
  quiet mo calm p' (re_sub_go mt rt p 0 s).
Proof. now apply preserve_bounded with (length s). Qed.

End Preserve.

(** What is calm everywhere is calm where a scan stands. *)
Lemma quiet_scan_calm mo calm mt s p k :
  quiet mo calm p s -> scan_calm mo calm mt p k s.
Proof.
  revert p k. induction s as [|c s IH]; intros p k H; [exact I|].
  destruct H as [H1 H2]. rewrite app_nil_r in H1.
  cbn [scan_calm]. destruct k as [|k]; [|now apply IH].
  destruct (mt p (c :: s)) as [[n g]|]; [now apply IH|].
  split; [exact H1 | now apply IH].
Qed.

(** A pattern is calm where its own scan stands without a match. *)
Lemma own_scan_calm m calm s p k :
  calm None -> scan_calm m calm m p k s.
Proof.
  intros Hc. revert p k. induction s as [|c s IH]; intros p k; [exact I|].
  cbn [scan_calm]. destruct k as [|k]; [|apply IH].
  destruct (m p (c :: s)) as [[n g]|] eqn:E; [apply IH|].
  split; [exact Hc | apply IH].
Qed.

Section QuietIdentity.

Variable mo : matcher.
Variable ro : str -> str -> str.
Variable calm : option (nat * str) -> Prop.

Hypothesis calm_same :
  forall p s n g,
    mo p s = Some (n, g) -> calm (Some (n, g)) ->
    ro (firstn n s) g = firstn n s /\ 1 <= n.

Lemma quiet_skip s p k :
  quiet mo calm p s -> re_sub_go mo ro p k s = skipn k s.
Proof.
  revert p k. induction s as [|c s IH]; intros p k H.
  - now destruct k.
  - destruct H as [H1 H2]. rewrite app_nil_r in H1.
    cbn [re_sub_go]. destruct k as [|k]; [|now apply IH].
    destruct (mo p (c :: s)) as [[n g]|] eqn:E.
    + destruct (calm_same _ _ _ _ E H1) as [Hr Hn].
      rewrite Hr, (IH _ _ H2).
      destruct n as [|n]; [lia|]. cbn [firstn]. simpl.
      rewrite Nat.sub_0_r. f_equal. apply firstn_skipn.
    + cbn [skipn]. f_equal. now apply (IH _ 0).
Qed.

Lemma quiet_identity s : quiet mo calm None s -> re_sub mo ro s = s.
Proof. intros H. unfold re_sub. now rewrite quiet_skip. Qed.

End QuietIdentity.
(** *** What a match looks like *)

Lemma strip_prefix_same lit s : strip_prefix lit (lit ++ s) = Some s.
Proof. induction lit; simpl; auto. now rewrite N.eqb_refl. Qed.

Lemma span_stop_app f u d v :
  f d = false ->
  span f (u ++ d :: v) = (fst (span f u), snd (span f u) ++ d :: v).
Proof.
  intros Hd. induction u as [|x u IH]; cbn [span app].
  - now rewrite Hd.
  - destruct (f x); [|reflexivity].
    rewrite IH. now destruct (span f u).
Qed.

Lemma span_take f g r :
  forallb f g = true -> (forall c r', r = c :: r' -> f c = false) ->
  span f (g ++ r) = (g, r).
Proof.
  intros Hg Hr. induction g as [|x g IH]; cbn [span app].
  - destruct r as [|c r']; [reflexivity|]. cbn [span].
    now rewrite (Hr c r' eq_refl).
  - simpl in Hg. apply andb_true_iff in Hg as [Hx Hg].
    rewrite Hx, IH by assumption. reflexivity.
Qed.

Lemma strip_prefix_stop lit u d v :
  ~ In d lit ->
  strip_prefix lit (u ++ d :: v)
  = option_map (fun u1 => u1 ++ d :: v) (strip_prefix lit u).
Proof.
  revert u. induction lit as [|x lit IH]; intros u Hd; [reflexivity|].
  destruct u as [|y u]; cbn [strip_prefix app].
  - destruct (x =? d)%N eqn:E; [|reflexivity].
    apply N.eqb_eq in E. subst. simpl in Hd. tauto.
  - destruct (x =? y)%N; [|reflexivity]. apply IH. simpl in Hd. tauto.
Qed.

(** The parts of a match of the common shape. *)
Lemma match_shape_inv lit ws cls close s n g :
  match_shape lit ws cls close s = Some (n, g) ->
  exists sp r,
    s = lit ++ sp ++ g ++ r
    /\ forallb Py.isspace sp = true
    /\ (ws = false -> sp = [])
    /\ forallb cls g = true
    /\ g <> []
    /\ match close with
       | None => n = length lit + length sp + length g
       | Some e =>
           exists r', r = e :: r' /\ n = length lit + length sp + length g + 1
       end.
Proof.
  unfold match_shape.
  destruct (strip_prefix lit s) as [s1|] eqn:E1; [|discriminate].
  apply strip_prefix_app in E1.
  assert (Hsp : exists sp s2,
             (if ws then span Py.isspace s1 else ([], s1)) = (sp, s2)
             /\ s1 = sp ++ s2 /\ forallb Py.isspace sp = true
             /\ (ws = false -> sp = [])).
  { destruct ws.
    - exists (fst (span Py.isspace s1)), (snd (span Py.isspace s1)).
      repeat split.
      + now destruct (span Py.isspace s1).
      + symmetry. apply span_app.
      + apply span_all.
      + discriminate.
    - exists [], s1. repeat split. }
  destruct Hsp as (sp & s2 & -> & Es1 & Hsp & Hws).
  pose proof (span_app cls s2) as Es2.
  pose proof (span_all cls s2) as Hg.
  destruct (span cls s2) as [g0 s3]. cbn [fst snd] in *.
  destruct g0 as [|x g0]; [discriminate|].
  intros H. exists sp, s3.
  assert (Es : s = lit ++ sp ++ (x :: g0) ++ s3) by (subst; reflexivity).
  destruct close as [e|].
  - destruct s3 as [|e' s3]; [discriminate|].
    destruct (e' =? e)%N eqn:Ee; [|discriminate].
    apply N.eqb_eq in Ee. subst e'. injection H as <- <-.
    repeat split; auto; try discriminate. now exists s3.
  - injection H as <- <-. repeat split; auto; discriminate.
Qed.

Lemma match_shape_pos lit ws cls close s n g :
  lit <> [] ->
  match_shape lit ws cls close s = Some (n, g) -> 1 <= n <= length s.
Proof.
  intros Hlit H.
  apply match_shape_inv in H as (sp & r & -> & _ & _ & _ & _ & Hn).
  rewrite !length_app.
  assert (1 <= length lit) by (destruct lit; [congruence | simpl; lia]).
  destruct close as [e|].
  - destruct Hn as (r' & -> & ->). simpl. lia.
  - subst n. lia.
Qed.

(** A match does not read past a character that is neither in the
    literal, nor white space, nor in the class. *)
Lemma match_shape_stop l0 lit ws cls close c u d v v' :
  ~ In d lit -> Py.isspace d = false -> cls d = false ->
  match_shape (l0 :: lit) ws cls close (c :: u ++ d :: v)
  = match_shape (l0 :: lit) ws cls close (c :: u ++ d :: v').
Proof.
  intros Hlit Hsp Hcls. unfold match_shape. cbn [strip_prefix].
  destruct (l0 =? c)%N; [|reflexivity].
  rewrite !strip_prefix_stop by assumption.
  destruct (strip_prefix lit u) as [u1|]; cbn [option_map]; [|reflexivity].
  destruct ws.
  - rewrite !span_stop_app by assumption.
    destruct (span Py.isspace u1) as [a b]. cbn [fst snd].
    rewrite ?span_stop_app by assumption.
    destruct (span cls b) as [g b']. cbn [fst snd].
    destruct g; [reflexivity|]. destruct close; [|reflexivity].
    destruct b'; reflexivity.
  - cbv beta iota. rewrite !span_stop_app by assumption.
    destruct (span cls u1) as [g b']. cbn [fst snd].
    destruct g; [reflexivity|]. destruct close; [|reflexivity].
    destruct b'; reflexivity.
Qed.

(** *** Delimiters and windows *)

Lemma isstop_cases d :
  isstop d = true -> d = 91%N \/ d = 93%N \/ d = 40%N \/ d = 41%N.
Proof.
  unfold isstop. intros H.
  repeat (apply orb_true_iff in H as [H | H]);
    apply N.eqb_eq in H; auto.
Qed.

Lemma isstop_not_space d : isstop d = true -> Py.isspace d = false.
Proof. intros H. destruct (isstop_cases d H) as [-> | [-> | [-> | ->]]]; reflexivity. Qed.

Lemma isstop_not_slug d : isstop d = true -> isslug d = false.
Proof. intros H. destruct (isstop_cases d H) as [-> | [-> | [-> | ->]]]; reflexivity. Qed.

Lemma isstop_not_in_word d : isstop d = true -> ~ In d (py "annotation:").
Proof.
  intros H. destruct (isstop_cases d H) as [-> | [-> | [-> | ->]]];
    vm_compute; intuition discriminate.
Qed.

Lemma window_split s :
  window_tail s = s
  \/ exists u d v,
       s = u ++ d :: v /\ isstop d = true
       /\ forallb (fun x => negb (isstop x)) u = true
       /\ window_tail s = u ++ [d].
Proof.
  induction s as [|x s IH]; [now left|].
  cbn [window_tail]. destruct (isstop x) eqn:E.
  - right. exists [], x, s. repeat split; auto.
  - destruct IH as [-> | (u & d & v & -> & Hd & Hu & ->)]; [now left|].
    right. exists (x :: u), d, v. repeat split; auto.
    cbn [forallb]. now rewrite E, Hu.
Qed.

Section Window.

Variable m : matcher.

Hypothesis stop_blind :
  forall p c u d v v',
    isstop d = true -> m p (c :: u ++ d :: v) = m p (c :: u ++ d :: v').

Lemma window_self p c s : m p (c :: s) = m p (c :: window_tail s).
Proof.
  destruct (window_split s) as [-> | (u & d & v & -> & Hd & _ & ->)];
    [reflexivity|].
  now apply stop_blind.
Qed.

Lemma window_same p c s s' :
  window_tail s = window_tail s' -> m p (c :: s) = m p (c :: s').
Proof. intros H. now rewrite (window_self p c s), H, <- window_self. Qed.

End Window.

Section WindowPreserved.

Variable mt : matcher.
Variable rt : str -> str -> str.

Hypothesis rewrites_at_stop :
  forall q c s n g,
    mt q (c :: s) = Some (n, g) ->
    isstop c = true /\ exists r, rt (firstn n (c :: s)) g = c :: r.

(** A pass that rewrites from a delimiter to the same delimiter does not
    change the text up to the first delimiter. *)
Lemma window_preserved t q :
  window_tail (re_sub_go mt rt q 0 t) = window_tail t.
Proof.
  revert q. induction t as [|c t IH]; intros q; [reflexivity|].
  cbn [re_sub_go]. destruct (mt q (c :: t)) as [[n g]|] eqn:E.
  - destruct (rewrites_at_stop _ _ _ _ _ E) as (Hc & r & ->).
    cbn [app window_tail]. now rewrite Hc.
  - cbn [window_tail]. now rewrite IH.
Qed.

Variable mo : matcher.
Variable calm : option (nat * str) -> Prop.
Variable eqv : option char -> option char -> Prop.

Hypothesis stop_blind :
  forall p c u d v v',
    isstop d = true -> mo p (c :: u ++ d :: v) = mo p (c :: u ++ d :: v').

Hypothesis eqv_same : forall p p' s, eqv p p' -> mo p s = mo p' s.

Lemma head_stable_window c t p p' :
  eqv p p' -> mt p (c :: t) = None -> calm (mo p (c :: t)) ->
  calm (mo p' (c :: re_sub_go mt rt (Some c) 0 t)).
Proof.
  intros Hp _ H.
  rewrite <- (eqv_same p p' _ Hp).
  rewrite (window_same mo stop_blind p c _ t); [exact H|].
  apply window_preserved.
Qed.

End WindowPreserved.
(** *** The four patterns *)

Lemma bracketed_lit : py "[annotation:" = 91%N :: WORD.
Proof. reflexivity. Qed.

Lemma target_lit : py "(annotation:" = 40%N :: WORD.
Proof. reflexivity. Qed.

Lemma word_lit : WORD = 97%N :: py "nnotation:".
Proof. reflexivity. Qed.

Lemma bracketed_stop_blind p c u d v v' :
  isstop d = true ->
  BRACKETED_RE p (c :: u ++ d :: v) = BRACKETED_RE p (c :: u ++ d :: v').
Proof.
  intros Hd. unfold BRACKETED_RE. rewrite bracketed_lit.
  apply match_shape_stop;
    auto using isstop_not_in_word, isstop_not_space, isstop_not_slug.
Qed.

Lemma target_stop_blind p c u d v v' :
  isstop d = true ->
  TARGET_RE p (c :: u ++ d :: v) = TARGET_RE p (c :: u ++ d :: v').
Proof.
  intros Hd. unfold TARGET_RE. rewrite target_lit.
  apply match_shape_stop;
    auto using isstop_not_in_word, isstop_not_space, isstop_not_slug.
Qed.

Lemma bare_stop_blind p c u d v v' :
  isstop d = true ->
  BARE_RE p (c :: u ++ d :: v) = BARE_RE p (c :: u ++ d :: v').
Proof.
  intros Hd. unfold BARE_RE. destruct (not_after 40%N p); [|reflexivity].
  change (py "annotation:") with WORD. rewrite word_lit.
  apply match_shape_stop; auto using isstop_not_space, isstop_not_slug.
  intros H. apply (isstop_not_in_word d Hd). change (py "annotation:") with WORD.
  rewrite word_lit. now right.
Qed.

Lemma spaced_stop_blind p c u d v v' :
  isstop d = true ->
  SPACED_RE p (c :: u ++ d :: v) = SPACED_RE p (c :: u ++ d :: v').
Proof.
  intros Hd. unfold SPACED_RE. destruct (c =? 93)%N; [|reflexivity].
  rewrite !span_stop_app by now apply isstop_not_space.
  destruct (span Py.isspace u) as [a b]. cbn [fst snd].
  destruct b; reflexivity.
Qed.

Lemma bare_same_lookbehind p p' s :
  same_lookbehind p p' -> BARE_RE p s = BARE_RE p' s.
Proof. unfold same_lookbehind, BARE_RE. now intros ->. Qed.

(** The lengths of the matches. *)
Lemma bracketed_pos p s n g :
  BRACKETED_RE p s = Some (n, g) -> 1 <= n <= length s.
Proof. apply match_shape_pos. discriminate. Qed.

Lemma target_pos p s n g :
  TARGET_RE p s = Some (n, g) -> 1 <= n <= length s.
Proof. apply match_shape_pos. discriminate. Qed.

Lemma bare_pos p s n g :
  BARE_RE p s = Some (n, g) -> 1 <= n <= length s.
Proof.
  unfold BARE_RE. destruct (not_after 40%N p); [|discriminate].
  apply match_shape_pos. discriminate.
Qed.

Lemma spaced_inv p s n g :
  SPACED_RE p s = Some (n, g) ->
  exists sp r, s = 93%N :: sp ++ 40%N :: r /\ sp <> [] /\ n = length sp + 2
               /\ forallb Py.isspace sp = true.
Proof.
  unfold SPACED_RE. destruct s as [|c s1]; [discriminate|].
  destruct (c =? 93)%N eqn:Ec; [|discriminate]. apply N.eqb_eq in Ec. subst c.
  pose proof (span_app Py.isspace s1) as Ea.
  pose proof (span_all Py.isspace s1) as Eb.
  destruct (span Py.isspace s1) as [sp b]. cbn [fst snd] in *.
  destruct b as [|d b]; [discriminate|].
  destruct sp as [|x sp]; [discriminate|]. cbn [is_nil negb andb].
  destruct (d =? 40)%N eqn:Ed; [|discriminate]. apply N.eqb_eq in Ed. subst d.
  intros [= <- <-]. exists (x :: sp), b.
  split; [now rewrite <- Ea|]. split; [discriminate|].
  split; [reflexivity | exact Eb].
Qed.

Lemma spaced_pos p s n g :
  SPACED_RE p s = Some (n, g) -> 1 <= n <= length s.
Proof.
  intros H. apply spaced_inv in H as (sp & r & -> & _ & -> & _).
  cbn [length]. rewrite length_app. cbn [length]. lia.
Qed.

(** The first character of a match. *)
Lemma match_shape_first l0 lit ws cls close c s :
  c <> l0 -> match_shape (l0 :: lit) ws cls close (c :: s) = None.
Proof.
  intros H. unfold match_shape. cbn [strip_prefix].
  destruct (l0 =? c)%N eqn:E; [|reflexivity].
  apply N.eqb_eq in E. congruence.
Qed.

Lemma bracketed_first p c s : c <> 91%N -> BRACKETED_RE p (c :: s) = None.
Proof. intros H. unfold BRACKETED_RE. rewrite bracketed_lit. now apply match_shape_first. Qed.

Lemma target_first p c s : c <> 40%N -> TARGET_RE p (c :: s) = None.
Proof. intros H. unfold TARGET_RE. rewrite target_lit. now apply match_shape_first. Qed.

Lemma spaced_first p c s : c <> 93%N -> SPACED_RE p (c :: s) = None.
Proof.
  intros H. unfold SPACED_RE. destruct (c =? 93)%N eqn:E; [|reflexivity].
  apply N.eqb_eq in E. congruence.
Qed.

Lemma bare_first p c s : c <> 97%N -> BARE_RE p (c :: s) = None.
Proof.
  intros H. unfold BARE_RE. destruct (not_after 40%N p); [|reflexivity].
  change (py "annotation:") with WORD. rewrite word_lit.
  now apply match_shape_first.
Qed.

Section FirstChar.

Variable mo : matcher.
Variable calm : option (nat * str) -> Prop.
Variable c0 : char.

Hypothesis first_char : forall p c s, c <> c0 -> mo p (c :: s) = None.
Hypothesis calm_no_match : calm None.

(** Where the first character of the pattern does not occur, every
    attempt fails. *)
Lemma quiet_in_other p x rest :
  ~ In c0 x -> quiet_in mo calm p x rest.
Proof.
  revert p. induction x as [|c x IH]; intros p H; [exact I|].
  cbn [quiet_in app]. split.
  - rewrite first_char; [exact calm_no_match|].
    intros ->. apply H. now left.
  - apply IH. intros Hin. apply H. now right.
Qed.

End FirstChar.

(** The closing character of a match occurs after its first character. *)
Lemma match_shape_close_in l0 lit ws cls e c s n g :
  match_shape (l0 :: lit) ws cls (Some e) (c :: s) = Some (n, g) -> In e s.
Proof.
  intros H. apply match_shape_inv in H
    as (sp & r & Es & _ & _ & _ & _ & r' & -> & _).
  cbn [app] in Es. injection Es as _ ->.
  apply in_or_app. right. apply in_or_app. right. apply in_or_app. right.
  now left.
Qed.

Lemma nonstop_not_in e u :
  isstop e = true -> forallb (fun x => negb (isstop x)) u = true -> ~ In e u.
Proof.
  intros He Hu Hin. rewrite forallb_forall in Hu.
  specialize (Hu e Hin). now rewrite He in Hu.
Qed.

(** Before an opening bracket and without another delimiter, the closed
    patterns cannot match. *)
Lemma bracketed_open p c u :
  forallb (fun x => negb (isstop x)) u = true ->
  BRACKETED_RE p (c :: u ++ [91%N]) = None.
Proof.
  intros Hu. destruct (BRACKETED_RE p (c :: u ++ [91%N])) as [[n g]|] eqn:E;
    [exfalso | reflexivity].
  unfold BRACKETED_RE in E. rewrite bracketed_lit in E.
  apply match_shape_close_in in E. apply in_app_or in E as [E | [E | []]].
  - now apply (nonstop_not_in 93%N u).
  - discriminate.
Qed.

Lemma target_open p c u :
  forallb (fun x => negb (isstop x)) u = true ->
  TARGET_RE p (c :: u ++ [91%N]) = None.
Proof.
  intros Hu. destruct (TARGET_RE p (c :: u ++ [91%N])) as [[n g]|] eqn:E;
    [exfalso | reflexivity].
  unfold TARGET_RE in E. rewrite target_lit in E.
  apply match_shape_close_in in E. apply in_app_or in E as [E | [E | []]].
  - now apply (nonstop_not_in 41%N u).
  - discriminate.
Qed.

Lemma spaced_open p c u :
  forallb (fun x => negb (isstop x)) u = true ->
  SPACED_RE p (c :: u ++ [91%N]) = None.
Proof.
  intros Hu. destruct (SPACED_RE p (c :: u ++ [91%N])) as [[n g]|] eqn:E;
    [exfalso | reflexivity].
  apply spaced_inv in E as (sp & r & Es & _ & _ & _).
  injection Es as _ Es.
  assert (Hin : In 40%N (u ++ [91%N])).
  { rewrite Es. apply in_or_app. right. now left. }
  apply in_app_or in Hin as [Hin | [Hin | []]].
  - now apply (nonstop_not_in 40%N u).
  - discriminate.
Qed.

(** *** The scan of the last pass *)

Lemma strip_prefix_more lit u u1 v :
  strip_prefix lit u = Some u1 -> strip_prefix lit (u ++ v) = Some (u1 ++ v).
Proof.
  intros H. apply strip_prefix_app in H. subst u.
  rewrite <- app_assoc. apply strip_prefix_same.
Qed.

Lemma span_more f u a h b v :
  span f u = (a, h :: b) -> span f (u ++ v) = (a, (h :: b) ++ v).
Proof.
  revert a. induction u as [|x u IH]; intros a H; [discriminate|].
  cbn [span app] in *. destruct (f x).
  - destruct (span f u) as [a' b'] eqn:E. injection H as <- ->.
    now rewrite (IH a' eq_refl).
  - injection H as <- <- <-. reflexivity.
Qed.

(** A match of the bare pattern that ends before an opening bracket is
    still a match, possibly longer, when other text follows instead. *)
Lemma bare_extends p c u v :
  BARE_RE p (c :: u ++ [91%N]) <> None -> BARE_RE p (c :: u ++ v) <> None.
Proof.
  unfold BARE_RE. destruct (not_after 40%N p); [|congruence].
  change (py "annotation:") with WORD. rewrite word_lit.
  unfold match_shape. cbn [strip_prefix].
  destruct (97 =? c)%N; [|congruence].
  rewrite strip_prefix_stop by (vm_compute; intuition discriminate).
  destruct (strip_prefix (py "nnotation:") u) as [u1|] eqn:E1;
    cbn [option_map]; [|congruence].
  pose proof (strip_prefix_more _ _ _ v E1) as E1'.
  unfold str, char in *. rewrite E1'.
  rewrite span_stop_app by reflexivity.
  destruct (span Py.isspace u1) as [a b] eqn:E2. cbn [fst snd].
  rewrite span_stop_app by reflexivity.
  destruct (span isslug b) as [g b'] eqn:E3. cbn [fst snd].
  destruct g as [|x g]; [congruence|]. intros _.
  destruct b as [|h b]; [discriminate|].
  pose proof (span_more _ _ _ _ _ v E2) as E2'.
  unfold str, char in *. rewrite E2'.
  cbn [span app] in *. destruct (isslug h); [|discriminate].
  destruct (span isslug (b ++ v)). discriminate.
Qed.

Lemma bare_window t q :
  window_tail (re_sub_go BARE_RE repl_bare_annotation q 0 t) = window_tail t
  \/ exists u v z,
       forallb (fun x => negb (isstop x)) u = true
       /\ re_sub_go BARE_RE repl_bare_annotation q 0 t = u ++ 91%N :: z
       /\ t = u ++ v
       /\ BARE_RE (lastopt q u) v <> None.
Proof.
  revert q. induction t as [|c t IH]; intros q; [now left|].
  cbn [re_sub_go]. destruct (BARE_RE q (c :: t)) as [[n g]|] eqn:E.
  - right. exists [], (c :: t). eexists.
    split; [reflexivity|]. split; [reflexivity|]. split; [reflexivity|].
    cbn [lastopt]. congruence.
  - cbn [window_tail]. destruct (isstop c) eqn:Ec; [now left|].
    destruct (IH (Some c)) as [-> | (u & v & z & Hu & -> & -> & Hm)];
      [now left|].
    right. exists (c :: u), v, z. repeat split.
    + cbn [forallb]. now rewrite Ec, Hu.
    + now rewrite lastopt_cons.
Qed.

(** *** Characters of slugs and titles *)

Lemma slug_range x :
  isslug x = true -> (45 <= x <= 122)%N /\ x <> 58%N /\ x <> 91%N /\ x <> 93%N.
Proof.
  unfold isslug, Py.islower, isdigit. intros H.
  apply orb_true_iff in H as [H | H]; [apply orb_true_iff in H as [H | H]|].
  - apply andb_true_iff in H as [H1 H2].
    apply N.leb_le in H1, H2. lia.
  - apply andb_true_iff in H as [H1 H2].
    apply N.leb_le in H1, H2. lia.
  - apply N.eqb_eq in H. lia.
Qed.

Lemma range_not_space x : (33 <= x <= 132)%N -> Py.isspace x = false.
Proof.
  intros H. unfold Py.isspace.
  replace (x <=? 13)%N with false by (symmetry; apply N.leb_gt; lia).
  replace (x <=? 32)%N with false by (symmetry; apply N.leb_gt; lia).
  replace (8192 <=? x)%N with false by (symmetry; apply N.leb_gt; lia).
  replace (x =? 133)%N with false by (symmetry; apply N.eqb_neq; lia).
  replace (x =? 160)%N with false by (symmetry; apply N.eqb_neq; lia).
  replace (x =? 5760)%N with false by (symmetry; apply N.eqb_neq; lia).
  replace (x =? 8232)%N with false by (symmetry; apply N.eqb_neq; lia).
  replace (x =? 8233)%N with false by (symmetry; apply N.eqb_neq; lia).
  replace (x =? 8239)%N with false by (symmetry; apply N.eqb_neq; lia).
  replace (x =? 8287)%N with false by (symmetry; apply N.eqb_neq; lia).
  replace (x =? 12288)%N with false by (symmetry; apply N.eqb_neq; lia).
  now rewrite !andb_false_r.
Qed.

Lemma slug_not_space x : isslug x = true -> Py.isspace x = false.
Proof. intros H. apply range_not_space. apply slug_range in H. lia. Qed.

Lemma titlechar_intro c :
  c <> 91%N -> c <> 93%N -> c <> 40%N -> c <> 41%N -> c <> 58%N ->
  titlechar c = true.
Proof.
  intros H1 H2 H3 H4 H5. unfold titlechar, isstop.
  apply N.eqb_neq in H1, H2, H3, H4, H5.
  now rewrite H1, H2, H3, H4, H5.
Qed.

Lemma titlechar_inv c :
  titlechar c = true ->
  c <> 91%N /\ c <> 93%N /\ c <> 40%N /\ c <> 41%N /\ c <> 58%N.
Proof.
  unfold titlechar, isstop. intros H.
  apply andb_true_iff in H as [H1 H2].
  apply negb_true_iff in H1, H2.
  apply orb_false_iff in H1 as [H1 H4].
  apply orb_false_iff in H1 as [H1 H3].
  apply orb_false_iff in H1 as [H1 H0].
  apply N.eqb_neq in H0, H1, H2, H3, H4. tauto.
Qed.

Lemma slug_titlechar x : isslug x = true -> titlechar x = true.
Proof. intros H. apply slug_range in H. apply titlechar_intro; lia. Qed.

(** The characters of a title come from the slug, from the space that
    replaces the hyphen, and from their upper-case forms. *)
Lemma title_of_slug_char y :
  isslug y = true \/ y = 32%N ->
  titlechar (Py.tolower y) = true /\ titlechar (Py.toupper y) = true.
Proof.
  intros H.
  assert (Hr : (32 <= y <= 122)%N /\ y <> 58%N /\ y <> 40%N /\ y <> 41%N
               /\ y <> 91%N /\ y <> 93%N).
  { destruct H as [H | ->]; [apply slug_range in H|]; lia. }
  unfold Py.tolower, Py.toupper, Py.isupper, Py.islower. split.
  - destruct ((65 <=? y)%N && (y <=? 90)%N) eqn:E.
    + apply andb_true_iff in E as [E1 E2]. apply N.leb_le in E1, E2.
      apply titlechar_intro; lia.
    + apply titlechar_intro; lia.
  - destruct ((97 <=? y)%N && (y <=? 122)%N) eqn:E.
    + apply andb_true_iff in E as [E1 E2]. apply N.leb_le in E1, E2.
      apply titlechar_intro; lia.
    + apply titlechar_intro; lia.
Qed.

Lemma replace_go_forall (Q : char -> Prop) old new k s :
  Forall Q s -> Forall Q new -> Forall Q (Py.replace_go old new k s).
Proof.
  intros Hs Hn. revert k. induction Hs as [|c s Hc Hs IH]; intros k.
  - constructor.
  - cbn [Py.replace_go]. destruct k as [|k]; [|apply IH].
    destruct (Py.startswith old (c :: s)).
    + apply Forall_app. split; [exact Hn | apply IH].
    + constructor; [exact Hc | apply IH].
Qed.

Lemma lstrip_forall (Q : char -> Prop) s : Forall Q s -> Forall Q (Py.lstrip s).
Proof.
  induction 1 as [|c s Hc Hs IH]; [constructor|].
  cbn [Py.lstrip]. destruct (Py.isspace c); [exact IH | now constructor].
Qed.

Lemma strip_forall (Q : char -> Prop) s : Forall Q s -> Forall Q (Py.strip s).
Proof.
  intros H. unfold Py.strip, Py.rstrip.
  apply Forall_rev, lstrip_forall, Forall_rev, lstrip_forall, H.
Qed.

Lemma title_go_forall (Q P : char -> Prop) b s :
  (forall y, Q y -> P (Py.tolower y) /\ P (Py.toupper y)) ->
  Forall Q s -> Forall P (Py.title_go b s).
Proof.
  intros HQ Hs. revert b. induction Hs as [|c s Hc Hs IH]; intros b.
  - constructor.
  - cbn [Py.title_go]. constructor; [|apply IH].
    destruct (HQ c Hc). now destruct b.
Qed.

Lemma slug_title_chars g :
  forallb isslug g = true ->
  Forall (fun c => titlechar c = true) (slug_to_title g).
Proof.
  intros Hg. unfold slug_to_title, Py.title.
  apply title_go_forall with (Q := fun y => isslug y = true \/ y = 32%N).
  - apply title_of_slug_char.
  - apply strip_forall.
    change (Py.replace (py "-") (py " ") g)
      with (Py.replace_go (py "-") (py " ") 0 g).
    apply replace_go_forall.
    + apply Forall_forall. intros x Hx. left.
      rewrite forallb_forall in Hg. now apply Hg.
    + constructor; [now right | constructor].
Qed.

Lemma lstrip_nospace s :
  Forall (fun x => Py.isspace x = false) s -> Py.lstrip s = s.
Proof. destruct 1 as [|c s Hc Hs]; [reflexivity|]. cbn [Py.lstrip]. now rewrite Hc. Qed.

Lemma strip_slug g : forallb isslug g = true -> Py.strip g = g.
Proof.
  intros Hg.
  assert (H : Forall (fun x => Py.isspace x = false) g).
  { apply Forall_forall. intros x Hx. apply slug_not_space.
    rewrite forallb_forall in Hg. now apply Hg. }
  unfold Py.strip, Py.rstrip.
  rewrite (lstrip_nospace g H), (lstrip_nospace (rev g)) by now apply Forall_rev.
  apply rev_involutive.
Qed.

Lemma title_notin c T :
  Forall (fun x => titlechar x = true) T -> titlechar c = false -> ~ In c T.
Proof.
  intros HT Hc Hin. rewrite Forall_forall in HT.
  specialize (HT c Hin). congruence.
Qed.

Lemma slug_notin c g :
  forallb isslug g = true -> isslug c = false -> ~ In c g.
Proof.
  intros Hg Hc Hin. rewrite forallb_forall in Hg.
  specialize (Hg c Hin). congruence.
Qed.

(** *** Attempts inside the text a pass writes *)

Lemma link_shape g :
  canonical_link g
  = 91%N :: slug_to_title g ++ 93%N :: 40%N :: WORD ++ g ++ [41%N].
Proof. reflexivity. Qed.

Lemma word_not_prefix x d y :
  ~ In 58%N x -> ~ In d WORD -> strip_prefix WORD (x ++ d :: y) = None.
Proof.
  intros Hx Hd. rewrite strip_prefix_stop by exact Hd.
  destruct (strip_prefix WORD x) as [z|] eqn:E; [exfalso | reflexivity].
  apply strip_prefix_app in E. apply Hx. rewrite E.
  apply in_or_app. left. vm_compute. tauto.
Qed.

(** The opening bracket of a link is not the start of a bracketed
    annotation. *)
Lemma bracketed_at_link p x d y :
  ~ In 58%N x -> ~ In d WORD -> BRACKETED_RE p (91%N :: x ++ d :: y) = None.
Proof.
  intros Hx Hd. unfold BRACKETED_RE, match_shape. rewrite bracketed_lit.
  cbn [strip_prefix]. rewrite N.eqb_refl.
  now rewrite word_not_prefix.
Qed.

Lemma spaced_at_link p y : SPACED_RE p (93%N :: 40%N :: y) = None.
Proof. reflexivity. Qed.

(** A target written without white space is matched as it is. *)
Lemma target_at_link p g y :
  forallb isslug g = true -> g <> [] ->
  TARGET_RE p (40%N :: WORD ++ g ++ 41%N :: y) = Some (13 + length g, g).
Proof.
  intros Hg Hne. destruct g as [|h g]; [congruence|].
  assert (Hh : isslug h = true) by (simpl in Hg; now apply andb_true_iff in Hg).
  assert (E0 : strip_prefix (40%N :: WORD) (40%N :: WORD ++ (h :: g) ++ 41%N :: y)
               = Some ((h :: g) ++ 41%N :: y))
    by apply (strip_prefix_same (40%N :: WORD)).
  assert (E1 : span Py.isspace ((h :: g) ++ 41%N :: y)
               = ([], (h :: g) ++ 41%N :: y)).
  { cbn [app span]. now rewrite (slug_not_space h Hh). }
  assert (E2 : span isslug ((h :: g) ++ 41%N :: y) = (h :: g, 41%N :: y)).
  { apply span_take; [exact Hg|]. intros c r' [= <- _]. reflexivity. }
  unfold TARGET_RE, match_shape. rewrite target_lit.
  unfold str, char in *. rewrite E0, E1, E2.
  rewrite N.eqb_refl. f_equal. f_equal.
  change (length (40%N :: WORD)) with 12. cbn [length]. lia.
Qed.

(** Where the colon does not occur before the next delimiter, the word
    is not there. *)
Lemma bare_without_colon p x d y :
  ~ In 58%N x -> ~ In d WORD ->
  quiet_in BARE_RE calm_none p x (d :: y).
Proof.
  revert p. induction x as [|c x IH]; intros p Hx Hd; [exact I|].
  cbn [quiet_in]. split.
  - unfold calm_none, BARE_RE. destruct (not_after 40%N p); [|reflexivity].
    unfold match_shape. change (py "annotation:") with WORD.
    change ((c :: x) ++ d :: y) with ((c :: x) ++ d :: y).
    now rewrite word_not_prefix.
  - apply IH; [|exact Hd]. intros H. apply Hx. now right.
Qed.

(** The word of a target, which follows the parenthesis, is not taken
    for a bare annotation. *)
Lemma bare_in_word z :
  quiet_in BARE_RE calm_none (Some 40%N) WORD z.
Proof.
  unfold WORD. cbn [str_of_string quiet_in app].
  repeat split.
Qed.

(** Tactic for the absence of a character from a text made of a title,
    a slug and fixed parts. *)
Ltac notin HT Hg :=
  let H := fresh "Hin" in
  intros H;
  repeat match type of H with
         | In _ (_ ++ _) => apply in_app_or in H as [H | H]
         | In _ (_ :: _) => destruct H as [H | H]
         | In _ WORD => vm_compute in H
         | In _ [] => contradiction
         | _ \/ _ => destruct H as [H | H]
         | False => contradiction
         end;
  try discriminate;
  try (exfalso; revert H; apply title_notin; [exact HT | reflexivity]);
  try (exfalso; revert H; apply slug_notin; [exact Hg | reflexivity]).

Lemma lastopt_snoc p x c : lastopt p (x ++ [c]) = Some c.
Proof.
  unfold lastopt. destruct (x ++ [c]) eqn:E.
  - now destruct x.
  - rewrite <- E. f_equal. apply last_last.
Qed.

Section LinkInside.

Variable g : str.
Hypothesis Hg : forallb isslug g = true.
Hypothesis Hne : g <> [].

Lemma link_quiet_bracketed p rest :
  quiet_in BRACKETED_RE calm_none p (canonical_link g) rest.
Proof.
  pose proof (slug_title_chars g Hg) as HT.
  rewrite link_shape. cbn [quiet_in]. split.
  - cbn [app]. rewrite <- app_assoc. cbn [app].
    apply bracketed_at_link; notin HT Hg.
  - apply (quiet_in_other BRACKETED_RE calm_none 91%N bracketed_first eq_refl). notin HT Hg.
Qed.

Lemma link_quiet_spaced p rest :
  quiet_in SPACED_RE calm_none p (canonical_link g) rest.
Proof.
  pose proof (slug_title_chars g Hg) as HT.
  rewrite link_shape.
  change (91%N :: slug_to_title g ++ 93%N :: 40%N :: WORD ++ g ++ [41%N])
    with ((91%N :: slug_to_title g) ++ 93%N :: 40%N :: WORD ++ g ++ [41%N]).
  apply quiet_in_app.
  - apply (quiet_in_other SPACED_RE calm_none 93%N spaced_first eq_refl). notin HT Hg.
  - split; [reflexivity|].
    apply (quiet_in_other SPACED_RE calm_none 93%N spaced_first eq_refl). notin HT Hg.
Qed.

Lemma target_quiet_from p rest :
  quiet_in TARGET_RE calm_target p (40%N :: WORD ++ g ++ [41%N]) rest.
Proof.
  pose proof (slug_title_chars g Hg) as HT.
  cbn [quiet_in]. split.
  - cbn [app]. rewrite <- !app_assoc. cbn [app].
    rewrite target_at_link by assumption. reflexivity.
  - apply (quiet_in_other TARGET_RE calm_target 40%N target_first I). notin HT Hg.
Qed.

Lemma link_quiet_target p rest :
  quiet_in TARGET_RE calm_target p (canonical_link g) rest.
Proof.
  pose proof (slug_title_chars g Hg) as HT.
  rewrite link_shape.
  replace (91%N :: slug_to_title g ++ 93%N :: 40%N :: WORD ++ g ++ [41%N])
    with ((91%N :: slug_to_title g ++ [93%N]) ++ 40%N :: WORD ++ g ++ [41%N])
    by (cbn [app]; now rewrite <- app_assoc).
  apply quiet_in_app.
  - apply (quiet_in_other TARGET_RE calm_target 40%N target_first I). notin HT Hg.
  - apply target_quiet_from.
Qed.

Lemma link_quiet_bare p rest :
  quiet_in BARE_RE calm_none p (canonical_link g) rest.
Proof.
  pose proof (slug_title_chars g Hg) as HT.
  rewrite link_shape.
  change (91%N :: slug_to_title g ++ 93%N :: 40%N :: WORD ++ g ++ [41%N])
    with ([91%N] ++ slug_to_title g ++ [93%N; 40%N] ++ WORD ++ g ++ [41%N]).
  apply quiet_in_app.
  { apply (quiet_in_other BARE_RE calm_none 97%N bare_first eq_refl). notin HT Hg. }
  apply quiet_in_app.
  { cbn [app]. apply bare_without_colon; notin HT Hg. }
  apply quiet_in_app.
  { apply (quiet_in_other BARE_RE calm_none 97%N bare_first eq_refl). notin HT Hg. }
  apply quiet_in_app.
  { apply bare_in_word. }
  apply quiet_in_app.
  { cbn [app]. apply bare_without_colon; notin HT Hg. }
  apply (quiet_in_other BARE_RE calm_none 97%N bare_first eq_refl). notin HT Hg.
Qed.

Lemma target_quiet_bracketed p rest :
  quiet_in BRACKETED_RE calm_none p (40%N :: WORD ++ g ++ [41%N]) rest.
Proof.
  pose proof (slug_title_chars g Hg) as HT.
  apply (quiet_in_other BRACKETED_RE calm_none 91%N bracketed_first eq_refl). notin HT Hg.
Qed.

Lemma target_quiet_spaced p rest :
  quiet_in SPACED_RE calm_none p (40%N :: WORD ++ g ++ [41%N]) rest.
Proof.
  pose proof (slug_title_chars g Hg) as HT.
  apply (quiet_in_other SPACED_RE calm_none 93%N spaced_first eq_refl). notin HT Hg.
Qed.

End LinkInside.

Lemma pair_quiet_bracketed p rest :
  quiet_in BRACKETED_RE calm_none p (py "](") rest.
Proof.
  apply (quiet_in_other BRACKETED_RE calm_none 91%N bracketed_first eq_refl).
  vm_compute. intuition discriminate.
Qed.

Lemma pair_quiet_spaced p rest :
  quiet_in SPACED_RE calm_none p (py "](") rest.
Proof. repeat split. Qed.

(** *** The text each pass writes *)

Lemma bracketed_writes p s n g :
  BRACKETED_RE p s = Some (n, g) ->
  forallb isslug g = true /\ g <> []
  /\ repl_bracketed (firstn n s) g = canonical_link g.
Proof.
  intros H. apply match_shape_inv in H as (sp & r & _ & _ & _ & Hg & Hne & _).
  repeat split; auto. unfold repl_bracketed. now rewrite strip_slug.
Qed.

Lemma target_writes p s n g :
  TARGET_RE p s = Some (n, g) ->
  forallb isslug g = true /\ g <> []
  /\ repl_target (firstn n s) g = 40%N :: WORD ++ g ++ [41%N].
Proof.
  intros H. apply match_shape_inv in H as (sp & r & _ & _ & _ & Hg & Hne & _).
  repeat split; auto.
Qed.

Lemma bare_inv p s n g :
  BARE_RE p s = Some (n, g) ->
  exists sp r,
    s = WORD ++ sp ++ g ++ r /\ forallb isslug g = true /\ g <> []
    /\ n = length WORD + length sp + length g.
Proof.
  unfold BARE_RE. destruct (not_after 40%N p); [|discriminate].
  intros H. apply match_shape_inv in H as (sp & r & Es & _ & _ & Hg & Hne & Hn).
  exists sp, r. repeat split; auto.
Qed.

(** *** Each pass and the patterns up to its own *)

Lemma any_prev_refl p : any_prev p p.
Proof. exact I. Qed.

Lemma same_lookbehind_refl p : same_lookbehind p p.
Proof. reflexivity. Qed.

Section ClosedObserver.

(** A pattern that does not look behind, under a pass that rewrites from
    a delimiter to the same delimiter. *)
Variable mo : matcher.
Variable calm : option (nat * str) -> Prop.
Variable mt : matcher.
Variable rt : str -> str -> str.

Hypothesis stop_blind :
  forall p c u d v v',
    isstop d = true -> mo p (c :: u ++ d :: v) = mo p (c :: u ++ d :: v').
Hypothesis prev_blind : forall p p' s, any_prev p p' -> mo p s = mo p' s.
Hypothesis mt_pos :
  forall p s n g, mt p s = Some (n, g) -> 1 <= n <= length s.
Hypothesis rewrites_at_stop :
  forall q c s n g,
    mt q (c :: s) = Some (n, g) ->
    isstop c = true /\ exists r, rt (firstn n (c :: s)) g = c :: r.
Hypothesis inside_calm :
  forall p p' s n g rest,
    mt p s = Some (n, g) -> any_prev p p' ->
    quiet_in mo calm p' (rt (firstn n s) g) rest.

Lemma closed_preserve s :
  scan_calm mo calm mt None 0 s -> quiet mo calm None (re_sub mt rt s).
Proof.
  intros H. unfold re_sub.
  apply (preserve mo calm any_prev mt rt any_prev_refl mt_pos); auto.
  - intros c t p p'.
    apply (head_stable_window mt rt rewrites_at_stop mo calm any_prev
             stop_blind prev_blind).
  - intros. exact I.
  - exact I.
Qed.

End ClosedObserver.

Lemma bracketed_prev_blind p p' s :
  any_prev p p' -> BRACKETED_RE p s = BRACKETED_RE p' s.
Proof. reflexivity. Qed.

Lemma spaced_prev_blind p p' s :
  any_prev p p' -> SPACED_RE p s = SPACED_RE p' s.
Proof. reflexivity. Qed.

Lemma target_prev_blind p p' s :
  any_prev p p' -> TARGET_RE p s = TARGET_RE p' s.
Proof. reflexivity. Qed.

Lemma bracketed_rewrites q c s n g :
  BRACKETED_RE q (c :: s) = Some (n, g) ->
  isstop c = true /\ exists r, repl_bracketed (firstn n (c :: s)) g = c :: r.
Proof.
  intros H. destruct (bracketed_writes _ _ _ _ H) as (_ & _ & ->).
  apply match_shape_inv in H as (sp & r & Es & _).
  injection Es as -> _. split; [reflexivity|]. rewrite link_shape. eauto.
Qed.

Lemma spaced_rewrites q c s n g :
  SPACED_RE q (c :: s) = Some (n, g) ->
  isstop c = true /\ exists r, repl_spaced (firstn n (c :: s)) g = c :: r.
Proof.
  intros H. apply spaced_inv in H as (sp & r & Es & _).
  injection Es as -> _. split; [reflexivity|]. unfold repl_spaced.
  now exists [40%N].
Qed.

Lemma target_rewrites q c s n g :
  TARGET_RE q (c :: s) = Some (n, g) ->
  isstop c = true /\ exists r, repl_target (firstn n (c :: s)) g = c :: r.
Proof.
  intros H. destruct (target_writes _ _ _ _ H) as (_ & _ & ->).
  apply match_shape_inv in H as (sp & r & Es & _).
  injection Es as -> _. split; [reflexivity|]. eauto.
Qed.

(** Pass 1. *)
Lemma pass1_bracketed s : quiet BRACKETED_RE calm_none None (pass1 s).
Proof.
  apply (closed_preserve BRACKETED_RE calm_none BRACKETED_RE repl_bracketed
           bracketed_stop_blind bracketed_prev_blind bracketed_pos
           bracketed_rewrites).
  - intros p p' s0 n g rest H _.
    destruct (bracketed_writes _ _ _ _ H) as (Hg & Hne & ->).
    now apply link_quiet_bracketed.
  - now apply own_scan_calm.
Qed.

(** Pass 2. *)
Lemma pass2_bracketed s :
  quiet BRACKETED_RE calm_none None s ->
  quiet BRACKETED_RE calm_none None (pass2 s).
Proof.
  intros H.
  apply (closed_preserve BRACKETED_RE calm_none SPACED_RE repl_spaced
           bracketed_stop_blind bracketed_prev_blind spaced_pos
           spaced_rewrites).
  - intros. apply pair_quiet_bracketed.
  - now apply quiet_scan_calm.
Qed.

Lemma pass2_spaced s : quiet SPACED_RE calm_none None (pass2 s).
Proof.
  apply (closed_preserve SPACED_RE calm_none SPACED_RE repl_spaced
           spaced_stop_blind spaced_prev_blind spaced_pos spaced_rewrites).
  - intros. apply pair_quiet_spaced.
  - now apply own_scan_calm.
Qed.

(** Pass 3. *)
Lemma pass3_bracketed s :
  quiet BRACKETED_RE calm_none None s ->
  quiet BRACKETED_RE calm_none None (pass3 s).
Proof.
  intros H.
  apply (closed_preserve BRACKETED_RE calm_none TARGET_RE repl_target
           bracketed_stop_blind bracketed_prev_blind target_pos
           target_rewrites).
  - intros p p' s0 n g rest Hm _.
    destruct (target_writes _ _ _ _ Hm) as (Hg & Hne & ->).
    now apply target_quiet_bracketed.
  - now apply quiet_scan_calm.
Qed.

Lemma pass3_spaced s :
  quiet SPACED_RE calm_none None s ->
  quiet SPACED_RE calm_none None (pass3 s).
Proof.
  intros H.
  apply (closed_preserve SPACED_RE calm_none TARGET_RE repl_target
           spaced_stop_blind spaced_prev_blind target_pos target_rewrites).
  - intros p p' s0 n g rest Hm _.
    destruct (target_writes _ _ _ _ Hm) as (Hg & Hne & ->).
    now apply target_quiet_spaced.
  - now apply quiet_scan_calm.
Qed.

Lemma pass3_target s : quiet TARGET_RE calm_target None (pass3 s).
Proof.
  apply (closed_preserve TARGET_RE calm_target TARGET_RE repl_target
           target_stop_blind target_prev_blind target_pos target_rewrites).
  - intros p p' s0 n g rest Hm _.
    destruct (target_writes _ _ _ _ Hm) as (Hg & Hne & ->).
    now apply target_quiet_from.
  - now apply own_scan_calm.
Qed.

(** Pass 4 does not start from a delimiter: it writes an opening bracket
    where a word stood. *)
Section ClosedUnderBare.

Variable mo : matcher.
Variable calm : option (nat * str) -> Prop.

Hypothesis stop_blind :
  forall p c u d v v',
    isstop d = true -> mo p (c :: u ++ d :: v) = mo p (c :: u ++ d :: v').
Hypothesis prev_blind : forall p p' s, any_prev p p' -> mo p s = mo p' s.
Hypothesis open_none :
  forall p c u,
    forallb (fun x => negb (isstop x)) u = true ->
    mo p (c :: u ++ [91%N]) = None.
Hypothesis calm_no_match : calm None.
Hypothesis inside_calm :
  forall p g rest,
    forallb isslug g = true -> g <> [] ->
    quiet_in mo calm p (canonical_link g) rest.

Lemma head_stable_bare c t p p' :
  any_prev p p' -> BARE_RE p (c :: t) = None -> calm (mo p (c :: t)) ->
  calm (mo p' (c :: re_sub_go BARE_RE repl_bare_annotation (Some c) 0 t)).
Proof.
  intros _ _ H.
  destruct (bare_window t (Some c)) as [Hw | (u & v & z & Hu & -> & _ & _)].
  - rewrite (window_same mo stop_blind p' c _ t Hw).
    now rewrite (prev_blind p' p _ I).
  - pose proof (stop_blind p' c u 91%N z [] eq_refl) as E.
    pose proof (open_none p' c u Hu) as E'.
    unfold str, char in *. rewrite E. cbn [app] in E'. now rewrite E'.
Qed.

Lemma bare_preserve s :
  quiet mo calm None s -> quiet mo calm None (pass4 s).
Proof.
  intros H. unfold pass4, re_sub.
  apply (preserve mo calm any_prev BARE_RE repl_bare_annotation
           any_prev_refl bare_pos head_stable_bare); auto.
  - intros p p' s0 n g rest Hm _.
    apply bare_inv in Hm as (sp & r & _ & Hg & Hne & _).
    now apply inside_calm.
  - intros. exact I.
  - exact I.
  - now apply quiet_scan_calm.
Qed.

End ClosedUnderBare.

Lemma pass4_bracketed s :
  quiet BRACKETED_RE calm_none None s ->
  quiet BRACKETED_RE calm_none None (pass4 s).
Proof.
  apply (bare_preserve BRACKETED_RE calm_none bracketed_stop_blind
           bracketed_prev_blind bracketed_open eq_refl).
  intros. now apply link_quiet_bracketed.
Qed.

Lemma pass4_spaced s :
  quiet SPACED_RE calm_none None s -> quiet SPACED_RE calm_none None (pass4 s).
Proof.
  apply (bare_preserve SPACED_RE calm_none spaced_stop_blind
           spaced_prev_blind spaced_open eq_refl).
  intros. now apply link_quiet_spaced.
Qed.

Lemma pass4_target s :
  quiet TARGET_RE calm_target None s ->
  quiet TARGET_RE calm_target None (pass4 s).
Proof.
  apply (bare_preserve TARGET_RE calm_target target_stop_blind
           target_prev_blind target_open I).
  intros. now apply link_quiet_target.
Qed.

Lemma head_stable_own c t p p' :
  same_lookbehind p p' -> BARE_RE p (c :: t) = None ->
  calm_none (BARE_RE p (c :: t)) ->
  calm_none
    (BARE_RE p' (c :: re_sub_go BARE_RE repl_bare_annotation (Some c) 0 t)).
Proof.
  intros Hp Hnone _. unfold calm_none.
  destruct (bare_window t (Some c)) as [Hw | (u & v & z & Hu & -> & Et & _)].
  - rewrite (window_same BARE_RE bare_stop_blind p' c _ t Hw).
    now rewrite <- (bare_same_lookbehind p p' _ Hp).
  - pose proof (bare_stop_blind p' c u 91%N z [] eq_refl) as E0.
    unfold str, char in *. rewrite E0.
    destruct (BARE_RE p' (c :: u ++ [91%N])) as [[n g]|] eqn:E;
      [exfalso | reflexivity].
    apply (bare_extends p' c u v); [congruence|].
    rewrite <- (bare_same_lookbehind p p' _ Hp). now rewrite <- Et.
Qed.

Lemma slug_not_paren x : isslug x = true -> (x =? 40)%N = false.
Proof. intros H. apply slug_range in H. apply N.eqb_neq. lia. Qed.

Lemma link_last g :
  canonical_link g
  = (91%N :: slug_to_title g ++ 93%N :: 40%N :: WORD ++ g) ++ [41%N].
Proof.
  rewrite link_shape. cbn [app]. rewrite <- app_assoc. cbn [app].
  now rewrite <- app_assoc.
Qed.

(** After a match of the last pass, neither the text read nor the text
    written ends with an opening parenthesis. *)
Lemma bare_after p p' s n g :
  BARE_RE p s = Some (n, g) ->
  same_lookbehind (prev_at p n s)
    (lastopt p' (repl_bare_annotation (firstn n s) g)).
Proof.
  intros H. apply bare_inv in H as (sp & r & -> & Hg & Hne & ->).
  unfold repl_bare_annotation, same_lookbehind.
  rewrite link_last, lastopt_snoc.
  destruct (exists_last Hne) as (g0 & x & ->).
  rewrite forallb_app in Hg. apply andb_true_iff in Hg as [_ Hx].
  cbn [forallb] in Hx. rewrite andb_true_r in Hx.
  replace (length WORD + length sp + length (g0 ++ [x]))
    with (S (length (WORD ++ sp ++ g0)))
    by (rewrite !length_app; cbn [length]; lia).
  cbn [prev_at].
  replace (WORD ++ sp ++ (g0 ++ [x]) ++ r)
    with ((WORD ++ sp ++ g0) ++ x :: r)
    by (rewrite <- !app_assoc; reflexivity).
  rewrite nth_error_app2 by lia. rewrite Nat.sub_diag.
  cbn [nth_error not_after]. now rewrite (slug_not_paren x Hx).
Qed.

(** Pass 4 and its own pattern. *)
Lemma pass4_bare s : quiet BARE_RE calm_none None (pass4 s).
Proof.
  unfold pass4, re_sub.
  apply (preserve BARE_RE calm_none same_lookbehind BARE_RE
           repl_bare_annotation same_lookbehind_refl bare_pos
           head_stable_own).
  - intros p p' s0 n g rest Hm _.
    apply bare_inv in Hm as (sp & r & _ & Hg & Hne & _).
    now apply link_quiet_bare.
  - apply bare_after.
  - reflexivity.
  - now apply own_scan_calm.
Qed.

(** *** A calm text is left as it is *)

Lemma calm_none_same (mo : matcher) (ro : str -> str -> str) p s n g :
  mo p s = Some (n, g) -> calm_none (Some (n, g)) ->
  ro (firstn n s) g = firstn n s /\ 1 <= n.
Proof. intros _ H. discriminate H. Qed.

Lemma firstn_exact (x r : str) n : n = length x -> firstn n (x ++ r) = x.
Proof.
  intros ->. rewrite <- (Nat.add_0_r (length x)), firstn_app_2.
  cbn [firstn]. apply app_nil_r.
Qed.

Lemma calm_target_same p s n g :
  TARGET_RE p s = Some (n, g) -> calm_target (Some (n, g)) ->
  repl_target (firstn n s) g = firstn n s /\ 1 <= n.
Proof.
  intros H Hc. cbn [calm_target] in Hc.
  apply match_shape_inv in H
    as (sp & r & -> & _ & _ & _ & _ & r' & -> & Hn).
  assert (Hsp : sp = []).
  { destruct sp; [reflexivity|]. exfalso.
    change (length (py "(annotation:")) with 12 in Hn.
    cbn [length] in Hn. lia. }
  subst sp. split; [|lia].
  assert (E : py "(annotation:" ++ [] ++ g ++ 41%N :: r'
              = (py "(annotation:" ++ g ++ [41%N]) ++ r')
    by (cbn [app]; rewrite <- !app_assoc; reflexivity).
  assert (El : n = length (py "(annotation:" ++ g ++ [41%N])).
  { rewrite Hc, !length_app.
    change (length (py "(annotation:")) with 12. cbn [length]. lia. }
  pose proof (firstn_exact (py "(annotation:" ++ g ++ [41%N]) r' n El) as Ef.
  unfold str, char in *. rewrite E, Ef. reflexivity.
Qed.

Lemma pass1_calm s : quiet BRACKETED_RE calm_none None s -> pass1 s = s.
Proof.
  apply (quiet_identity BRACKETED_RE repl_bracketed calm_none
           (calm_none_same BRACKETED_RE repl_bracketed)).
Qed.

Lemma pass2_calm s : quiet SPACED_RE calm_none None s -> pass2 s = s.
Proof.
  apply (quiet_identity SPACED_RE repl_spaced calm_none
           (calm_none_same SPACED_RE repl_spaced)).
Qed.

Lemma pass3_calm s : quiet TARGET_RE calm_target None s -> pass3 s = s.
Proof.
  apply (quiet_identity TARGET_RE repl_target calm_target calm_target_same).
Qed.

Lemma pass4_calm s : quiet BARE_RE calm_none None s -> pass4 s = s.
Proof.
  apply (quiet_identity BARE_RE repl_bare_annotation calm_none
           (calm_none_same BARE_RE repl_bare_annotation)).
Qed.

(** C6: applying the annotation normalizer twice gives the same text as
    applying it once, for every input. *)
Theorem normalize_annotations_idempotent :
  forall s : str,
    normalize_annotations (normalize_annotations s) = normalize_annotations s.
Proof.
  intros s. unfold normalize_annotations.
  set (d := pass4 (pass3 (pass2 (pass1 s)))).
  assert (H1 : quiet BRACKETED_RE calm_none None d).
  { apply pass4_bracketed, pass3_bracketed, pass2_bracketed, pass1_bracketed. }
  assert (H2 : quiet SPACED_RE calm_none None d).
  { apply pass4_spaced, pass3_spaced, pass2_spaced. }
  assert (H3 : quiet TARGET_RE calm_target None d).
  { apply pass4_target, pass3_target. }
  assert (H4 : quiet BARE_RE calm_none None d) by apply pass4_bare.
  rewrite (pass1_calm d H1), (pass2_calm d H2), (pass3_calm d H3).
  now apply pass4_calm.
Qed.

(** * Further properties of the scripts *)

(** ** What [protect_inline_code] records *)

Lemma table_keys items idx :
  map fst (table idx items)
  = map inline_key (seq idx (length (table idx items))).
Proof.
  revert idx. induction items as [|[c|g] r IH]; intros idx; cbn [table].
  - reflexivity.
  - apply IH.
  - cbn [map fst length seq]. f_equal. apply IH.
Qed.

Lemma inline_keys_nodup idx n : NoDup (map inline_key (seq idx n)).
Proof.
  revert idx. induction n as [|n IH]; intros idx; cbn [seq map].
  - constructor.
  - constructor; [|apply IH]. intros H.
    apply in_map_iff in H as (i & E & Hi).
    apply inline_key_inj in E. apply in_seq in Hi. lia.
Qed.

Lemma inline_body prev s n g :
  INLINE_CODE_RE prev s = Some (n, g) -> g <> [] /\ ~ In BACKTICK g.
Proof.
  intros H. pose proof (@inline_match prev s n g H) as (_ & _ & Hall).
  unfold INLINE_CODE_RE in H.
  apply match_shape_inv in H as (sp & r & _ & _ & _ & _ & Hne & _).
  split; [exact Hne|]. intros Hin.
  rewrite forallb_forall in Hall. specialize (Hall _ Hin).
  unfold BACKTICK in Hall. now rewrite N.eqb_refl in Hall.
Qed.

Lemma spans_bodies k s :
  Forall (fun it => match it with
                    | Text _ => True
                    | Code g => g <> [] /\ ~ In BACKTICK g
                    end) (spans_go k s).
Proof.
  revert k. induction s as [|c s IH]; intros k; [constructor|].
  cbn [spans_go]. destruct k as [|k]; [|apply IH].
  destruct (INLINE_CODE_RE None (c :: s)) as [[n g]|] eqn:E.
  - constructor; [|apply IH]. now apply inline_body in E.
  - constructor; [exact I | apply IH].
Qed.

Lemma table_values items idx :
  Forall (fun it => match it with
                    | Text _ => True
                    | Code g => g <> [] /\ ~ In BACKTICK g
                    end) items ->
  Forall (fun kv : str * str =>
            exists body, snd kv = code_text body /\ body <> []
                         /\ ~ In BACKTICK body)
    (table idx items).
Proof.
  intros H. revert idx. induction H as [|[c|g] r Hi Hr IH]; intros idx;
    cbn [table].
  - constructor.
  - apply IH.
  - constructor; [|apply IH]. exists g. cbn [snd]. tauto.
Qed.

(** X1: the placeholders [protect_inline_code] records are
    [__INLINE_CODE_0__], [__INLINE_CODE_1__], ... in the order of the
    spans, all distinct, and each stands for a span made of a backtick, a
    non-empty text without backtick, and a backtick. *)
Theorem protect_records :
  forall p : str,
    let placeholders := snd (protect_inline_code p) in
    map fst placeholders = map inline_key (seq 0 (length placeholders))
    /\ NoDup (map fst placeholders)
    /\ Forall (fun kv : str * str =>
                 exists body, snd kv = code_text body /\ body <> []
                              /\ ~ In BACKTICK body)
         placeholders.
Proof.
  intros p. cbv zeta. rewrite protect_spec. cbn [snd].
  split; [apply table_keys|]. split.
  - rewrite table_keys. apply inline_keys_nodup.
  - apply table_values, spans_bodies.
Qed.

(** ** Paragraphs without backtick *)

Lemma inline_first prev c s : c <> BACKTICK -> INLINE_CODE_RE prev (c :: s) = None.
Proof. intros H. unfold INLINE_CODE_RE. now apply match_shape_first. Qed.

Lemma protect_go_plain s prev (st : dict) :
  ~ In BACKTICK s ->
  re_sub_st_go INLINE_CODE_RE protect_repl prev 0 st s = (s, st).
Proof.
  revert prev. induction s as [|c s IH]; intros prev H; [reflexivity|].
  cbn [re_sub_st_go]. rewrite inline_first.
  - rewrite IH; [reflexivity|]. intros Hin. apply H. now right.
  - intros ->. apply H. now left.
Qed.

(** X2: a paragraph without any backtick is left as it is by
    [protect_inline_code] and by the protection step of both scripts'
    first stage, and nothing is recorded; restoring then changes
    nothing. *)
Theorem protect_without_backtick :
  forall p : str,
    ~ In BACKTICK p ->
    protect_inline_code p = (p, [])
    /\ restore_inline_code (fst (protect_inline_code p))
         (snd (protect_inline_code p)) = p.
Proof.
  intros p H.
  assert (E : protect_inline_code p = (p, [])) by now apply protect_go_plain.
  split; [exact E|]. now rewrite E.
Qed.

Lemma protect_without_backtick_witness :
  protect_inline_code (py "no code here: __INLINE_CODE_0__")
  = (py "no code here: __INLINE_CODE_0__", []).
Proof.
  apply (protect_without_backtick (py "no code here: __INLINE_CODE_0__")).
  vm_compute. intuition discriminate.
Defined.

(** ** Restoring where no placeholder occurs *)

Lemma replace_absent old new s :
  contains old s = false -> Py.replace old new s = s.
Proof.
  intros H. destruct old as [|o old].
  - destruct s; discriminate H.
  - unfold Py.replace. induction s as [|c s IH]; [reflexivity|].
    cbn [contains] in H. apply orb_false_iff in H as [H1 H2].
    cbn [Py.replace_go]. rewrite H1. f_equal. now apply IH.
Qed.

(** X3: [restore_inline_code] leaves a text unchanged when none of the
    recorded placeholders occurs in it; in particular with an empty
    mapping. *)
Theorem restore_without_placeholder :
  forall (text : str) (placeholders : dict),
    (forall k v, In (k, v) placeholders -> contains k text = false) ->
    restore_inline_code text placeholders = text.
Proof.
  intros text ph. unfold restore_inline_code.
  induction ph as [|[k v] ph IH]; intros H; [reflexivity|].
  cbn [fold_left fst snd]. rewrite replace_absent.
  - apply IH. intros k' v' Hin. apply (H k' v'). now right.
  - apply (H k v). now left.
Qed.

Lemma restore_without_placeholder_witness :
  restore_inline_code (py "translated text")
    [(py "__INLINE_CODE_0__", py "`x`"); (py "__INLINE_CODE_1__", py "`y`")]
  = py "translated text".
Proof.
  apply restore_without_placeholder.
  intros k v [[= <- <-] | [[= <- <-] | []]]; reflexivity.
Defined.

(** ** More on chunking *)

Lemma concat_nil_groups (gs : list (list str)) :
  Forall (fun g => g <> []) gs -> concat gs = [] -> gs = [].
Proof.
  intros H E. destruct H as [|g gs Hg Hgs]; [reflexivity|].
  cbn [concat] in E. apply app_eq_nil in E as [E _]. contradiction.
Qed.

(** X4: for every budget, joining the chunks by blank lines gives the
    same text as joining the paragraphs, in both scripts; and there is no
    chunk exactly when there is no paragraph. *)
Theorem chunks_rejoin :
  forall (max_chars : nat) (paragraphs : list str),
    Py.join NL2 (chunk_paragraphs_with max_chars paragraphs)
    = Py.join NL2 paragraphs
    /\ Py.join NL2 (chunk_paragraphs_ja_with max_chars paragraphs)
       = Py.join NL2 paragraphs
    /\ (chunk_paragraphs_with max_chars paragraphs = [] <-> paragraphs = []).
Proof.
  intros max ps. split; [apply chunk_paragraphs_join|]. split.
  - rewrite chunk_paragraphs_ja_eq. apply chunk_paragraphs_join.
  - rewrite chunk_paragraphs_groups.
    destruct (chunk_groups_ok max ps) as [A B]. split.
    + intros E. apply map_eq_nil in E. rewrite E in B. now symmetry.
    + intros ->. rewrite (concat_nil_groups (chunk_groups max [])).
      * reflexivity.
      * eapply Forall_impl; [|exact A]. now intros g [H _].
      * exact B.
Qed.

Lemma counted_length_cons p rest :
  counted_length (p :: rest) = length p + 2 + counted_length rest.
Proof. reflexivity. Qed.

Lemma chunk_loop_fits max ps current len :
  len + counted_length ps <= max ->
  chunk_loop max ps [] current len = ([], current ++ ps).
Proof.
  revert current len. induction ps as [|p rest IH]; intros current len H.
  - cbn [chunk_loop]. now rewrite app_nil_r.
  - rewrite counted_length_cons in H. cbn [chunk_loop].
    assert (E : (max <? len + (length p + 2)) = false)
      by (apply Nat.ltb_ge; lia).
    rewrite E. cbn [andb]. rewrite IH.
    + now rewrite <- app_assoc.
    + lia.
Qed.

(** X5: paragraphs whose counted lengths (length plus 2 each) sum to at
    most the budget form a single chunk, their blank-line join. *)
Theorem chunks_within_budget :
  forall (max_chars : nat) (paragraphs : list str),
    paragraphs <> [] ->
    counted_length paragraphs <= max_chars ->
    chunk_paragraphs_with max_chars paragraphs = [Py.join NL2 paragraphs]
    /\ chunk_paragraphs_ja_with max_chars paragraphs
       = [Py.join NL2 paragraphs].
Proof.
  intros max ps Hne H.
  assert (E : chunk_paragraphs_with max ps = [Py.join NL2 ps]).
  { unfold chunk_paragraphs_with. rewrite chunk_loop_fits by exact H.
    cbn [app]. destruct ps; [congruence | reflexivity]. }
  split; [exact E|]. now rewrite chunk_paragraphs_ja_eq.
Qed.

Lemma chunks_within_budget_witness :
  chunk_paragraphs [py "one"; py ""; py "two `x`"]
  = [Py.join NL2 [py "one"; py ""; py "two `x`"]].
Proof.
  apply (chunks_within_budget 800 [py "one"; py ""; py "two `x`"]).
  - discriminate.
  - apply Nat.leb_le. reflexivity.
Defined.

(** ** The shape of the segments *)

Lemma segment_loop_plain plain segs buf ic :
  plain_lines plain = true ->
  segment_loop plain segs buf ic = (segs, buf ++ plain, ic).
Proof.
  revert buf. induction plain as [|l plain IH]; intros buf H.
  - cbn [segment_loop]. now rewrite app_nil_r.
  - cbn [plain_lines forallb] in H. apply andb_true_iff in H as [Hl H].
    apply negb_true_iff in Hl. cbn [segment_loop]. rewrite Hl.
    rewrite IH by exact H. now rewrite <- app_assoc.
Qed.

Lemma segment_loop_fence plain f rest segs buf ic :
  plain_lines plain = true ->
  FENCE_RE f = true ->
  segment_loop (plain ++ f :: rest) segs buf ic
  = segment_loop rest (segs ++ block ic (buf ++ plain) ++ [(true, f)]) []
      (negb ic).
Proof.
  revert buf. induction plain as [|l plain IH]; intros buf H Hf.
  - cbn [app segment_loop]. rewrite Hf. rewrite app_nil_r. unfold block.
    destruct buf; cbn [is_nil negb app]; [reflexivity|].
    now rewrite <- app_assoc.
  - cbn [plain_lines forallb] in H. apply andb_true_iff in H as [Hl H].
    apply negb_true_iff in Hl. cbn [app segment_loop]. rewrite Hl.
    rewrite IH by assumption. now rewrite <- app_assoc.
Qed.

Lemma segments_of_plain content :
  plain_lines (Py.splitlines content) = true ->
  segments_of content = block false (Py.splitlines content).
Proof.
  intros H. unfold segments_of. rewrite segment_loop_plain by exact H.
  reflexivity.
Qed.

(** X6: a document without fence line is one text segment, the join of
    its lines (no segment at all when it has no line), so
    [translate_markdown] is [translate_text] applied to that join. *)
Theorem document_without_fence :
  forall (T : Type) (translate : str -> T -> option str * T)
         (protect : str -> str * dict) (content : str) (t : T),
    plain_lines (Py.splitlines content) = true ->
    segments_of content = block false (Py.splitlines content)
    /\ (Py.splitlines content <> [] ->
        translate_markdown translate protect content t
        = translate_text translate protect
            (Py.join [LF] (Py.splitlines content)) t).
Proof.
  intros T translate protect content t H.
  pose proof (segments_of_plain content H) as E.
  split; [exact E|]. intros Hne. unfold translate_markdown. rewrite E.
  unfold block. destruct (Py.splitlines content) as [|l ls]; [congruence|].
  cbn [is_nil negb translate_segments app].
  now destruct (translate_text translate protect _ t).
Qed.

Lemma document_without_fence_witness :
  segments_of (py "one
two

three") = [(false, py "one
two

three")].
Proof.
  exact (proj1 (document_without_fence unit failing_translator protect_chapters
                  (py "one
two

three") tt eq_refl)).
Defined.

(** X7: in a document whose lines are a fence-free run, a fence line, a
    second fence-free run, a closing fence line and a last fence-free
    run, the runs before and after are text segments, the run between
    the fences is a code segment, and each fence line is a code segment
    of its own. *)
Theorem fenced_block_segments :
  forall (content : str) (pre body post : list str) (f1 f2 : str),
    Py.splitlines content = pre ++ f1 :: body ++ f2 :: post ->
    plain_lines pre = true -> plain_lines body = true ->
    plain_lines post = true ->
    FENCE_RE f1 = true -> FENCE_RE f2 = true ->
    segments_of content
    = block false pre ++ [(true, f1)] ++ block true body ++ [(true, f2)]
        ++ block false post.
Proof.
  intros content pre body post f1 f2 E Hpre Hbody Hpost H1 H2.
  unfold segments_of. rewrite E.
  rewrite segment_loop_fence by assumption.
  rewrite segment_loop_fence by assumption.
  rewrite segment_loop_plain by assumption.
  cbn [app negb]. unfold block at 3.
  destruct post; cbn [is_nil negb]; rewrite <- ?app_assoc;
    cbn [app]; now rewrite ?app_nil_r.
Qed.

Lemma fenced_block_segments_witness :
  segments_of (py "intro
```python
x = 1
y = 2
  ```
outro")
  = [(false, py "intro"); (true, py "```python"); (true, py "x = 1
y = 2"); (true, py "  ```"); (false, py "outro")].
Proof.
  apply (fenced_block_segments (py "intro
```python
x = 1
y = 2
  ```
outro") [py "intro"] [py "x = 1"; py "y = 2"] [py "outro"]
    (py "```python") (py "  ```")); reflexivity.
Defined.



(** ** Invariants of the segmentation *)

Lemma segment_loop_shape (L : list str) lines segs buf ic :
  let Q := fun sg : segment =>
    (fst sg = true /\ FENCE_RE (snd sg) = true /\ In (snd sg) L)
    \/ exists b, b <> [] /\ snd sg = Py.join [LF] b
                 /\ Forall (fun l => FENCE_RE l = false /\ In l L) b in
  Forall Q segs ->
  Forall (fun l => FENCE_RE l = false /\ In l L) buf ->
  incl lines L ->
  let '(segs', buf', ic') := segment_loop lines segs buf ic in
  Forall Q (if negb (is_nil buf')
            then segs' ++ [(ic', Py.join [LF] buf')] else segs').
Proof.
  intros Q. revert segs buf ic.
  induction lines as [|l rest IH]; intros segs buf ic Hs Hb Hl.
  - cbn [segment_loop]. destruct buf as [|b buf]; cbn [is_nil negb];
      [exact Hs|].
    apply Forall_app. split; [exact Hs|]. constructor; [|constructor].
    right. exists (b :: buf). cbn [snd]. split; [discriminate|]. now split.
  - cbn [segment_loop].
    assert (Hin : In l L) by (apply Hl; now left).
    assert (Hr : incl rest L) by (intros x Hx; apply Hl; now right).
    destruct (FENCE_RE l) eqn:Ef.
    + apply IH; [|constructor|exact Hr].
      apply Forall_app. split.
      * destruct buf as [|b buf]; cbn [is_nil negb]; [exact Hs|].
        apply Forall_app. split; [exact Hs|]. constructor; [|constructor].
        right. exists (b :: buf). cbn [snd]. split; [discriminate|].
        now split.
      * constructor; [|constructor]. left. cbn [fst snd]. auto.
    + apply IH; [exact Hs| |exact Hr].
      apply Forall_app. split; [exact Hb|]. constructor; [|constructor].
      now split.
Qed.

(** X9: every segment is either a fence line of the document, tagged as
    code, or the join of a non-empty run of lines of the document none of
    which is a fence line; no segment comes from an empty run, and no
    fence line is merged into a neighbouring segment. *)
Theorem segments_shape :
  forall content : str,
    Forall (fun sg : segment =>
      (fst sg = true /\ FENCE_RE (snd sg) = true
       /\ In (snd sg) (Py.splitlines content))
      \/ exists b, b <> [] /\ snd sg = Py.join [LF] b
           /\ Forall (fun l => FENCE_RE l = false
                               /\ In l (Py.splitlines content)) b)
      (segments_of content).
Proof.
  intros content. unfold segments_of.
  pose proof (segment_loop_shape (Py.splitlines content)
                (Py.splitlines content) [] [] false) as H.
  cbv zeta in H.
  destruct (segment_loop (Py.splitlines content) [] [] false) as [[s b] c].
  apply H; [constructor | constructor | apply incl_refl].
Qed.

(** X10: for every document, whatever its line terminators and fences,
    the contents of the segments joined by line feeds are the lines of
    the document joined by line feeds: segmentation loses no line and
    keeps their order. *)
Theorem segments_keep_lines :
  forall content : str,
    Py.join [LF] (map snd (segments_of content))
    = Py.join [LF] (Py.splitlines content).
Proof. intros content. apply segments_join. Qed.

(** ** What reaches the translator *)

Lemma lstrip_snoc a c :
  Py.isspace c = false -> Py.lstrip (a ++ [c]) = Py.lstrip a ++ [c].
Proof.
  intros Hc. induction a as [|x a IH]; cbn [app Py.lstrip].
  - now rewrite Hc.
  - destruct (Py.isspace x); [exact IH | reflexivity].
Qed.

Lemma lstrip_head s :
  Py.lstrip s = [] \/ Py.isspace (hd 0%N (Py.lstrip s)) = false.
Proof.
  induction s as [|c s IH]; [now left|]. cbn [Py.lstrip].
  destruct (Py.isspace c) eqn:E; [exact IH|]. right. exact E.
Qed.

Lemma rstrip_cons c r :
  Py.isspace c = false -> Py.rstrip (c :: r) = c :: Py.rstrip r.
Proof.
  intros Hc. unfold Py.rstrip. cbn [rev]. rewrite lstrip_snoc by exact Hc.
  rewrite rev_app_distr. reflexivity.
Qed.

Lemma rstrip_last s :
  Py.rstrip s = [] \/ Py.isspace (last (Py.rstrip s) 0%N) = false.
Proof.
  unfold Py.rstrip. destruct (lstrip_head (rev s)) as [E | E].
  - left. now rewrite E.
  - right. destruct (Py.lstrip (rev s)) as [|d q]; [exact E|].
    cbn [rev]. rewrite last_last. exact E.
Qed.

Lemma strip_ends ch :
  Py.strip ch <> [] ->
  Py.isspace (hd 0%N (Py.strip ch)) = false
  /\ Py.isspace (last (Py.strip ch) 0%N) = false.
Proof.
  intros Hne. split.
  - unfold Py.strip in *. destruct (lstrip_head ch) as [E | E].
    + rewrite E in Hne. now contradiction Hne.
    + destruct (Py.lstrip ch) as [|c r]; [now contradiction Hne|].
      cbn [hd] in E. rewrite rstrip_cons by exact E. exact E.
  - unfold Py.strip in *.
    destruct (rstrip_last (Py.lstrip ch)) as [E | E]; [contradiction|exact E].
Qed.

Section Calls.

Variable T : Type.
Variable translate : str -> T -> option str * T.
Variable protect : str -> str * dict.

Lemma translate_chunks_calls chunks acc t calls :
  snd (snd (translate_chunks (logged translate) chunks acc (t, calls)))
  = calls ++ filter (fun text => negb (is_nil text)) (map Py.strip chunks).
Proof.
  revert acc t calls. induction chunks as [|ch rest IH]; intros acc t calls.
  - cbn. now rewrite app_nil_r.
  - cbn [translate_chunks map filter]. unfold translate_chunk.
    destruct (is_nil (Py.strip ch)) eqn:E; cbn [negb].
    + apply IH.
    + unfold logged. cbn [fst snd].
      destruct (translate (Py.strip ch) t) as [[r|] t']; rewrite IH;
        now rewrite <- app_assoc.
Qed.

Lemma translate_text_calls seg t calls :
  snd (snd (translate_text (logged translate) protect seg (t, calls)))
  = calls ++ sent_texts protect (false, seg).
Proof.
  unfold translate_text, sent_texts. cbn [fst snd].
  pose proof (translate_chunks_calls
                (chunk_paragraphs
                   (map (fun p => fst (protect p)) (Py.split NL2 seg)))
                [] t calls) as H.
  destruct (translate_chunks (logged translate) _ [] (t, calls)) as [r tl].
  exact H.
Qed.

Lemma translate_segments_calls segs acc t calls :
  snd (snd (translate_segments (logged translate) protect segs acc (t, calls)))
  = calls ++ flat_map (sent_texts protect) segs.
Proof.
  revert acc t calls. induction segs as [|[ic seg] rest IH];
    intros acc t calls.
  - cbn. now rewrite app_nil_r.
  - cbn [translate_segments flat_map]. destruct ic.
    + rewrite IH. reflexivity.
    + pose proof (translate_text_calls seg t calls) as H.
      destruct (translate_text (logged translate) protect seg (t, calls))
        as [r [t' calls']].
      cbn [snd] in H. rewrite IH, H. now rewrite <- app_assoc.
Qed.

End Calls.

Lemma sent_texts_stripped protect sg :
  Forall (fun text => text <> []
                      /\ Py.isspace (hd 0%N text) = false
                      /\ Py.isspace (last text 0%N) = false)
    (sent_texts protect sg).
Proof.
  unfold sent_texts. destruct (fst sg); [constructor|].
  apply Forall_forall. intros x Hx. apply filter_In in Hx as [Hin Hne].
  apply in_map_iff in Hin as (ch & <- & _).
  assert (H : Py.strip ch <> []) by (now destruct (Py.strip ch)).
  split; [exact H | now apply strip_ends].
Qed.

(** X11: the texts [translate_markdown] passes to the translator are, in
    order, the stripped non-empty chunks of the protected paragraphs of
    the text segments, and nothing else: no call is made for a code
    segment, and no text passed is empty or begins or ends with white
    space. *)
Theorem translator_calls :
  forall (T : Type) (translate : str -> T -> option str * T)
         (protect : str -> str * dict) (content : str) (t : T)
         (calls : list str),
    snd (snd (translate_markdown (logged translate) protect content
                (t, calls)))
    = calls ++ flat_map (sent_texts protect) (segments_of content)
    /\ Forall (fun text => text <> []
                           /\ Py.isspace (hd 0%N text) = false
                           /\ Py.isspace (last text 0%N) = false)
         (flat_map (sent_texts protect) (segments_of content)).
Proof.
  intros T translate protect content t calls. split.
  - unfold translate_markdown.
    pose proof (translate_segments_calls T translate protect
                  (segments_of content) [] t calls) as H.
    destruct (translate_segments (logged translate) protect _ [] (t, calls))
      as [out tl].
    exact H.
  - apply Forall_flat_map, Forall_forall. intros sg _.
    apply sent_texts_stripped.
Qed.

(** ** Documents made of code only *)

Lemma translate_segments_all_code (T : Type)
    (translate : str -> T -> option str * T) protect segs acc t :
  forallb fst segs = true ->
  translate_segments translate protect segs acc t = (acc ++ map snd segs, t).
Proof.
  revert acc. induction segs as [|[ic seg] rest IH]; intros acc H.
  - cbn. now rewrite app_nil_r.
  - cbn [forallb fst] in H. apply andb_true_iff in H as [-> H].
    cbn [translate_segments map snd]. rewrite IH by exact H.
    now rewrite <- app_assoc.
Qed.

(** X12: when every segment of a document is code (fence lines and the
    lines between them), [translate_markdown] returns the lines of the
    document joined by line feeds and leaves the translator untouched. *)
Theorem code_only_document :
  forall (T : Type) (translate : str -> T -> option str * T)
         (protect : str -> str * dict) (content : str) (t : T),
    forallb fst (segments_of content) = true ->
    translate_markdown translate protect content t
    = (Py.join [LF] (Py.splitlines content), t).
Proof.
  intros T translate protect content t H. unfold translate_markdown.
  rewrite translate_segments_all_code by exact H. cbn [app].
  now rewrite segments_join.
Qed.

Lemma code_only_document_witness :
  translate_markdown (logged failing_translator) protect_ja
    [96; 96; 96; CR; LF; 120; CR; LF; 96; 96; 96; LF]%N (tt, [])
  = ([96; 96; 96; LF; 120; LF; 96; 96; 96]%N, (tt, [])).
Proof.
  apply (code_only_document (unit * list str) (logged failing_translator)
           protect_ja [96; 96; 96; CR; LF; 120; CR; LF; 96; 96; 96; LF]%N
           (tt, [])).
  reflexivity.
Defined.

(** ** The normalizer on annotations in running text *)

Lemma re_sub_go_quiet m r x rest p :
  quiet_in m calm_none p x rest ->
  re_sub_go m r p 0 (x ++ rest) = x ++ re_sub_go m r (lastopt p x) 0 rest.
Proof.
  revert p. induction x as [|c x IH]; intros p H; [reflexivity|].
  destruct H as [H1 H2]. unfold calm_none in H1.
  change ((c :: x) ++ rest) with (c :: x ++ rest) in *.
  cbn [re_sub_go]. rewrite H1, (IH _ H2), (lastopt_cons p). reflexivity.
Qed.

Lemma prev_at_length p x rest :
  prev_at p (length x) (x ++ rest) = lastopt p x.
Proof.
  revert p. induction x as [|c x IH]; intros p; [reflexivity|].
  change (length (c :: x)) with (S (length x)).
  change ((c :: x) ++ rest) with (c :: x ++ rest).
  rewrite <- (prev_at_cons p), IH. symmetry. apply lastopt_cons.
Qed.

Lemma skipn_exact (x rest : str) : skipn (length x) (x ++ rest) = rest.
Proof. induction x as [|c x IH]; [reflexivity | exact IH]. Qed.

Lemma re_sub_go_hit m r x rest p g :
  x <> [] -> m p (x ++ rest) = Some (length x, g) ->
  re_sub_go m r p 0 (x ++ rest)
  = r x g ++ re_sub_go m r (lastopt p x) 0 rest.
Proof.
  destruct x as [|c x]; [congruence|]. intros _ H.
  assert (F : firstn (length (c :: x)) ((c :: x) ++ rest) = c :: x)
    by now apply firstn_exact.
  change ((c :: x) ++ rest) with (c :: x ++ rest) in *.
  cbn [re_sub_go]. rewrite H, F. f_equal.
  change (length (c :: x) - 1) with (S (length x) - 1).
  replace (S (length x) - 1) with (length x) by lia.
  rewrite re_sub_go_skip by (rewrite length_app; lia).
  rewrite skipn_exact, prev_at_length. now rewrite (lastopt_cons p).
Qed.

(** A match of the common shape where its parts are laid out. *)
Lemma match_shape_hit lit cls close sp g r :
  forallb Py.isspace sp = true ->
  forallb cls g = true -> g <> [] ->
  (forall c, cls c = true -> Py.isspace c = false) ->
  match close with
  | Some e => exists r', r = e :: r' /\ cls e = false
  | None => forall c r', r = c :: r' -> cls c = false
  end ->
  match_shape lit true cls close (lit ++ sp ++ g ++ r)
  = Some (length lit + length sp + length g
          + match close with Some _ => 1 | None => 0 end, g).
Proof.
  intros Hsp Hg Hne Hcls Hr. unfold match_shape.
  rewrite strip_prefix_same.
  assert (E1 : span Py.isspace (sp ++ g ++ r) = (sp, g ++ r)).
  { apply span_take; [exact Hsp|]. intros c r' E.
    destruct g as [|h g]; [congruence|]. injection E as <- _.
    apply Hcls. cbn [forallb] in Hg. now apply andb_true_iff in Hg. }
  assert (E2 : span cls (g ++ r) = (g, r)).
  { apply span_take; [exact Hg|]. destruct close as [e|].
    - destruct Hr as (r' & -> & He). now intros c r'' [= <- _].
    - exact Hr. }
  rewrite E1, E2. destruct g as [|h g]; [congruence|].
  destruct close as [e|].
  - destruct Hr as (r' & -> & _). now rewrite N.eqb_refl.
  - now rewrite Nat.add_0_r.
Qed.

Lemma bracketed_hit p ws g y :
  forallb Py.isspace ws = true -> forallb isslug g = true -> g <> [] ->
  BRACKETED_RE p (py "[annotation:" ++ ws ++ g ++ 93%N :: y)
  = Some (length (py "[annotation:" ++ ws ++ g ++ [93%N]), g).
Proof.
  intros Hws Hg Hne. unfold BRACKETED_RE.
  rewrite match_shape_hit; auto using slug_not_space.
  - f_equal. f_equal. rewrite !length_app. cbn [length]. lia.
  - now exists y.
Qed.

Lemma target_hit p ws g y :
  forallb Py.isspace ws = true -> forallb isslug g = true -> g <> [] ->
  TARGET_RE p (py "(annotation:" ++ ws ++ g ++ 41%N :: y)
  = Some (length (py "(annotation:" ++ ws ++ g ++ [41%N]), g).
Proof.
  intros Hws Hg Hne. unfold TARGET_RE.
  rewrite match_shape_hit; auto using slug_not_space.
  - f_equal. f_equal. rewrite !length_app. cbn [length]. lia.
  - now exists y.
Qed.

Lemma bare_hit p ws g y :
  not_after 40%N p = true ->
  forallb Py.isspace ws = true -> forallb isslug g = true -> g <> [] ->
  (forall c r', y = c :: r' -> isslug c = false) ->
  BARE_RE p (WORD ++ ws ++ g ++ y) = Some (length (WORD ++ ws ++ g), g).
Proof.
  intros Hp Hws Hg Hne Hy. unfold BARE_RE. rewrite Hp.
  change (py "annotation:") with WORD.
  rewrite match_shape_hit; auto using slug_not_space.
  f_equal. f_equal. rewrite !length_app. lia.
Qed.

Lemma spaced_hit p sp y :
  forallb Py.isspace sp = true -> sp <> [] ->
  SPACED_RE p (93%N :: sp ++ 40%N :: y) = Some (length sp + 2, []).
Proof.
  intros Hsp Hne. unfold SPACED_RE. rewrite N.eqb_refl.
  rewrite (span_take Py.isspace sp (40%N :: y)); [|exact Hsp|].
  - destruct sp; [congruence | reflexivity].
  - now intros c r' [= <- _].
Qed.

(** Texts without delimiter and colon. *)

Lemma plain_notin c x :
  forallb titlechar x = true -> titlechar c = false -> ~ In c x.
Proof.
  intros Hx Hc Hin. rewrite forallb_forall in Hx.
  specialize (Hx c Hin). congruence.
Qed.

Lemma space_notin c x :
  forallb Py.isspace x = true -> Py.isspace c = false -> ~ In c x.
Proof.
  intros Hx Hc Hin. rewrite forallb_forall in Hx.
  specialize (Hx c Hin). congruence.
Qed.

Lemma word_colon s s1 :
  strip_prefix WORD s = Some s1 -> nth_error s 10 = Some 58%N.
Proof. intros H. apply strip_prefix_app in H. now subst s. Qed.

(** The word does not start inside a text without colon when no colon
    follows within the next ten characters. *)
Lemma bare_before_word p x rest :
  ~ In 58%N x -> ~ In 58%N (firstn 10 rest) ->
  quiet_in BARE_RE calm_none p x rest.
Proof.
  revert p. induction x as [|c x IH]; intros p Hx Hr; [exact I|].
  cbn [quiet_in]. split.
  - unfold calm_none, BARE_RE. destruct (not_after 40%N p); [|reflexivity].
    unfold match_shape. change (py "annotation:") with WORD.
    assert (E : strip_prefix WORD ((c :: x) ++ rest) = None).
    { destruct (strip_prefix WORD ((c :: x) ++ rest)) as [s1|] eqn:E;
        [exfalso | reflexivity].
      apply word_colon in E.
      destruct (Nat.lt_ge_cases 10 (length (c :: x))) as [Hl | Hl].
      + rewrite nth_error_app1 in E by exact Hl.
        apply Hx. eapply nth_error_In, E.
      + rewrite nth_error_app2 in E by exact Hl.
        apply Hr. apply (nth_error_In _ (10 - length (c :: x))).
        rewrite nth_error_firstn.
        replace (10 - length (c :: x) <? 10) with true; [exact E|].
        symmetry. apply Nat.ltb_lt. cbn [length]. lia. }
    unfold str, char in *. now rewrite E.
  - apply IH; [|exact Hr]. intros H. apply Hx. now right.
Qed.

Lemma re_sub_go_quiet_end m r x p :
  quiet_in m calm_none p x [] -> re_sub_go m r p 0 x = x.
Proof.
  intros H. rewrite <- (app_nil_r x) at 1.
  rewrite re_sub_go_quiet by exact H. apply app_nil_r.
Qed.

Lemma quiet_three mo calm (a b c : str) :
  quiet_in mo calm None a (b ++ c) ->
  (forall p, quiet_in mo calm p b c) ->
  (forall p, quiet_in mo calm p c []) ->
  quiet mo calm None (a ++ b ++ c).
Proof.
  intros Ha Hb Hc. unfold quiet. apply quiet_in_app.
  - now rewrite app_nil_r.
  - apply quiet_in_app; [rewrite app_nil_r; apply Hb | apply Hc].
Qed.

Section AroundLink.

Variables pre post : str.
Hypothesis Hpre : forallb titlechar pre = true.
Hypothesis Hpost : forallb titlechar post = true.

Lemma plain_quiet_bracketed p (x rest : str) :
  forallb titlechar x = true -> quiet_in BRACKETED_RE calm_none p x rest.
Proof.
  intros Hx.
  apply (quiet_in_other BRACKETED_RE calm_none 91%N bracketed_first eq_refl).
  now apply plain_notin.
Qed.

Lemma plain_quiet_spaced p (x rest : str) :
  forallb titlechar x = true -> quiet_in SPACED_RE calm_none p x rest.
Proof.
  intros Hx.
  apply (quiet_in_other SPACED_RE calm_none 93%N spaced_first eq_refl).
  now apply plain_notin.
Qed.

Lemma plain_quiet_target calm p (x rest : str) :
  calm None ->
  forallb titlechar x = true -> quiet_in TARGET_RE calm p x rest.
Proof.
  intros Hc Hx.
  apply (quiet_in_other TARGET_RE calm 40%N target_first Hc).
  now apply plain_notin.
Qed.

Lemma plain_quiet_bare_end p (x : str) :
  forallb titlechar x = true -> quiet_in BARE_RE calm_none p x [].
Proof.
  intros Hx. apply bare_before_word; [now apply plain_notin | intros []].
Qed.

(** A canonical link between two texts without delimiter and colon is
    left as it is by the last three passes. *)
Lemma link_in_text_calm g :
  forallb isslug g = true -> g <> [] ->
  pass4 (pass3 (pass2 (pre ++ canonical_link g ++ post)))
  = pre ++ canonical_link g ++ post.
Proof.
  intros Hg Hne.
  rewrite pass2_calm, pass3_calm, pass4_calm; [reflexivity| | |].
  - apply quiet_three.
    + rewrite link_shape. cbn [app]. apply bare_without_colon.
      * now apply plain_notin.
      * vm_compute. intuition discriminate.
    + intros p. now apply link_quiet_bare.
    + intros p. now apply plain_quiet_bare_end.
  - apply quiet_three.
    + now apply plain_quiet_target.
    + intros p. now apply link_quiet_target.
    + intros p. now apply plain_quiet_target.
  - apply quiet_three.
    + now apply plain_quiet_spaced.
    + intros p. now apply link_quiet_spaced.
    + intros p. now apply plain_quiet_spaced.
Qed.

End AroundLink.

(** X13: a bracketed annotation [[annotation: slug]], with any white
    space (or none) after the colon, standing between two texts that
    contain no bracket, parenthesis or colon, becomes the link
    [[Title](annotation:slug)]; the texts around it are unchanged. *)
Theorem bracketed_annotation_normalized :
  forall pre ws g post : str,
    forallb titlechar pre = true -> forallb titlechar post = true ->
    forallb Py.isspace ws = true ->
    forallb isslug g = true -> g <> [] ->
    normalize_annotations (pre ++ py "[annotation:" ++ ws ++ g ++ py "]" ++ post)
    = pre ++ canonical_link g ++ post.
Proof.
  intros pre ws g post Hpre Hpost Hws Hg Hne. unfold normalize_annotations.
  assert (E1 : pass1 (pre ++ py "[annotation:" ++ ws ++ g ++ py "]" ++ post)
               = pre ++ canonical_link g ++ post).
  { unfold pass1, re_sub.
    rewrite re_sub_go_quiet by now apply plain_quiet_bracketed.
    replace (py "[annotation:" ++ ws ++ g ++ py "]" ++ post)
      with ((py "[annotation:" ++ ws ++ g ++ [93%N]) ++ post)
      by (now rewrite <- !app_assoc).
    rewrite (re_sub_go_hit BRACKETED_RE repl_bracketed _ post _ g).
    - rewrite re_sub_go_quiet_end by now apply plain_quiet_bracketed.
      unfold repl_bracketed. now rewrite strip_slug.
    - discriminate.
    - rewrite <- !app_assoc. now apply bracketed_hit. }
  rewrite E1. now apply link_in_text_calm.
Qed.

Lemma bracketed_annotation_normalized_witness :
  normalize_annotations (py "see [annotation:   rule-110] now")
  = py "see [Rule 110](annotation:rule-110) now".
Proof.
  apply (bracketed_annotation_normalized (py "see ") (py "   ")
           (py "rule-110") (py " now")); try reflexivity.
  discriminate.
Defined.

Lemma titlechar_not_stop c : titlechar c = true -> isstop c = false.
Proof.
  unfold titlechar. intros H. apply andb_true_iff in H as [H _].
  now apply negb_true_iff in H.
Qed.

Lemma nostop_notin c (x : str) :
  isstop c = true -> Forall (fun y => isstop y = false) x -> ~ In c x.
Proof.
  intros Hc Hx Hin. rewrite Forall_forall in Hx.
  specialize (Hx c Hin). congruence.
Qed.

(** A text without bracket and parenthesis is left as it is by the first
    three passes. *)
Lemma nostop_calm (x : str) :
  Forall (fun y => isstop y = false) x -> pass3 (pass2 (pass1 x)) = x.
Proof.
  intros H. rewrite pass1_calm, pass2_calm, pass3_calm; [reflexivity| | |].
  - apply (quiet_in_other TARGET_RE calm_target 40%N target_first I).
    now apply nostop_notin.
  - apply (quiet_in_other SPACED_RE calm_none 93%N spaced_first eq_refl).
    now apply nostop_notin.
  - apply (quiet_in_other BRACKETED_RE calm_none 91%N bracketed_first eq_refl).
    now apply nostop_notin.
Qed.

Lemma plain_nostop (x : str) :
  forallb titlechar x = true -> Forall (fun y => isstop y = false) x.
Proof.
  intros H. apply Forall_forall. intros y Hy. apply titlechar_not_stop.
  rewrite forallb_forall in H. now apply H.
Qed.

Lemma space_nostop (x : str) :
  forallb Py.isspace x = true -> Forall (fun y => isstop y = false) x.
Proof.
  intros H. apply Forall_forall. intros y Hy.
  rewrite forallb_forall in H. specialize (H y Hy).
  destruct (isstop y) eqn:E; [|reflexivity].
  apply isstop_not_space in E. congruence.
Qed.

Lemma slug_nostop (x : str) :
  forallb isslug x = true -> Forall (fun y => isstop y = false) x.
Proof.
  intros H. apply Forall_forall. intros y Hy.
  rewrite forallb_forall in H. specialize (H y Hy).
  destruct (isstop y) eqn:E; [|reflexivity].
  apply isstop_not_slug in E. congruence.
Qed.

Lemma word_nostop : Forall (fun y => isstop y = false) WORD.
Proof. repeat constructor. Qed.

Lemma last_in (x : str) d : x <> [] -> In (last x d) x.
Proof.
  induction x as [|c x IH]; [congruence|]. intros _.
  destruct x as [|c' x]; [now left|]. right. apply IH. discriminate.
Qed.

Lemma lastopt_in p (x : str) c :
  lastopt p x = Some c -> p = Some c \/ In c x.
Proof.
  destruct x as [|d x]; [now left|]. intros H. right.
  replace c with (last (d :: x) 0%N) by (unfold lastopt in H; congruence).
  apply last_in. discriminate.
Qed.

Lemma not_after_plain p (x : str) :
  forallb titlechar x = true -> not_after 40%N p = true ->
  not_after 40%N (lastopt p x) = true.
Proof.
  intros Hx Hp. destruct (lastopt p x) as [c|] eqn:E; [|reflexivity].
  apply lastopt_in in E as [-> | Hin]; [exact Hp|].
  cbn [not_after]. apply negb_true_iff, N.eqb_neq. intros ->.
  revert Hin. now apply plain_notin.
Qed.

(** X14: a bare mention [annotation:slug], with any white space (or
    none) after the colon, standing between two texts that contain no
    bracket, parenthesis or colon, the second not beginning with a slug
    character, becomes the link [[Title](annotation:slug)]; the white
    space after the colon is dropped and the texts around are
    unchanged. *)
Theorem bare_annotation_normalized :
  forall pre ws g post : str,
    forallb titlechar pre = true -> forallb titlechar post = true ->
    forallb Py.isspace ws = true ->
    forallb isslug g = true -> g <> [] ->
    (forall c r, post = c :: r -> isslug c = false) ->
    normalize_annotations (pre ++ py "annotation:" ++ ws ++ g ++ post)
    = pre ++ canonical_link g ++ post.
Proof.
  intros pre ws g post Hpre Hpost Hws Hg Hne Hhd.
  unfold normalize_annotations. change (py "annotation:") with WORD.
  rewrite nostop_calm.
  - unfold pass4, re_sub.
    rewrite re_sub_go_quiet.
    + replace (WORD ++ ws ++ g ++ post) with ((WORD ++ ws ++ g) ++ post)
        by (now rewrite <- !app_assoc).
      rewrite (re_sub_go_hit BARE_RE repl_bare_annotation _ post _ g).
      * rewrite re_sub_go_quiet_end by now apply plain_quiet_bare_end.
        reflexivity.
      * discriminate.
      * rewrite <- !app_assoc. apply bare_hit; auto.
        now apply not_after_plain.
    + apply bare_before_word; [now apply plain_notin|].
      cbn. intuition discriminate.
  - repeat (apply Forall_app; split);
      auto using plain_nostop, space_nostop, slug_nostop, word_nostop.
Qed.

Lemma bare_annotation_normalized_witness :
  normalize_annotations (py "See annotation: rule-30, then stop.")
  = py "See [Rule 30](annotation:rule-30), then stop.".
Proof.
  apply (bare_annotation_normalized (py "See ") (py " ") (py "rule-30")
           (py ", then stop.")); try reflexivity.
  - discriminate.
  - now intros c r [= <- _].
Defined.

(** Absence of a character from a text made of plain texts, white space,
    slugs and fixed characters. *)
Ltac absent :=
  let H := fresh "Hin" in
  intros H;
  repeat match type of H with
         | In _ (_ ++ _) => apply in_app_or in H as [H | H]
         | In _ (_ :: _) => destruct H as [H | H]
         | In _ WORD => vm_compute in H
         | In _ [] => contradiction
         | _ \/ _ => destruct H as [H | H]
         | False => contradiction
         end;
  try discriminate;
  try (exfalso; revert H; apply plain_notin; [assumption | reflexivity]);
  try (exfalso; revert H; apply space_notin; [assumption | reflexivity]);
  try (exfalso; revert H; apply slug_notin; [assumption | reflexivity]).

Section LinkWithTarget.

Variables pre title sp ws g post : str.
Hypothesis Hpre : forallb titlechar pre = true.
Hypothesis Htitle : forallb titlechar title = true.
Hypothesis Hpost : forallb titlechar post = true.
Hypothesis Hsp : forallb Py.isspace sp = true.
Hypothesis Hws : forallb Py.isspace ws = true.
Hypothesis Hg : forallb isslug g = true.
Hypothesis Hne : g <> [].

Lemma spaced_link_pass1 :
  pass1 (pre ++ 91%N :: title ++ 93%N :: sp ++ 40%N :: WORD ++ ws ++ g
           ++ 41%N :: post)
  = pre ++ 91%N :: title ++ 93%N :: sp ++ 40%N :: WORD ++ ws ++ g
      ++ 41%N :: post.
Proof.
  apply pass1_calm. unfold quiet. apply quiet_in_app.
  - now apply plain_quiet_bracketed.
  - cbn [quiet_in]. split.
    + rewrite app_nil_r. apply bracketed_at_link; absent.
    + apply (quiet_in_other BRACKETED_RE calm_none 91%N bracketed_first
               eq_refl).
      absent.
Qed.

Lemma spaced_link_pass2 :
  pass2 (pre ++ 91%N :: title ++ 93%N :: sp ++ 40%N :: WORD ++ ws ++ g
           ++ 41%N :: post)
  = pre ++ 91%N :: title ++ 93%N :: 40%N :: WORD ++ ws ++ g ++ 41%N :: post.
Proof.
  destruct sp as [|s0 sp'] eqn:Esp.
  - cbn [app]. apply pass2_calm. unfold quiet.
    replace (pre ++ 91%N :: title ++ 93%N :: 40%N :: WORD ++ ws ++ g
               ++ 41%N :: post)
      with ((pre ++ 91%N :: title) ++ [93%N]
              ++ (40%N :: WORD ++ ws ++ g ++ 41%N :: post))
      by (rewrite <- !app_assoc; reflexivity).
    apply quiet_in_app; [|apply quiet_in_app].
    + apply (quiet_in_other SPACED_RE calm_none 93%N spaced_first eq_refl).
      absent.
    + split; [reflexivity | exact I].
    + apply (quiet_in_other SPACED_RE calm_none 93%N spaced_first eq_refl).
      absent.
  - rewrite <- Esp in *. unfold pass2, re_sub.
    replace (pre ++ 91%N :: title ++ 93%N :: sp ++ 40%N :: WORD ++ ws ++ g
               ++ 41%N :: post)
      with ((pre ++ 91%N :: title) ++ (93%N :: sp ++ [40%N])
              ++ (WORD ++ ws ++ g ++ 41%N :: post))
      by (rewrite <- !app_assoc; cbn [app]; rewrite <- !app_assoc;
          reflexivity).
    rewrite re_sub_go_quiet.
    + rewrite (re_sub_go_hit SPACED_RE repl_spaced _ _ _ []).
      * rewrite re_sub_go_quiet_end.
        -- rewrite <- !app_assoc. reflexivity.
        -- apply (quiet_in_other SPACED_RE calm_none 93%N spaced_first
                    eq_refl).
           absent.
      * discriminate.
      * cbn [app]. rewrite <- app_assoc. cbn [app].
        rewrite spaced_hit; [|exact Hsp | rewrite Esp; discriminate].
        f_equal. f_equal. cbn [length]. rewrite length_app. cbn [length].
        lia.
    + apply (quiet_in_other SPACED_RE calm_none 93%N spaced_first eq_refl).
      absent.
Qed.

Lemma spaced_link_pass3 :
  pass3 (pre ++ 91%N :: title ++ 93%N :: 40%N :: WORD ++ ws ++ g
           ++ 41%N :: post)
  = pre ++ 91%N :: title ++ 93%N :: 40%N :: WORD ++ g ++ 41%N :: post.
Proof.
  unfold pass3, re_sub.
  replace (pre ++ 91%N :: title ++ 93%N :: 40%N :: WORD ++ ws ++ g
             ++ 41%N :: post)
    with ((pre ++ 91%N :: title ++ [93%N])
            ++ (py "(annotation:" ++ ws ++ g ++ [41%N]) ++ post)
    by (rewrite <- !app_assoc; cbn [app]; rewrite <- !app_assoc;
        reflexivity).
  rewrite re_sub_go_quiet.
  - rewrite (re_sub_go_hit TARGET_RE repl_target _ _ _ g).
    + rewrite re_sub_go_quiet_end by now apply plain_quiet_target.
      unfold repl_target. rewrite <- !app_assoc. cbn [app].
      rewrite <- !app_assoc. reflexivity.
    + discriminate.
    + rewrite <- !app_assoc. now apply target_hit.
  - apply (quiet_in_other TARGET_RE calm_none 40%N target_first eq_refl).
    absent.
Qed.

Lemma spaced_link_pass4 :
  pass4 (pre ++ 91%N :: title ++ 93%N :: 40%N :: WORD ++ g ++ 41%N :: post)
  = pre ++ 91%N :: title ++ 93%N :: 40%N :: WORD ++ g ++ 41%N :: post.
Proof.
  apply pass4_calm. unfold quiet.
  replace (pre ++ 91%N :: title ++ 93%N :: 40%N :: WORD ++ g ++ 41%N :: post)
    with ((pre ++ 91%N :: title ++ [93%N]) ++ [40%N] ++ WORD ++ g
            ++ (41%N :: post))
    by (rewrite <- !app_assoc; cbn [app]; rewrite <- !app_assoc;
        reflexivity).
  apply quiet_in_app.
  { cbn [app]. apply bare_without_colon; absent. }
  apply quiet_in_app.
  { apply (quiet_in_other BARE_RE calm_none 97%N bare_first eq_refl).
    absent. }
  apply quiet_in_app.
  { apply bare_in_word. }
  apply quiet_in_app.
  { cbn [app]. apply bare_without_colon; absent. }
  apply bare_before_word; [absent | intros []].
Qed.

End LinkWithTarget.

(** X15: a link [[title] (annotation: slug)] with stray white space
    between the text and the target and after the colon (or none),
    standing between two texts, where the title and the texts around
    contain no bracket, parenthesis or colon, is rewritten to
    [[title](annotation:slug)]; the title is kept as written. *)
Theorem spaced_link_normalized :
  forall pre title sp ws g post : str,
    forallb titlechar pre = true -> forallb titlechar title = true ->
    forallb titlechar post = true ->
    forallb Py.isspace sp = true -> forallb Py.isspace ws = true ->
    forallb isslug g = true -> g <> [] ->
    normalize_annotations
      (pre ++ py "[" ++ title ++ py "]" ++ sp ++ py "(annotation:" ++ ws ++ g
         ++ py ")" ++ post)
    = pre ++ py "[" ++ title ++ py "](annotation:" ++ g ++ py ")" ++ post.
Proof.
  intros pre title sp ws g post Hpre Htitle Hpost Hsp Hws Hg Hne.
  unfold normalize_annotations.
  change (pre ++ py "[" ++ title ++ py "]" ++ sp ++ py "(annotation:" ++ ws
            ++ g ++ py ")" ++ post)
    with (pre ++ 91%N :: title ++ 93%N :: sp ++ 40%N :: WORD ++ ws ++ g
            ++ 41%N :: post).
  rewrite spaced_link_pass1, spaced_link_pass2, spaced_link_pass3,
    spaced_link_pass4 by assumption.
  reflexivity.
Qed.

Lemma spaced_link_normalized_witness :
  normalize_annotations (py "as in [Rule 110]  (annotation: rule-110).")
  = py "as in [Rule 110](annotation:rule-110).".
Proof.
  apply (spaced_link_normalized (py "as in ") (py "Rule 110") (py "  ")
           (py " ") (py "rule-110") (py ".")); try reflexivity.
  discriminate.
Defined.

(** ** Texts the normalizer leaves alone *)

Lemma quiet_without_word (m : matcher) :
  (forall p s n g, m p s = Some (n, g) -> contains WORD s = true) ->
  forall (x : str) p,
    contains WORD x = false -> quiet_in m calm_none p x [].
Proof.
  intros Hm x. induction x as [|c x IH]; intros p H; [exact I|].
  cbn [quiet_in]. split.
  - rewrite app_nil_r. unfold calm_none.
    destruct (m p (c :: x)) as [[n g]|] eqn:E; [|reflexivity].
    apply Hm in E. congruence.
  - apply IH. revert H. apply contains_tail.
Qed.

Lemma bracketed_needs_word p s n g :
  BRACKETED_RE p s = Some (n, g) -> contains WORD s = true.
Proof.
  intros H. apply match_shape_inv in H as (sp & r & -> & _).
  rewrite bracketed_lit. apply (@contains_mid [91%N] WORD).
Qed.

Lemma target_needs_word p s n g :
  TARGET_RE p s = Some (n, g) -> contains WORD s = true.
Proof.
  intros H. apply match_shape_inv in H as (sp & r & -> & _).
  rewrite target_lit. apply (@contains_mid [40%N] WORD).
Qed.

Lemma bare_needs_word p s n g :
  BARE_RE p s = Some (n, g) -> contains WORD s = true.
Proof.
  intros H. apply bare_inv in H as (sp & r & -> & _).
  apply contains_here.
Qed.

Lemma tight_quiet_spaced (x : str) p :
  tight_brackets x = true -> quiet_in SPACED_RE calm_none p x [].
Proof.
  revert p. induction x as [|c x IH]; intros p H; [exact I|].
  cbn [quiet_in]. split.
  - rewrite app_nil_r. unfold calm_none.
    destruct (SPACED_RE p (c :: x)) as [[n g]|] eqn:E; [|reflexivity].
    exfalso. apply spaced_inv in E as (sp & r & E & Hne & _ & Hsp).
    destruct sp as [|s0 sp]; [congruence|]. injection E as -> ->.
    cbn [forallb] in Hsp. apply andb_true_iff in Hsp as [Hs0 _].
    cbn [app tight_brackets] in H. rewrite Hs0 in H. discriminate H.
  - apply IH. destruct x as [|d x]; [reflexivity|].
    cbn [tight_brackets] in H. now apply andb_true_iff in H as [_ H].
Qed.

(** X16: a text in which the word [annotation:] does not occur and no
    closing bracket is followed by white space is returned unchanged by
    [normalize_annotations]; this covers ordinary Markdown links. *)
Theorem text_without_annotation_unchanged :
  forall md : str,
    contains (py "annotation:") md = false ->
    tight_brackets md = true ->
    normalize_annotations md = md.
Proof.
  intros md Hw Ht. change (py "annotation:") with WORD in Hw.
  unfold normalize_annotations.
  rewrite pass1_calm, pass2_calm, pass3_calm, pass4_calm; [reflexivity| | | |].
  - exact (quiet_without_word BARE_RE bare_needs_word md None Hw).
  - pose proof (quiet_without_word TARGET_RE target_needs_word md None Hw)
      as H.
    unfold quiet. clear -H. revert H. generalize (@None char).
    induction md as [|c md IH]; intros p H; [exact I|].
    destruct H as [H1 H2]. split; [|now apply IH].
    unfold calm_none in H1. now rewrite H1.
  - now apply tight_quiet_spaced.
  - exact (quiet_without_word BRACKETED_RE bracketed_needs_word md None Hw).
Qed.

Lemma text_without_annotation_unchanged_witness :
  normalize_annotations (py "See [the book](https://example.org/a) and [1].")
  = py "See [the book](https://example.org/a) and [1].".
Proof.
  apply (text_without_annotation_unchanged
           (py "See [the book](https://example.org/a) and [1]."));
    reflexivity.
Defined.

(** ** Titles of slugs *)

Lemma replace_hyphen (s : str) :
  Py.replace (py "-") (py " ") s
  = map (fun c => if (c =? 45)%N then 32%N else c) s.
Proof.
  change (Py.replace (py "-") (py " ") s)
    with (Py.replace_go [45%N] [32%N] 0 s).
  induction s as [|c s IH]; [reflexivity|].
  cbn [Py.replace_go Py.startswith map length Nat.sub app].
  rewrite andb_true_r, N.eqb_sym. destruct (c =? 45)%N; now rewrite IH.
Qed.

Lemma word_chars w c :
  plain_word w = true -> In c w ->
  c <> 45%N /\ Py.isspace c = false.
Proof.
  unfold plain_word. intros H Hin. apply andb_true_iff in H as [_ H].
  assert (Hs : isslug c = true /\ c <> 45%N).
  { unfold isslug. apply orb_true_iff in H as [H | H];
      rewrite forallb_forall in H; specialize (H c Hin); rewrite H.
    - split; [reflexivity|]. unfold Py.islower in H.
      apply andb_true_iff in H as [H1 H2]. apply N.leb_le in H1. lia.
    - split; [now rewrite orb_true_r|]. unfold isdigit in H.
      apply andb_true_iff in H as [H1 H2]. apply N.leb_le in H1. lia. }
  split; [tauto | now apply slug_not_space].
Qed.

Lemma map_hyphen_word w :
  plain_word w = true ->
  map (fun c => if (c =? 45)%N then 32%N else c) w = w.
Proof.
  intros H. rewrite <- (map_id w) at 2. apply map_ext_in. intros c Hc.
  destruct (word_chars w c H Hc) as [Hn _].
  apply N.eqb_neq in Hn. now rewrite Hn.
Qed.

Lemma map_join (f : char -> char) (sep : str) (xs : list str) :
  map f (Py.join sep xs) = Py.join (map f sep) (map (map f) xs).
Proof.
  induction xs as [|x xs IH]; [reflexivity|].
  destruct xs as [|y xs]; [reflexivity|].
  cbn [map] in *. rewrite !join_cons by discriminate.
  rewrite !map_app. now rewrite IH.
Qed.

Lemma lower_facts c :
  Py.islower c = true ->
  Py.tolower c = c /\ Py.iscased c = true.
Proof.
  intros H. unfold Py.tolower, Py.iscased. rewrite H, orb_true_r.
  split; [|reflexivity]. unfold Py.islower, Py.isupper in *.
  apply andb_true_iff in H as [H1 H2]. apply N.leb_le in H1.
  replace (c <=? 90)%N with false by (symmetry; apply N.leb_gt; lia).
  now rewrite andb_false_r.
Qed.

Lemma digit_facts c :
  isdigit c = true -> Py.toupper c = c /\ Py.iscased c = false.
Proof.
  intros H. unfold Py.toupper, Py.iscased, Py.islower, Py.isupper, isdigit in *.
  apply andb_true_iff in H as [H1 H2]. apply N.leb_le in H1, H2.
  replace (97 <=? c)%N with false by (symmetry; apply N.leb_gt; lia).
  replace (65 <=? c)%N with false by (symmetry; apply N.leb_gt; lia).
  split; reflexivity.
Qed.

Lemma title_lower_tail l rest :
  forallb Py.islower l = true ->
  Py.title_go true (l ++ rest) = l ++ Py.title_go true rest.
Proof.
  induction l as [|c l IH]; intros H; [reflexivity|].
  cbn [forallb] in H. apply andb_true_iff in H as [Hc H].
  destruct (lower_facts c Hc) as [E1 E2].
  cbn [app Py.title_go]. rewrite E1, E2. now rewrite IH.
Qed.

Lemma title_digits d rest :
  forallb isdigit d = true ->
  Py.title_go false (d ++ rest) = d ++ Py.title_go false rest.
Proof.
  induction d as [|c d IH]; intros H; [reflexivity|].
  cbn [forallb] in H. apply andb_true_iff in H as [Hc H].
  destruct (digit_facts c Hc) as [E1 E2].
  cbn [app Py.title_go]. rewrite E1, E2. now rewrite IH.
Qed.

Lemma title_word w rest :
  plain_word w = true ->
  exists b, Py.title_go false (w ++ rest) = capitalize w ++ Py.title_go b rest.
Proof.
  unfold plain_word. intros H. apply andb_true_iff in H as [Hne H].
  destruct w as [|c l]; [discriminate|].
  apply orb_true_iff in H as [H | H].
  - exists true. cbn [forallb] in H. apply andb_true_iff in H as [Hc H].
    destruct (lower_facts c Hc) as [_ E2].
    cbn [app Py.title_go capitalize]. rewrite E2.
    now rewrite title_lower_tail.
  - exists false. rewrite title_digits by exact H.
    cbn [forallb] in H. apply andb_true_iff in H as [Hc _].
    destruct (digit_facts c Hc) as [E1 _].
    cbn [capitalize app]. now rewrite E1.
Qed.

Lemma title_words words :
  forallb plain_word words = true ->
  Py.title (Py.join [32%N] words) = Py.join [32%N] (map capitalize words).
Proof.
  unfold Py.title. induction words as [|w ws IH]; intros H; [reflexivity|].
  cbn [forallb] in H. apply andb_true_iff in H as [Hw H].
  destruct ws as [|w' ws].
  - cbn [Py.join map]. destruct (title_word w [] Hw) as [b E].
    rewrite !app_nil_r in E. exact E.
  - cbn [map]. rewrite (join_cons [32%N] w) by discriminate.
    rewrite (join_cons [32%N] (capitalize w)) by discriminate.
    destruct (title_word w ([32%N] ++ Py.join [32%N] (w' :: ws)) Hw)
      as [b E].
    unfold str, char in *. rewrite E. f_equal. cbn [app Py.title_go].
    replace (if b then Py.tolower 32%N else Py.toupper 32%N) with 32%N
      by now destruct b.
    change (Py.iscased 32%N) with false. f_equal. now apply IH.
Qed.

Lemma rstrip_snoc a c :
  Py.isspace c = false -> Py.rstrip (a ++ [c]) = a ++ [c].
Proof.
  intros Hc. unfold Py.rstrip. rewrite rev_app_distr. cbn [rev app Py.lstrip].
  rewrite Hc. cbn [rev]. now rewrite rev_involutive.
Qed.

Lemma join_words_ends words :
  forallb plain_word words = true -> words <> [] ->
  (exists c r, Py.join [32%N] words = c :: r /\ Py.isspace c = false)
  /\ (exists a c, Py.join [32%N] words = a ++ [c] /\ Py.isspace c = false).
Proof.
  induction words as [|w ws IH]; intros H Hne; [congruence|].
  cbn [forallb] in H. apply andb_true_iff in H as [Hw H].
  assert (Hw0 : w <> []).
  { unfold plain_word in Hw. now destruct w. }
  destruct ws as [|w' ws].
  - cbn [Py.join]. split.
    + destruct w as [|c r]; [congruence|]. exists c, r.
      split; [reflexivity|]. apply (word_chars (c :: r) c Hw). now left.
    + destruct (@exists_last _ w Hw0) as (a & c & E). exists a, c.
      split; [exact E|]. apply (word_chars w c Hw). rewrite E.
      apply in_or_app. right. now left.
  - rewrite join_cons by discriminate.
    destruct (IH H) as [_ (a & c & E & Hc)]; [discriminate|]. split.
    + destruct w as [|c0 r]; [congruence|].
      exists c0, (r ++ [32%N] ++ Py.join [32%N] (w' :: ws)).
      split; [reflexivity|]. apply (word_chars (c0 :: r) c0 Hw). now left.
    + exists (w ++ [32%N] ++ a), c. split; [|exact Hc].
      rewrite E. now rewrite <- !app_assoc.
Qed.

Lemma strip_words words :
  forallb plain_word words = true ->
  Py.strip (Py.join [32%N] words) = Py.join [32%N] words.
Proof.
  intros H. destruct words as [|w ws]; [reflexivity|].
  destruct (join_words_ends (w :: ws) H) as [(c & r & E1 & H1) (a & d & E2 & H2)];
    [discriminate|].
  unfold Py.strip.
  assert (L : Py.lstrip (Py.join [32%N] (w :: ws)) = Py.join [32%N] (w :: ws)).
  { rewrite E1. cbn [Py.lstrip]. now rewrite H1. }
  rewrite L, E2. now apply rstrip_snoc.
Qed.

(** X17: the title of a slug made of words joined by hyphens, each word
    non-empty and made of lower-case letters only or of digits only, is
    the words joined by spaces, each with its first letter in upper
    case. *)
Theorem slug_to_title_words :
  forall words : list str,
    forallb plain_word words = true ->
    slug_to_title (Py.join (py "-") words)
    = Py.join (py " ") (map capitalize words).
Proof.
  intros words H. unfold slug_to_title.
  rewrite replace_hyphen, map_join.
  assert (E : map (map (fun c => if (c =? 45)%N then 32%N else c)) words
              = words).
  { rewrite <- (map_id words) at 2. apply map_ext_in. intros w Hw.
    apply map_hyphen_word. rewrite forallb_forall in H. now apply H. }
  unfold str, char in *. rewrite E.
  change (map _ (py "-")) with [32%N].
  rewrite strip_words by exact H. now apply title_words.
Qed.

Lemma slug_to_title_words_witness :
  slug_to_title (py "computational-equivalence-110")
  = py "Computational Equivalence 110".
Proof.
  apply (slug_to_title_words
           [py "computational"; py "equivalence"; py "110"]).
  reflexivity.
Defined.

(** ** Protection of annotations in [translate_to_ja.py] *)

Section StatefulScan.

Variable St : Type.
Variable m : matcher.
Variable repl : St -> str -> str -> str * St.

Lemma re_sub_st_go_skip s p k st :
  k <= length s ->
  re_sub_st_go m repl p k st s
  = re_sub_st_go m repl (prev_at p k s) 0 st (skipn k s).
Proof.
  revert p k. induction s as [|c s IH]; intros p k Hk.
  - destruct k; [reflexivity | simpl in Hk; lia].
  - destruct k as [|k]; [reflexivity|].
    cbn [re_sub_st_go skipn]. rewrite IH by (simpl in Hk; lia).
    now rewrite (prev_at_cons p).
Qed.

Lemma re_sub_st_go_quiet x rest p st :
  quiet_in m calm_none p x rest ->
  re_sub_st_go m repl p 0 st (x ++ rest)
  = (x ++ fst (re_sub_st_go m repl (lastopt p x) 0 st rest),
     snd (re_sub_st_go m repl (lastopt p x) 0 st rest)).
Proof.
  revert p. induction x as [|c x IH]; intros p H.
  - cbn [app lastopt]. now destruct (re_sub_st_go m repl p 0 st rest).
  - destruct H as [H1 H2]. unfold calm_none in H1.
    change ((c :: x) ++ rest) with (c :: x ++ rest) in *.
    cbn [re_sub_st_go]. rewrite H1, (IH _ H2), (lastopt_cons p).
    reflexivity.
Qed.

Lemma re_sub_st_go_quiet_end x p st :
  quiet_in m calm_none p x [] -> re_sub_st_go m repl p 0 st x = (x, st).
Proof.
  intros H. rewrite <- (app_nil_r x) at 1.
  rewrite re_sub_st_go_quiet by exact H. cbn [re_sub_st_go fst snd].
  now rewrite app_nil_r.
Qed.

Lemma re_sub_st_go_hit x rest p st g :
  x <> [] -> m p (x ++ rest) = Some (length x, g) ->
  re_sub_st_go m repl p 0 st (x ++ rest)
  = (fst (repl st x g)
       ++ fst (re_sub_st_go m repl (lastopt p x) 0 (snd (repl st x g)) rest),
     snd (re_sub_st_go m repl (lastopt p x) 0 (snd (repl st x g)) rest)).
Proof.
  destruct x as [|c x]; [congruence|]. intros _ H.
  assert (F : firstn (length (c :: x)) ((c :: x) ++ rest) = c :: x)
    by now apply firstn_exact.
  change ((c :: x) ++ rest) with (c :: x ++ rest) in *.
  cbn [re_sub_st_go]. rewrite H, F.
  destruct (repl st (c :: x) g) as [r st1]. cbn [fst snd].
  change (length (c :: x) - 1) with (S (length x) - 1).
  replace (S (length x) - 1) with (length x) by lia.
  rewrite re_sub_st_go_skip by (rewrite length_app; lia).
  rewrite skipn_exact, prev_at_length, (lastopt_cons p).
  now destruct (re_sub_st_go m repl (lastopt (Some c) x) 0 st1 rest).
Qed.

End StatefulScan.

Lemma anno_target_needs_word p s n g :
  ANNO_TARGET_RE p s = Some (n, g) -> contains WORD s = true.
Proof.
  intros H. apply match_shape_inv in H as (sp & r & -> & _).
  rewrite target_lit. apply (@contains_mid [40%N] WORD).
Qed.

Lemma anno_bare_needs_word p s n g :
  ANNO_BARE_RE p s = Some (n, g) -> contains WORD s = true.
Proof.
  unfold ANNO_BARE_RE. destruct (not_after 40%N p); [|discriminate].
  intros H. apply match_shape_inv in H as (sp & r & -> & _).
  apply contains_here.
Qed.

Lemma protect_annotations_plain (text : str) :
  contains WORD text = false -> protect_annotations text = (text, []).
Proof.
  intros H. unfold protect_annotations, re_sub_st.
  rewrite re_sub_st_go_quiet_end
    by exact (quiet_without_word ANNO_TARGET_RE anno_target_needs_word
                text None H).
  apply re_sub_st_go_quiet_end.
  exact (quiet_without_word ANNO_BARE_RE anno_bare_needs_word text None H).
Qed.

(** The word is not created by replacing code spans with placeholders. *)

Lemma startswith_mixed w items idx :
  ~ In UND w ->
  Py.startswith w (mixed 0 idx items) = true ->
  Py.startswith w (source_of items) = true.
Proof.
  revert items idx. induction w as [|x w IH]; intros items idx Hw H;
    [reflexivity|].
  destruct items as [|[c|g] r].
  - discriminate H.
  - cbn [mixed source_of Py.startswith] in *.
    apply andb_true_iff in H as [H1 H2]. rewrite H1. cbn [andb].
    apply (IH r idx); [|exact H2]. intros Hin. apply Hw. now right.
  - exfalso. cbn [mixed] in H. change (idx <? 0) with false in H.
    rewrite inline_key_shape in H. cbn [app Py.startswith] in H.
    apply andb_true_iff in H as [H1 _]. apply N.eqb_eq in H1.
    apply Hw. left. now symmetry.
Qed.

Lemma contains_skip_prefix a w (k m : str) :
  ~ In a k -> contains (a :: w) (k ++ m) = contains (a :: w) m.
Proof.
  induction k as [|c k IH]; intros H; [reflexivity|].
  cbn [app contains Py.startswith].
  replace (a =? c)%N with false.
  - cbn [andb orb]. apply IH. intros Hin. apply H. now right.
  - symmetry. apply N.eqb_neq. intros ->. apply H. now left.
Qed.

Lemma inline_key_no_a n : ~ In 97%N (inline_key n).
Proof.
  rewrite inline_key_shape. intros H.
  repeat (apply in_app_or in H as [H | H]).
  - vm_compute in H. intuition discriminate.
  - vm_compute in H. intuition discriminate.
  - pose proof (str_of_nat_digits n) as Hd. rewrite forallb_forall in Hd.
    specialize (Hd _ H). discriminate Hd.
  - vm_compute in H. intuition discriminate.
Qed.

Lemma mixed_no_word items idx :
  contains WORD (source_of items) = false ->
  contains WORD (mixed 0 idx items) = false.
Proof.
  revert idx. induction items as [|[c|g] r IH]; intros idx H.
  - exact H.
  - cbn [mixed source_of] in *. cbn [contains] in H.
    apply orb_false_iff in H as [H1 H2].
    cbn [contains]. apply orb_false_iff. split; [|now apply IH].
    destruct (Py.startswith WORD (c :: mixed 0 idx r)) eqn:E; [|reflexivity].
    apply (startswith_mixed WORD (Text c :: r) idx) in E;
      [cbn [source_of] in E; congruence|].
    vm_compute. intuition discriminate.
  - cbn [mixed source_of] in *. change (idx <? 0) with false. cbv iota.
    apply not_contains_app in H as [_ H].
    pose proof (contains_skip_prefix 97%N (py "nnotation:") (inline_key idx)
                  (mixed 0 (S idx) r) (inline_key_no_a idx)) as E.
    change (97%N :: py "nnotation:") with WORD in E.
    etransitivity; [exact E | now apply IH].
Qed.

(** X18: in a paragraph where the word [annotation:] does not occur,
    [protect_annotations] finds nothing to protect, also after the
    inline code has been replaced by placeholders; the protection step
    of [translate_to_ja.py] then gives the same text and the same
    mapping as the one of [translate_chapters.py]. *)
Theorem protection_without_annotation :
  forall p : str,
    contains (py "annotation:") p = false ->
    protect_annotations p = (p, [])
    /\ protect_ja p = protect_chapters p.
Proof.
  intros p H. change (py "annotation:") with WORD in H.
  split; [now apply protect_annotations_plain|].
  unfold protect_ja, protect_chapters. rewrite protect_spec.
  rewrite protect_annotations_plain; [reflexivity|].
  apply mixed_no_word. now rewrite spans_source.
Qed.

Lemma protection_without_annotation_witness :
  protect_ja (py "call `f(x)` and `g` twice")
  = protect_chapters (py "call `f(x)` and `g` twice").
Proof.
  refine (proj2 (protection_without_annotation _ _)).
  reflexivity.
Defined.

Lemma match_shape_hit_tight lit cls close g r :
  forallb cls g = true -> g <> [] ->
  match close with
  | Some e => exists r', r = e :: r' /\ cls e = false
  | None => forall c r', r = c :: r' -> cls c = false
  end ->
  match_shape lit false cls close (lit ++ g ++ r)
  = Some (length lit + length g
          + match close with Some _ => 1 | None => 0 end, g).
Proof.
  intros Hg Hne Hr. unfold match_shape. rewrite strip_prefix_same.
  assert (E2 : span cls (g ++ r) = (g, r)).
  { apply span_take; [exact Hg|]. destruct close as [e|].
    - destruct Hr as (r' & -> & He). now intros c r'' [= <- _].
    - exact Hr. }
  rewrite E2. destruct g as [|h g]; [congruence|].
  cbn [length]. rewrite Nat.add_0_r.
  destruct close as [e|].
  - destruct Hr as (r' & -> & _). now rewrite N.eqb_refl.
  - now rewrite Nat.add_0_r.
Qed.

Lemma anno_target_first p c s :
  c <> 40%N -> ANNO_TARGET_RE p (c :: s) = None.
Proof.
  intros H. unfold ANNO_TARGET_RE. rewrite target_lit.
  now apply match_shape_first.
Qed.

Lemma anno_target_hit p (b y : str) :
  forallb (fun c => negb (c =? 41)%N) b = true -> b <> [] ->
  ANNO_TARGET_RE p (py "(annotation:" ++ b ++ 41%N :: y)
  = Some (length (py "(annotation:" ++ b ++ [41%N]), b).
Proof.
  intros Hb Hne. unfold ANNO_TARGET_RE.
  rewrite match_shape_hit_tight; auto.
  - f_equal. f_equal. rewrite !length_app. cbn [length]. lia.
  - now exists y.
Qed.

Lemma anno_bare_hit p (g y : str) :
  not_after 40%N p = true ->
  forallb isslug g = true -> g <> [] ->
  (forall c r', y = c :: r' -> isslug c = false) ->
  ANNO_BARE_RE p (WORD ++ g ++ y) = Some (length (WORD ++ g), g).
Proof.
  intros Hp Hg Hne Hy. unfold ANNO_BARE_RE. rewrite Hp.
  change (py "annotation:") with WORD.
  rewrite match_shape_hit_tight; auto.
  f_equal. f_equal. rewrite !length_app. lia.
Qed.

Lemma word_not_before (x rest : str) :
  x <> [] -> ~ In 58%N x -> ~ In 58%N (firstn 10 rest) ->
  strip_prefix WORD (x ++ rest) = None.
Proof.
  intros Hne Hx Hr.
  destruct (strip_prefix WORD (x ++ rest)) as [s1|] eqn:E; [exfalso | reflexivity].
  apply word_colon in E.
  destruct (Nat.lt_ge_cases 10 (length x)) as [Hl | Hl].
  - rewrite nth_error_app1 in E by exact Hl.
    apply Hx. eapply nth_error_In, E.
  - rewrite nth_error_app2 in E by exact Hl.
    apply Hr. apply (nth_error_In _ (10 - length x)).
    rewrite nth_error_firstn.
    replace (10 - length x <? 10) with true; [exact E|].
    symmetry. apply Nat.ltb_lt. destruct x; [congruence | cbn [length]; lia].
Qed.

Lemma anno_bare_before_word p (x rest : str) :
  ~ In 58%N x -> ~ In 58%N (firstn 10 rest) ->
  quiet_in ANNO_BARE_RE calm_none p x rest.
Proof.
  revert p. induction x as [|c x IH]; intros p Hx Hr; [exact I|].
  cbn [quiet_in]. split.
  - unfold calm_none, ANNO_BARE_RE.
    destruct (not_after 40%N p); [|reflexivity].
    unfold match_shape. change (py "annotation:") with WORD.
    pose proof (word_not_before (c :: x) rest) as E.
    unfold str, char in *. rewrite E; [reflexivity|discriminate|exact Hx|exact Hr].
  - apply IH; [|exact Hr]. intros H. apply Hx. now right.
Qed.

(** X19: [protect_annotations] replaces the parenthesised targets first
    and the bare mentions afterwards, numbering the placeholders with one
    counter: in a text with a bare mention followed by a target, the
    target becomes [__ANNO_T_0__] and the bare mention [__ANNO_B_1__],
    and the mapping records the matched texts in that order. *)
Theorem annotations_numbered_by_kind :
  forall pre g mid b post : str,
    forallb titlechar pre = true -> forallb titlechar mid = true ->
    forallb titlechar post = true ->
    forallb isslug g = true -> g <> [] ->
    (forall c r, mid = c :: r -> isslug c = false) ->
    forallb (fun c => negb (c =? 41)%N) b = true -> b <> [] ->
    protect_annotations
      (pre ++ py "annotation:" ++ g ++ mid ++ py "(annotation:" ++ b
         ++ py ")" ++ post)
    = (pre ++ py "__ANNO_B_1__" ++ mid ++ py "__ANNO_T_0__" ++ post,
       [(py "__ANNO_T_0__", py "(annotation:" ++ b ++ py ")");
        (py "__ANNO_B_1__", py "annotation:" ++ g)]).
Proof.
  intros pre g mid b post Hpre Hmid Hpost Hg Hne Hhd Hb Hbne.
  unfold protect_annotations, re_sub_st.
  change (py "annotation:") with WORD.
  assert (S1 : re_sub_st_go ANNO_TARGET_RE (anno_repl (py "__ANNO_T_")) None 0
                 [] (pre ++ WORD ++ g ++ mid ++ py "(annotation:" ++ b
                       ++ py ")" ++ post)
               = (pre ++ WORD ++ g ++ mid ++ py "__ANNO_T_0__" ++ post,
                  [(py "__ANNO_T_0__", py "(annotation:" ++ b ++ py ")")])).
  { replace (pre ++ WORD ++ g ++ mid ++ py "(annotation:" ++ b ++ py ")"
               ++ post)
      with ((pre ++ WORD ++ g ++ mid)
              ++ (py "(annotation:" ++ b ++ [41%N]) ++ post)
      by (rewrite <- !app_assoc; reflexivity).
    rewrite re_sub_st_go_quiet.
    - rewrite (re_sub_st_go_hit _ ANNO_TARGET_RE _
                 (py "(annotation:" ++ b ++ [41%N]) post _ _ b).
      + rewrite re_sub_st_go_quiet_end.
        * unfold anno_repl. cbn [fst snd length dict_set].
          rewrite <- !app_assoc. reflexivity.
        * apply (quiet_in_other ANNO_TARGET_RE calm_none 40%N
                   anno_target_first eq_refl).
          absent.
      + discriminate.
      + rewrite <- !app_assoc. now apply anno_target_hit.
    - apply (quiet_in_other ANNO_TARGET_RE calm_none 40%N anno_target_first
               eq_refl).
      absent. }
  unfold str, char in *. rewrite S1.
  replace (pre ++ WORD ++ g ++ mid ++ py "__ANNO_T_0__" ++ post)
    with (pre ++ (WORD ++ g) ++ (mid ++ py "__ANNO_T_0__" ++ post))
    by (rewrite <- !app_assoc; reflexivity).
  rewrite re_sub_st_go_quiet.
  - rewrite (re_sub_st_go_hit _ ANNO_BARE_RE _ (WORD ++ g)
               (mid ++ py "__ANNO_T_0__" ++ post) _ _ g).
    + rewrite re_sub_st_go_quiet_end.
      * unfold anno_repl. cbn [fst snd length].
        rewrite <- !app_assoc. reflexivity.
      * apply anno_bare_before_word; [|intros []].
        intros Hin. apply in_app_or in Hin as [Hin | Hin].
        -- revert Hin. now apply plain_notin.
        -- apply in_app_or in Hin as [Hin | Hin].
           ++ vm_compute in Hin. intuition discriminate.
           ++ revert Hin. now apply plain_notin.
    + discriminate.
    + rewrite <- !app_assoc. apply anno_bare_hit; auto.
      * now apply not_after_plain.
      * intros c r E. destruct mid as [|m0 mid'].
        -- cbn in E. injection E as <- _. reflexivity.
        -- injection E as <- _. now apply (Hhd m0 mid').
  - apply anno_bare_before_word; [now apply plain_notin|].
    cbn. intuition discriminate.
Qed.

Lemma annotations_numbered_by_kind_witness :
  protect_annotations (py "cf. annotation:rule-30 (annotation:red queen)!")
  = (py "cf. __ANNO_B_1__ __ANNO_T_0__!",
     [(py "__ANNO_T_0__", py "(annotation:red queen)");
      (py "__ANNO_B_1__", py "annotation:rule-30")]).
Proof.
  apply (annotations_numbered_by_kind (py "cf. ") (py "rule-30") (py " ")
           (py "red queen") (py "!")); try reflexivity; try discriminate.
  now intros c r [= <- _].
Defined.

(** ** Merging the two mappings in [translate_to_ja.py] *)

Lemma anno_key_inj t1 t2 i j :
  (t1 = TAG_T \/ t1 = TAG_B) -> (t2 = TAG_T \/ t2 = TAG_B) ->
  anno_key t1 i = anno_key t2 j -> i = j.
Proof.
  intros H1 H2 E. apply (f_equal (skipn 9)) in E.
  assert (S : forall t n, t = TAG_T \/ t = TAG_B ->
                skipn 9 (anno_key t n) = Py.str_of_nat n ++ py "__").
  { intros t n [-> | ->]; reflexivity. }
  rewrite !S in E by assumption.
  apply app_inv_tail in E. now apply str_of_nat_inj.
Qed.

Lemma anno_key_not_inline t i n :
  (t = TAG_T \/ t = TAG_B) -> anno_key t i <> inline_key n.
Proof.
  intros Ht E. apply (f_equal (fun l => nth 2 l 0%N)) in E.
  destruct Ht as [-> | ->]; discriminate E.
Qed.

Lemma anno_keyed_tagged idx st k :
  anno_keyed idx st -> In k (map fst st) ->
  exists t i, (t = TAG_T \/ t = TAG_B) /\ idx <= i /\ k = anno_key t i.
Proof.
  revert idx. induction st as [|[k' v] r IH]; intros idx H Hin;
    [contradiction|].
  destruct H as [Hk Hr]. destruct Hin as [<- | Hin].
  - cbn [fst]. destruct Hk as [-> | ->].
    + exists TAG_T, idx. auto.
    + exists TAG_B, idx. auto.
  - destruct (IH (S idx) Hr Hin) as (t & i & Ht & Hi & E).
    exists t, i. repeat split; auto. lia.
Qed.

Lemma anno_keyed_fresh st t :
  (t = TAG_T \/ t = TAG_B) -> anno_keyed 0 st ->
  ~ In (anno_key t (length st)) (map fst st).
Proof.
  intros Ht H. assert (G : forall idx st', anno_keyed idx st' ->
      forall j, j < idx \/ idx + length st' <= j ->
      ~ In (anno_key t j) (map fst st')).
  { clear st H. intros idx st'. revert idx.
    induction st' as [|[k v] r IH]; intros idx H j Hj Hin; [contradiction|].
    destruct H as [Hk Hr]. cbn [length] in Hj. destruct Hin as [E | Hin].
    - cbn [fst] in E. destruct Hk as [-> | ->];
        apply anno_key_inj in E; auto; lia.
    - apply (IH (S idx) Hr j); [lia | exact Hin]. }
  apply (G 0 st H). right. lia.
Qed.

Lemma anno_keyed_snoc idx st k v :
  anno_keyed idx st ->
  (k = anno_key TAG_T (idx + length st) \/ k = anno_key TAG_B (idx + length st)) ->
  anno_keyed idx (st ++ [(k, v)]).
Proof.
  revert idx. induction st as [|[k' v'] r IH]; intros idx H Hk.
  - cbn [length] in Hk. rewrite Nat.add_0_r in Hk. cbn. tauto.
  - destruct H as [Hk' Hr]. cbn [app anno_keyed]. split; [exact Hk'|].
    apply IH; [exact Hr|]. cbn [length] in Hk.
    now rewrite Nat.add_succ_comm.
Qed.

Lemma anno_scan (m : matcher) t :
  (t = TAG_T \/ t = TAG_B) ->
  forall s p k st,
    anno_keyed 0 st ->
    anno_keyed 0 (snd (re_sub_st_go m (anno_repl t) p k st s)).
Proof.
  intros Ht s. induction s as [|c s IH]; intros p k st H; [exact H|].
  cbn [re_sub_st_go]. destruct k as [|k]; [|now apply IH].
  destruct (m p (c :: s)) as [[n g]|].
  - unfold anno_repl at 1.
    assert (H' : anno_keyed 0
               (dict_set st (t ++ Py.str_of_nat (length st) ++ py "__")
                  (firstn n (c :: s)))).
    { rewrite dict_set_fresh by now apply (anno_keyed_fresh st t).
      apply anno_keyed_snoc; [exact H|]. cbn [Nat.add].
      destruct Ht as [-> | ->]; [now left | now right]. }
    specialize (IH (Some c) (n - 1) _ H').
    now destruct (re_sub_st_go m (anno_repl t) (Some c) (n - 1) _ s).
  - specialize (IH (Some c) 0 st H).
    now destruct (re_sub_st_go m (anno_repl t) (Some c) 0 st s).
Qed.

Lemma protect_annotations_keyed text :
  anno_keyed 0 (snd (protect_annotations text)).
Proof.
  unfold protect_annotations, re_sub_st.
  pose proof (anno_scan ANNO_TARGET_RE TAG_T (or_introl eq_refl) text None 0
                [] I) as H1.
  change TAG_T with (py "__ANNO_T_") in H1.
  destruct (re_sub_st_go ANNO_TARGET_RE (anno_repl (py "__ANNO_T_")) None 0
              [] text) as [text1 ph1].
  exact (anno_scan ANNO_BARE_RE TAG_B (or_intror eq_refl) text1 None 0 ph1
           H1).
Qed.

Lemma anno_keyed_nodup idx st : anno_keyed idx st -> NoDup (map fst st).
Proof.
  revert idx. induction st as [|[k v] r IH]; intros idx H; [constructor|].
  destruct H as [Hk Hr]. cbn [map fst]. constructor; [|now apply (IH (S idx))].
  intros Hin.
  destruct (anno_keyed_tagged (S idx) r k Hr Hin) as (t & i & Ht & Hi & E).
  destruct Hk as [-> | ->]; apply anno_key_inj in E; auto; lia.
Qed.

Lemma dict_update_fresh (e d : dict) :
  NoDup (map fst e) ->
  (forall k, In k (map fst e) -> ~ In k (map fst d)) ->
  dict_update d e = d ++ e.
Proof.
  unfold dict_update. revert d.
  induction e as [|[k v] e IH]; intros d Hn Hd.
  - cbn. now rewrite app_nil_r.
  - cbn [fold_left fst snd]. inversion Hn as [|k' e' Hk He]; subst.
    rewrite dict_set_fresh by (apply Hd; now left).
    rewrite IH; [now rewrite <- app_assoc | exact He |].
    intros k0 Hin Hin'. rewrite map_app in Hin'.
    apply in_app_or in Hin' as [Hin' | [<- | []]].
    + apply (Hd k0); [now right | exact Hin'].
    + now apply Hk.
Qed.

(** X20: when [translate_to_ja.py] merges the mapping of the annotation
    placeholders into the mapping of the inline-code placeholders, no
    entry overwrites another: the merged mapping is the inline-code
    entries followed by the annotation entries, and all its keys are
    distinct. *)
Theorem protect_ja_keeps_every_placeholder :
  forall p : str,
    snd (protect_ja p)
    = snd (protect_inline_code p)
        ++ snd (protect_annotations (fst (protect_inline_code p)))
    /\ NoDup (map fst (snd (protect_ja p))).
Proof.
  intros p. unfold protect_ja.
  pose proof (protect_annotations_keyed (fst (protect_inline_code p))) as Hk.
  assert (Hi : map fst (snd (protect_inline_code p))
               = map inline_key
                   (seq 0 (length (snd (protect_inline_code p))))).
  { rewrite protect_spec. apply table_keys. }
  destruct (protect_inline_code p) as [prot ph_inline]. cbn [fst snd] in *.
  destruct (protect_annotations prot) as [prot' ph_ann]. cbn [fst snd] in *.
  assert (Hd : forall k, In k (map fst ph_ann) -> ~ In k (map fst ph_inline)).
  { intros k Hin Hin'.
    destruct (anno_keyed_tagged 0 ph_ann k Hk Hin) as (t & i & Ht & _ & ->).
    rewrite Hi in Hin'. apply in_map_iff in Hin' as (n & E & _).
    symmetry in E. revert E. now apply anno_key_not_inline. }
  assert (E : dict_update ph_inline ph_ann = ph_inline ++ ph_ann).
  { apply dict_update_fresh; [now apply (anno_keyed_nodup 0) | exact Hd]. }
  split; [exact E|]. rewrite E, map_app.
  apply NoDup_app.
  - rewrite Hi. apply inline_keys_nodup.
  - now apply (anno_keyed_nodup 0).
  - intros k Hin Hin'. now apply (Hd k Hin').
Qed.

(** ** The budget at the start of a segment and after a flush *)

(** X21: the first paragraph of a chunk counts for its length plus 2 at
    the start of the list but for its length alone after a flush.  Two
    paragraphs whose join fits the budget by less than 2 characters are
    therefore split when they come first, and kept together when they
    follow a paragraph that has been flushed; both scripts agree. *)
Theorem first_paragraph_counted_differently :
  forall (max_chars : nat) (o p q : str),
    length (Py.join NL2 [p; q]) <= max_chars ->
    max_chars < length p + length q + 4 ->
    max_chars < length o + length p + 4 ->
    chunk_paragraphs_with max_chars [p; q] = [p; q]
    /\ chunk_paragraphs_with max_chars [o; p; q] = [o; Py.join NL2 [p; q]]
    /\ chunk_paragraphs_ja_with max_chars [p; q] = [p; q]
    /\ chunk_paragraphs_ja_with max_chars [o; p; q]
       = [o; Py.join NL2 [p; q]].
Proof.
  intros max o p q Hfit Hpq Hop.
  cbn [Py.join] in Hfit. rewrite !length_app in Hfit.
  change (length NL2) with 2 in Hfit.
  assert (E1 : (max <? length p + 2 + (length q + 2)) = true)
    by (apply Nat.ltb_lt; lia).
  assert (E2 : (max <? length o + 2 + (length p + 2)) = true)
    by (apply Nat.ltb_lt; lia).
  assert (E3 : (max <? length p + (length q + 2)) = false)
    by (apply Nat.ltb_ge; lia).
  assert (A : chunk_paragraphs_with max [p; q] = [p; q]).
  { unfold chunk_paragraphs_with. cbn [chunk_loop is_nil negb andb app
      Nat.add]. rewrite andb_false_r. cbn [app is_nil negb andb].
    rewrite E1. reflexivity. }
  assert (B : chunk_paragraphs_with max [o; p; q] = [o; Py.join NL2 [p; q]]).
  { unfold chunk_paragraphs_with. cbn [chunk_loop is_nil negb andb app
      Nat.add]. rewrite andb_false_r. cbn [app is_nil negb andb].
    rewrite E2. cbn [app is_nil negb andb Py.join]. rewrite E3.
    reflexivity. }
  rewrite !chunk_paragraphs_ja_eq. auto.
Qed.

Lemma first_paragraph_counted_differently_witness :
  chunk_paragraphs_with 10 [py "aaaa"; py "bbbb"] = [py "aaaa"; py "bbbb"]
  /\ chunk_paragraphs_with 10 [py "a long one"; py "aaaa"; py "bbbb"]
     = [py "a long one"; py "aaaa

bbbb"].
Proof.
  destruct (first_paragraph_counted_differently 10 (py "a long one")
              (py "aaaa") (py "bbbb")) as (A & B & _);
    [apply Nat.leb_le; reflexivity | apply Nat.ltb_lt; reflexivity
    | apply Nat.ltb_lt; reflexivity |].
  split; [exact A | exact B].
Defined.
